(** * Redis keyspace heatmap: the sampling core, embedded and verified

    A shallow embedding of the scan engine ([src/lib/scan/scanEngine.ts]),
    the size estimator ([sizeEstimate.ts]) and the prefix aggregator and
    merge layer ([src/lib/utils.ts], the part that is [prefixTree.ts]),
    with the part of the scan route that runs them
    ([src/app/api/scan/route.ts]) and the session manager that the route
    asks for its connection ([src/lib/auth/basic.ts], the part that is
    [session.ts]).

    Conventions of the embedding.
    - A JavaScript [number] that holds a count, a byte size, a TTL or a
      bucket boundary is an integer of [Z]; the one quotient that is not an
      integer, [coverage], is a rational of [Q].
    - A JavaScript string is a [string] of bytes (its UTF-8 encoding), so
      that [Buffer.byteLength(s, 'utf8')] is [String.length s].
    - [null] and [undefined] are [None].
    - A [Record<string, V>] is a [gmap string V]: two such objects are
      compared by their entries, not by the order the entries were added.
    - A [Map<string, V>] whose [values()] are turned into an array keeps
      the order of insertion: it is an association list ([OMap]).
    - [async] functions are run to completion; a rejected promise or a
      thrown exception is the [Err] case of [Reply]. *)

From Stdlib Require Import ZArith QArith Ascii String.
From Stdlib Require Import DecimalString.
From Stdlib Require DecimalPos.
From stdpp Require Import gmap strings list fin_maps sorting.

Local Open Scope string_scope.
Local Open Scope Z_scope.

(** ** Numbers and strings as JavaScript prints and cuts them *)

(** [`${n}`] for an integer [n]. *)
Definition num_to_string (n : Z) : string :=
  NilZero.string_of_int (Z.to_int n).

(** [Math.round(a / b)] for integers [a] and [b > 0]: the nearest integer,
    a half rounding up. *)
Definition round_div (a b : Z) : Z := (2 * a + b) / (2 * b).

(** [s.startsWith(p)]. *)
Fixpoint startsWith (p s : string) : bool :=
  match p, s with
  | EmptyString, _ => true
  | String a p', String b s' => if Ascii.eqb a b then startsWith p' s' else false
  | String _ _, EmptyString => false
  end.

(** [s.split(d)] for a separator [d] that is not empty: [skip] counts the
    bytes of a separator just recognised that are still to be passed over,
    [cur] is the segment read so far. *)
Fixpoint split_go (d : string) (skip : nat) (cur s : string) : list string :=
  match s with
  | EmptyString => [cur]
  | String c s' =>
      match skip with
      | S k => split_go d k cur s'
      | O =>
          if startsWith d s
          then cur :: split_go d (String.length d - 1) EmptyString s'
          else split_go d O (cur +:+ String c EmptyString) s'
      end
  end.

(** [s.split('')] cuts between all the units of the string, and the empty
    string gives no segment at all. *)
Fixpoint split_chars (s : string) : list string :=
  match s with
  | EmptyString => []
  | String c s' => String c EmptyString :: split_chars s'
  end.

Definition split (s d : string) : list string :=
  match d with
  | EmptyString => split_chars s
  | _ => split_go d O EmptyString s
  end.

(** [parts.join(d)]. *)
Fixpoint join (d : string) (parts : list string) : string :=
  match parts with
  | [] => EmptyString
  | [p] => p
  | p :: rest => p +:+ d +:+ join d rest
  end.

(** ** The data model ([types.ts]) *)

Record ScanConfig := {
  dbs : list Z;
  sampleLimit : Z;
  scanCount : Z;
  ttlBuckets : list Z;
  idleBuckets : list Z;
  sizeTopN : Z
}.

(** [type] is the string the store answers to [TYPE]; TypeScript narrows it
    to eight names by a cast that checks nothing. *)
Record KeyMeta := {
  key : string;
  type : string;
  ttlMs : option Z;
  idleSec : option Z;
  estBytes : option Z;
  db : option Z
}.

Record TypeStats := { t_count : Z; t_estBytes : Z }.

Record PrefixAgg := {
  prefix : string;
  count : Z;
  p_estBytes : Z;
  ttlHist : gmap string Z;
  idleHist : gmap string Z;
  byType : gmap string TypeStats
}.

Record SampleStats := {
  durationMs : Z;
  sampled : Z;
  approxTotalKeys : Z;
  coverage : Q;
  memoryUsageCalls : Z;
  errors : list string
}.

Record AggregationResult := {
  prefixes : list PrefixAgg;
  topN : gmap string (list KeyMeta)
}.

(** ** Bucket labels ([utils.ts]) *)

Definition formatTime (seconds : Z) : string :=
  if seconds <? 60 then num_to_string seconds +:+ "s"
  else if seconds <? 3600 then num_to_string (round_div seconds 60) +:+ "m"
  else if seconds <? 86400 then num_to_string (round_div seconds 3600) +:+ "h"
  else num_to_string (round_div seconds 86400) +:+ "d".

(** The [for] loop of both label functions: the first pair of neighbouring
    boundaries that encloses [v]. *)
Fixpoint bucketLoop (v : Z) (buckets : list Z) : option string :=
  match buckets with
  | b0 :: ((b1 :: _) as rest) =>
      if (b0 <=? v) && (v <? b1)
      then Some (formatTime b0 +:+ "-" +:+ formatTime b1)
      else bucketLoop v rest
  | _ => None
  end.

(** [`>${formatTime(buckets[buckets.length - 1])}`]; on an empty array the
    element is [undefined] and [formatTime] prints [NaNd]. *)
Definition overflowLabel (buckets : list Z) : string :=
  match last buckets with
  | Some b => ">" +:+ formatTime b
  | None => ">NaNd"
  end.

Definition getTTLBucketLabel (ttl : option Z) (buckets : list Z) : string :=
  match ttl with
  | None => "persistent"
  | Some ms =>
      if ms =? 0 then "0-60s"
      else
        let ttlSec := ms / 1000 in
        match bucketLoop ttlSec buckets with
        | Some l => l
        | None => overflowLabel buckets
        end
  end.

Definition getIdleBucketLabel (idle : Z) (buckets : list Z) : string :=
  if idle =? 0 then "0-1m"
  else
    match bucketLoop idle buckets with
    | Some l => l
    | None => overflowLabel buckets
    end.

(** ** The prefix aggregator ([prefixTree.ts]) *)

(** A [Map<string, V>] in the order of insertion. *)
Module OMap.
Section Ops.
Context {V : Type}.

Fixpoint get (k : string) (m : list (string * V)) : option V :=
  match m with
  | [] => None
  | (k', v) :: m' => if String.eqb k' k then Some v else get k m'
  end.

Definition has (k : string) (m : list (string * V)) : bool :=
  match get k m with Some _ => true | None => false end.

(** [set] keeps the place of a key that is there and appends a new one. *)
Fixpoint set (k : string) (v : V) (m : list (string * V)) : list (string * V) :=
  match m with
  | [] => [(k, v)]
  | (k', v') :: m' =>
      if String.eqb k' k then (k', v) :: m' else (k', v') :: set k v m'
  end.

Definition values (m : list (string * V)) : list V := map snd m.
End Ops.
End OMap.

(** [extractPrefixes]: the loop [for (i = 1; i <= min(parts.length, maxLevels); i++)]. *)
Definition extractPrefixes (k delimiter : string) (maxLevels : nat) : list string :=
  let parts := split k delimiter in
  map (fun i => join delimiter (take i parts))
      (seq 1 (Nat.min (length parts) maxLevels)).

Definition createEmptyPrefixAgg (p : string) : PrefixAgg :=
  {| prefix := p; count := 0; p_estBytes := 0;
     ttlHist := ∅; idleHist := ∅; byType := ∅ |}.

(** [if (key.estBytes)]: the number is there and is not zero. *)
Definition truthy (n : option Z) : bool :=
  match n with
  | Some v => negb (v =? 0)
  | None => false
  end.

(** [n || 0]. *)
Definition orZero (n : option Z) : Z := default 0 n.

(** [hist[label] = (hist[label] || 0) + n]. *)
Definition histAdd (label : string) (n : Z) (hist : gmap string Z) : gmap string Z :=
  <[label := orZero (hist !! label) + n]> hist.

Definition updatePrefixAgg (agg : PrefixAgg) (k : KeyMeta) (config : ScanConfig) : PrefixAgg :=
  let count1 := count agg + 1 in
  let est1 := if truthy (estBytes k) then p_estBytes agg + orZero (estBytes k)
              else p_estBytes agg in
  let ttl1 := histAdd (getTTLBucketLabel (ttlMs k) (ttlBuckets config)) 1 (ttlHist agg) in
  let idle1 :=
    match idleSec k with
    | Some s => histAdd (getIdleBucketLabel s (idleBuckets config)) 1 (idleHist agg)
    | None => idleHist agg
    end in
  let slot := default {| t_count := 0; t_estBytes := 0 |} (byType agg !! type k) in
  let slot1 :=
    {| t_count := t_count slot + 1;
       t_estBytes := if truthy (estBytes k) then t_estBytes slot + orZero (estBytes k)
                     else t_estBytes slot |} in
  {| prefix := prefix agg; count := count1; p_estBytes := est1;
     ttlHist := ttl1; idleHist := idle1;
     byType := <[type k := slot1]> (byType agg) |}.

(** The search loop of [insertTopN]: the first index whose entry is
    strictly smaller than the candidate, or the length. *)
Fixpoint findInsertIndex (l : list KeyMeta) (k : KeyMeta) : nat :=
  match l with
  | [] => O
  | x :: l' =>
      if orZero (estBytes x) <? orZero (estBytes k) then O
      else S (findInsertIndex l' k)
  end.

Definition insertTopN (l : list KeyMeta) (k : KeyMeta) (maxSize : Z) : list KeyMeta :=
  let insertIndex := findInsertIndex l k in
  if Z.of_nat insertIndex <? maxSize then
    let l1 := (take insertIndex l ++ k :: drop insertIndex l)%list in
    if maxSize <? Z.of_nat (length l1) then take (Z.to_nat maxSize) l1 else l1
  else l.

(** [arr.sort((a, b) => b.estBytes - a.estBytes)]: the sort is stable, an
    element goes behind those that are at least as large and came earlier. *)
Fixpoint sortInsert (x : PrefixAgg) (l : list PrefixAgg) : list PrefixAgg :=
  match l with
  | [] => [x]
  | y :: l' =>
      if p_estBytes x <? p_estBytes y then y :: sortInsert x l' else x :: y :: l'
  end.

Definition sortByEstBytes (l : list PrefixAgg) : list PrefixAgg :=
  foldr sortInsert [] l.

(** The body of the inner loop of [aggregateKeys] for one prefix. *)
Definition touchPrefix (k : KeyMeta) (config : ScanConfig)
    (pm : list (string * PrefixAgg)) (p : string) : list (string * PrefixAgg) :=
  let pm1 := if OMap.has p pm then pm else OMap.set p (createEmptyPrefixAgg p) pm in
  match OMap.get p pm1 with
  | Some agg => OMap.set p (updatePrefixAgg agg k config) pm1
  | None => pm1
  end.

(** The body of the outer loop of [aggregateKeys] for one key. *)
Definition aggregateStep (config : ScanConfig) (delimiter : string)
    (st : list (string * PrefixAgg) * gmap string (list KeyMeta)) (k : KeyMeta)
    : list (string * PrefixAgg) * gmap string (list KeyMeta) :=
  let '(pm, tm) := st in
  let pm1 := foldl (touchPrefix k config) pm (extractPrefixes (key k) delimiter 3) in
  let tm1 := if decide (is_Some (tm !! type k)) then tm else <[type k := []]> tm in
  let topNList := default [] (tm1 !! type k) in
  let tm2 := if truthy (estBytes k)
             then <[type k := insertTopN topNList k (sizeTopN config)]> tm1
             else tm1 in
  (pm1, tm2).

Definition aggregateKeys (keys : list KeyMeta) (config : ScanConfig) (delimiter : string)
    : AggregationResult :=
  let '(pm, tm) := foldl (aggregateStep config delimiter) ([], ∅) keys in
  {| prefixes := sortByEstBytes (OMap.values pm); topN := tm |}.

(** ** The merge layer ([mergeAggregations])

    The function is embedded on values: each call is given inputs of its
    own.  The code copies a prefix record with [{ ...prefix }], which
    shares the three histogram objects with the input, and then adds to
    them in place; the value that one call returns does not depend on it
    as long as no histogram object reaches the call twice.  The module
    [Shared] embeds the same function on a heap of objects, and
    [SharedFacts.mergeAggregationsObj_exact] is that statement. *)

(** The loops over [Object.entries(prefix.ttlHist)] and [idleHist]. *)
Definition mergeHist (existing h : gmap string Z) : gmap string Z :=
  map_fold (fun label c acc => histAdd label c acc) existing h.

(** The loop over [Object.entries(prefix.byType)]. *)
Definition mergeByType (existing bt : gmap string TypeStats) : gmap string TypeStats :=
  map_fold
    (fun ty stats acc =>
       let slot := default {| t_count := 0; t_estBytes := 0 |} (acc !! ty) in
       <[ty := {| t_count := t_count slot + t_count stats;
                  t_estBytes := t_estBytes slot + t_estBytes stats |}]> acc)
    existing bt.

(** The [else] branch for a prefix that is already in [mergedPrefixes].
    Here the sums are new values; the code writes them into the three
    objects of [existing] ([Shared.mergedHeap]), which is the same as long
    as [p] and the other records have objects of their own. *)
Definition mergeInto (existing p : PrefixAgg) : PrefixAgg :=
  {| prefix := prefix existing;
     count := count existing + count p;
     p_estBytes := p_estBytes existing + p_estBytes p;
     ttlHist := mergeHist (ttlHist existing) (ttlHist p);
     idleHist := mergeHist (idleHist existing) (idleHist p);
     byType := mergeByType (byType existing) (byType p) |}.

Definition mergePrefix (pm : list (string * PrefixAgg)) (p : PrefixAgg)
    : list (string * PrefixAgg) :=
  match OMap.get (prefix p) pm with
  | None => OMap.set (prefix p) p pm
  | Some existing => OMap.set (prefix p) (mergeInto existing p) pm
  end.

(** The bound that [mergeAggregations] passes to [insertTopN]. *)
Definition mergeTopNBound : Z := 20.

(** The loop over [Object.entries(result.topN)]. *)
Definition mergeTopN (merged tn : gmap string (list KeyMeta)) : gmap string (list KeyMeta) :=
  map_fold
    (fun ty keys acc =>
       match acc !! ty with
       | None => <[ty := keys]> acc
       | Some existing =>
           <[ty := foldl (fun l k => insertTopN l k mergeTopNBound) existing keys]> acc
       end)
    merged tn.

Definition mergeStep (st : list (string * PrefixAgg) * gmap string (list KeyMeta))
    (result : AggregationResult) : list (string * PrefixAgg) * gmap string (list KeyMeta) :=
  let '(pm, tm) := st in
  (foldl mergePrefix pm (prefixes result), mergeTopN tm (topN result)).

Definition mergeAggregations (results : list AggregationResult) : AggregationResult :=
  let '(pm, tm) := foldl mergeStep ([], ∅) results in
  {| prefixes := sortByEstBytes (OMap.values pm); topN := tm |}.

(** ** The store as the core sees it

    What a command answers is data of the model.  [Ok] is a resolved
    promise (or a pipeline entry [[null, value]]), [Err] a rejected one
    (or an entry [[error, _]]) with the message of the error. *)

Inductive Reply (T : Type) : Type :=
  | Ok (value : T)
  | Err (message : string).
Arguments Ok {T} value.
Arguments Err {T} message.

(** One connection with a database selected: what each command that the
    core sends answers, per key.  [c_scan] lists the answers to the
    successive [SCAN] calls, each a new cursor and a batch of key names;
    [c_exec] is [pipeline.exec()]: rejected, [null] ([Ok false]) or an
    array of entries ([Ok true]) that [c_type], [c_pttl] and [c_idle]
    fill.  [c_xinfo] is the element [info[1]] of the answer to
    [XINFO STREAM]. *)
Record Conn := {
  c_scan : list (Reply (string * list string));
  c_exec : list string -> Reply bool;
  c_type : string -> Reply string;
  c_pttl : string -> Reply Z;
  c_idle : string -> Reply Z;
  c_memory : string -> Reply (option Z);
  c_get : string -> Reply (option string);
  c_hlen : string -> Reply Z;
  c_hscan : string -> Z -> Reply (list string);
  c_llen : string -> Reply Z;
  c_lrange : string -> Z -> Reply (list string);
  c_scard : string -> Reply Z;
  c_sscan : string -> Z -> Reply (list string);
  c_zcard : string -> Reply Z;
  c_zrevrange : string -> Z -> Reply (list string);
  c_xinfo : string -> Reply Z
}.

(** [Buffer.byteLength(s, 'utf8')]. *)
Definition byteLength (s : string) : Z := Z.of_nat (String.length s).

(** ** The size estimator ([sizeEstimate.ts]) *)

Section SizeEstimate.

(** [Math.floor((total / sample) * n)] as the engine computes it on
    doubles.  The quotient need not be exact, so the operation is kept
    abstract: nothing below depends on how it rounds. *)
Variable floorScaled : Z -> Z -> Z -> Z.

(** [try { ... } catch (error) { return 0 }]. *)
Definition orElse0 (r : Reply Z) : Z :=
  match r with Ok n => n | Err _ => 0 end.

Definition bind {T U : Type} (r : Reply T) (f : T -> Reply U) : Reply U :=
  match r with Ok v => f v | Err m => Err m end.

Definition estimateStringSize (client : Conn) (k : string) : Z :=
  orElse0 (bind (c_get client k) (fun value =>
    Ok (match value with
        | Some v => if String.eqb v EmptyString then 0 else byteLength v
        | None => 0
        end))).

(** The loops that read the sample two entries at a time; an entry
    without its partner is [undefined], on which [Buffer.byteLength]
    throws. *)
Fixpoint pairBytes (entries : list string) : Reply Z :=
  match entries with
  | [] => Ok 0
  | [_] => Err "The string argument must be of type string"
  | f :: v :: rest =>
      bind (pairBytes rest) (fun n => Ok (byteLength f + byteLength v + n))
  end.

Definition sumBytes (elements : list string) : Z :=
  foldr (fun e n => byteLength e + n) 0 elements.

Definition estimateHashSize (client : Conn) (k : string) : Z :=
  orElse0 (bind (c_hlen client k) (fun hlen =>
    if hlen =? 0 then Ok 0
    else
      let sampleSize := Z.min 10 hlen in
      bind (c_hscan client k sampleSize) (fun fieldEntries =>
      bind (pairBytes fieldEntries) (fun totalSize =>
      Ok (floorScaled totalSize (sampleSize * 2) hlen))))).

Definition estimateListSize (client : Conn) (k : string) : Z :=
  orElse0 (bind (c_llen client k) (fun llen =>
    if llen =? 0 then Ok 0
    else
      let sampleSize := Z.min 10 llen in
      bind (c_lrange client k (sampleSize - 1)) (fun elements =>
      Ok (floorScaled (sumBytes elements) sampleSize llen)))).

Definition estimateSetSize (client : Conn) (k : string) : Z :=
  orElse0 (bind (c_scard client k) (fun scard =>
    if scard =? 0 then Ok 0
    else
      let sampleSize := Z.min 20 scard in
      bind (c_sscan client k sampleSize) (fun sampleElements =>
      Ok (floorScaled (sumBytes sampleElements) sampleSize scard)))).

Definition estimateZSetSize (client : Conn) (k : string) : Z :=
  orElse0 (bind (c_zcard client k) (fun zcard =>
    if zcard =? 0 then Ok 0
    else
      let sampleSize := Z.min 10 zcard in
      bind (c_zrevrange client k (sampleSize - 1)) (fun elements =>
      bind (pairBytes elements) (fun totalSize =>
      Ok (floorScaled totalSize sampleSize zcard))))).

Definition estimateStreamSize (client : Conn) (k : string) : Z :=
  orElse0 (bind (c_xinfo client k) (fun len =>
    if len =? 0 then Ok 0 else Ok (len * 100))).

Definition baseOverhead : Z := 50.

Definition estimateKeySizeHeuristic (client : Conn) (k ty : string) : Z :=
  if String.eqb ty "string" then estimateStringSize client k + baseOverhead
  else if String.eqb ty "hash" then estimateHashSize client k + baseOverhead
  else if String.eqb ty "list" then estimateListSize client k + baseOverhead
  else if String.eqb ty "set" then estimateSetSize client k + baseOverhead
  else if String.eqb ty "zset" then estimateZSetSize client k + baseOverhead
  else if String.eqb ty "stream" then estimateStreamSize client k + baseOverhead
  else baseOverhead.

(** Neither branch can reject: the promise of [estimateKeySize] always
    resolves, which [Ok] records for the caller. *)
Definition estimateKeySize (client : Conn) (k ty : string) : Reply Z :=
  match c_memory client k with
  | Ok (Some memoryUsage) =>
      if (negb (memoryUsage =? 0)) && (0 <? memoryUsage) then Ok memoryUsage
      else Ok (estimateKeySizeHeuristic client k ty)
  | Ok None => Ok (estimateKeySizeHeuristic client k ty)
  | Err _ => Ok (estimateKeySizeHeuristic client k ty)
  end.

End SizeEstimate.

(** ** The scan engine ([scanEngine.ts]) *)

Record ScanResult := { sr_keys : list KeyMeta; stats : SampleStats }.

(** A standalone server: [INFO keyspace], [SELECT] and one [Conn] per
    database index. *)
Record Server := {
  s_info : Reply string;
  s_select : Z -> Reply unit;
  s_db : Z -> Conn
}.

(** A master node of a cluster. *)
Record Node := {
  n_host : string;
  n_port : Z;
  n_info : Reply string;
  n_conn : Conn
}.

Inductive Client : Type :=
  | Standalone (server : Server)
  | Cluster (nodes : list Node).

Definition isDigit (c : ascii) : bool :=
  let n := nat_of_ascii c in (48 <=? n)%nat && (n <=? 57)%nat.

(** The longest run of digits at the head of [s]: the group [(\d+)]. *)
Fixpoint takeDigits (s : string) : string :=
  match s with
  | String c s' => if isDigit c then String c (takeDigits s') else EmptyString
  | EmptyString => EmptyString
  end.

(** [parseInt] on a run of digits. *)
Definition parseInt (digits : string) : Z :=
  foldl (fun n c => 10 * n + (Z.of_nat (nat_of_ascii c) - 48)) 0
        (list_ascii_of_string digits).

(** [line.match(/keys=(\d+)/)]: the leftmost place where [keys=] is
    followed by a digit, and the digits there. *)
Fixpoint matchKeys (line : string) : option string :=
  match line with
  | EmptyString => None
  | String _ rest =>
      let digits :=
        if startsWith "keys=" line
        then takeDigits (String.substring 5 (String.length line - 5) line)
        else EmptyString in
      if String.eqb digits EmptyString then matchKeys rest else Some digits
  end.

Definition crlf : string := String "013"%char (String "010"%char EmptyString).

(** The loop over the lines of [INFO keyspace]: the key count of the first
    [db0:] line that has one. *)
Fixpoint db0Keys (lines : list string) : option Z :=
  match lines with
  | [] => None
  | line :: rest =>
      if startsWith "db0:" line then
        match matchKeys line with
        | Some digits => Some (parseInt digits)
        | None => db0Keys rest
        end
      else db0Keys rest
  end.

(** [keys.slice(0, n)]; a negative [n] counts from the end. *)
Definition sliceTo (l : list KeyMeta) (n : Z) : list KeyMeta :=
  if n <? 0 then take (Z.to_nat (Z.of_nat (length l) + n)) l
  else take (Z.to_nat n) l.

(** [approxTotalKeys > 0 ? Math.min(keys.length, sampleLimit) / approxTotalKeys : 0];
    the double that the engine stores is the one nearest to this quotient. *)
Definition coverageOf (len limit approx : Z) : Q :=
  if 0 <? approx then Qmake (Z.min len limit) (Z.to_pos approx) else 0%Q.

Section ScanEngine.

(** The import [estimateKeySize] of [./sizeEstimate]. *)
Variable estimate : Conn -> string -> string -> Reply Z.

(** The [for] loop of [collectKeyMetadata]; [i] is the index in the batch. *)
Fixpoint collectLoop (client : Conn) (d : Z) (i : nat) (batch : list string)
    : list KeyMeta * Z :=
  match batch with
  | [] => ([], 0)
  | k :: rest =>
      match c_type client k with
      | Err _ => collectLoop client d (S i) rest
      | Ok ty =>
          let ttl := match c_pttl client k with Ok v => Some v | Err _ => None end in
          let idle := match c_idle client k with Ok v => Some v | Err _ => None end in
          let '(est, calls) :=
            if (i mod 10 =? 0)%nat then
              match estimate client k ty with
              | Ok n => (Some n, 1)
              | Err _ => (None, 0)
              end
            else (None, 0) in
          let meta :=
            {| key := k; type := ty;
               ttlMs := match ttl with
                        | Some v => if v =? -1 then None else Some v
                        | None => None
                        end;
               idleSec := idle; estBytes := est; db := Some d |} in
          let '(metadata, memCalls) := collectLoop client d (S i) rest in
          (meta :: metadata, calls + memCalls)
      end
  end.

Definition collectKeyMetadata (client : Conn) (batch : list string) (d : Z)
    (config : ScanConfig) : Reply (list KeyMeta * Z) :=
  match c_exec client batch with
  | Err m => Err m
  | Ok false => Ok ([], 0)
  | Ok true => Ok (collectLoop client d O batch)
  end.

(** The [do ... while (cursor !== '0')] loop over the answers to [SCAN].
    The result is the keys and the call count so far and the error that
    ended the loop, if one did. *)
Fixpoint scanLoop (client : Conn) (d : Z) (config : ScanConfig)
    (replies : list (Reply (string * list string)))
    (acc : list KeyMeta) (memCalls : Z) : list KeyMeta * Z * option string :=
  match replies with
  | [] => (acc, memCalls, None)
  | Err m :: _ => (acc, memCalls, Some m)
  | Ok (newCursor, batchKeys) :: rest =>
      let step :=
        match batchKeys with
        | [] => Ok (acc, memCalls)
        | _ =>
            match collectKeyMetadata client batchKeys d config with
            | Ok (ks, c) => Ok ((acc ++ ks)%list, memCalls + c)
            | Err m => Err m
            end
        end in
      match step with
      | Err m => (acc, memCalls, Some m)
      | Ok (acc1, calls1) =>
          if sampleLimit config <=? Z.of_nat (length acc1) then (acc1, calls1, None)
          else if String.eqb newCursor "0" then (acc1, calls1, None)
          else scanLoop client d config rest acc1 calls1
      end
  end.

Definition pushError (errs : list string) (label : string) (e : option string)
    : list string :=
  match e with
  | Some m => (errs ++ [label +:+ ": " +:+ m])%list
  | None => errs
  end.

(** The loop over [config.dbs] of [scanStandalone]. *)
Fixpoint scanDbs (client : Server) (config : ScanConfig) (ds : list Z)
    (acc : list KeyMeta) (memCalls : Z) (errs : list string)
    : list KeyMeta * Z * list string :=
  match ds with
  | [] => (acc, memCalls, errs)
  | d :: rest =>
      if sampleLimit config <=? Z.of_nat (length acc) then (acc, memCalls, errs)
      else
        let label := "DB " +:+ num_to_string d in
        match s_select client d with
        | Err m => scanDbs client config rest acc memCalls (pushError errs label (Some m))
        | Ok _ =>
            let '(acc1, calls1, e) :=
              scanLoop (s_db client d) d config (c_scan (s_db client d)) acc memCalls in
            scanDbs client config rest acc1 calls1 (pushError errs label e)
        end
  end.

Definition finish (config : ScanConfig) (all : list KeyMeta) (approx memCalls : Z)
    (errs : list string) : ScanResult :=
  {| sr_keys := sliceTo all (sampleLimit config);
     stats :=
       {| durationMs := 0;
          sampled := Z.min (Z.of_nat (length all)) (sampleLimit config);
          approxTotalKeys := approx;
          coverage := coverageOf (Z.of_nat (length all)) (sampleLimit config) approx;
          memoryUsageCalls := memCalls;
          errors := errs |} |}.

Definition scanStandalone (client : Server) (config : ScanConfig) : ScanResult :=
  let approx :=
    match s_info client with
    | Ok info => default 0 (db0Keys (split info crlf))
    | Err _ => 0
    end in
  let '(all, memCalls, errs) := scanDbs client config (dbs config) [] 0 [] in
  finish config all approx memCalls errs.

(** The first loop of [scanCluster]: one rejected [INFO] ends it. *)
Fixpoint clusterTotal (nodes : list Node) (approx : Z) : Z :=
  match nodes with
  | [] => approx
  | node :: rest =>
      match n_info node with
      | Err _ => approx
      | Ok info => clusterTotal rest (approx + default 0 (db0Keys (split info crlf)))
      end
  end.

(** One task of [nodes.map(async ...)]: its keys, its call count and the
    error it pushed, if any. *)
Definition scanNode (config : ScanConfig) (node : Node)
    : list KeyMeta * Z * option string :=
  scanLoop (n_conn node) 0 config (c_scan (n_conn node)) [] 0.

(** The tasks run concurrently but share nothing except [errors]; the
    messages are listed here in the order of the nodes. *)
Definition scanCluster (nodes : list Node) (config : ScanConfig) : ScanResult :=
  let approx := clusterTotal nodes 0 in
  let nodeResults := map (scanNode config) nodes in
  let all := concat (map (fun r => fst (fst r)) nodeResults) in
  let memCalls := foldl (fun n r => n + snd (fst r)) 0 nodeResults in
  let errs :=
    foldl (fun es nr =>
             pushError es ("Node " +:+ n_host (fst nr) +:+ ":" +:+ num_to_string (n_port (fst nr)))
                       (snd (snd nr)))
          [] (zip nodes nodeResults) in
  finish config all approx memCalls errs.

(** [scanKeys]: the kind of the profile picks the scan.  Each scan handles
    the errors of its commands itself, so the [catch] of [scanKeys] is left
    with the call [nodes('master')] on a client that is no cluster, which
    the type [Client] rules out. *)
Definition scanKeys (client : Client) (config : ScanConfig) : ScanResult :=
  match client with
  | Cluster nodes => scanCluster nodes config
  | Standalone server => scanStandalone server config
  end.

End ScanEngine.

(** * The vocabulary of the statements *)

(** ** Sums, order and shape of a result *)

(** The sum of two entries of [byType]. *)
Definition addStats (s t : TypeStats) : TypeStats :=
  {| t_count := t_count s + t_count t; t_estBytes := t_estBytes s + t_estBytes t |}.

(** [{ count: 0, estBytes: 0 }]. *)
Definition noStats : TypeStats := {| t_count := 0; t_estBytes := 0 |}.

(** The loop [for (const key of keys) insertTopN(existing, key, bound)]. *)
Definition insertAll (bound : Z) (existing keys : list KeyMeta) : list KeyMeta :=
  foldl (fun l k => insertTopN l k bound) existing keys.

(** [sum(m[*])], each entry weighed by [f]. *)
Definition mapSum {V : Type} (f : V -> Z) (m : gmap string V) : Z :=
  map_fold (fun _ v acc => f v + acc) 0 m.

(** Neighbours in non-increasing order of [estBytes]. *)
Fixpoint descending (l : list PrefixAgg) : Prop :=
  match l with
  | a :: ((b :: _) as rest) => p_estBytes b <= p_estBytes a /\ descending rest
  | _ => True
  end.

(** The state of [aggregateKeys] after the keys so far. *)
Definition aggregateState (keys : list KeyMeta) (config : ScanConfig) (delimiter : string)
    : list (string * PrefixAgg) * gmap string (list KeyMeta) :=
  foldl (aggregateStep config delimiter) ([], ∅) keys.

(** The three sums of a prefix aggregate against its [count]. *)
Definition histogramsAddUp (a : PrefixAgg) : Prop :=
  mapSum t_count (byType a) = count a /\
  mapSum id (ttlHist a) = count a /\
  mapSum id (idleHist a) <= count a.

(** Every entry of the ordered map sits under the name it carries. *)
Definition keyed (pm : list (string * PrefixAgg)) : Prop :=
  Forall (fun e => prefix e.2 = e.1) pm.

(** The ordered map is in good order: one entry per name, under its name. *)
Definition tidy (pm : list (string * PrefixAgg)) : Prop :=
  NoDup (map fst pm) /\ keyed pm.

(** The state of [mergeAggregations] after the results so far. *)
Definition mergeState (results : list AggregationResult)
    : list (string * PrefixAgg) * gmap string (list KeyMeta) :=
  foldl mergeStep ([], ∅) results.

(** A result as the aggregator and the merge layer hand it out: one
    aggregate per prefix, the larger [estBytes] first. *)
Definition wellFormed (r : AggregationResult) : Prop :=
  NoDup (map prefix (prefixes r)) /\ descending (prefixes r).

(** The partial results that the core produces: what [aggregateKeys]
    returns for a shard, and what [mergeAggregations] returns for partial
    results. *)
Inductive partialResult : AggregationResult -> Prop :=
  | partial_aggregate keys config delimiter :
      partialResult (aggregateKeys keys config delimiter)
  | partial_merge results :
      (forall r, r ∈ results -> partialResult r) ->
      partialResult (mergeAggregations results).

(** ** A result as a table *)

(** A merge step on the table that the ordered map stands for. *)
Definition addRecord (T : gmap string PrefixAgg) (p : PrefixAgg) : gmap string PrefixAgg :=
  match T !! prefix p with
  | None => <[prefix p := p]> T
  | Some existing => <[prefix p := mergeInto existing p]> T
  end.

(** The table of a list of records, all records of a name summed. *)
Definition total (ps : list PrefixAgg) : gmap string PrefixAgg := foldl addRecord ∅ ps.

(** The sum of two tables, name by name. *)
Definition tableUnion (T S : gmap string PrefixAgg) : gmap string PrefixAgg :=
  union_with (fun e p => Some (mergeInto e p)) T S.

(** A result read by prefix name. *)
Definition byPrefix (r : AggregationResult) : gmap string PrefixAgg :=
  list_to_map (map (fun p => (prefix p, p)) (prefixes r)).


(** The top-N lists for one type, in the order of the results that have
    one. *)
Definition topNLists (ty : string) (results : list AggregationResult)
    : list (list KeyMeta) :=
  omap (fun r => topN r !! ty) results.

(** The first list is taken as it is, the keys of the later lists are put
    in one at a time under the bound of the merge. *)
Definition remerge (lists : list (list KeyMeta)) : option (list KeyMeta) :=
  match lists with
  | [] => None
  | first :: later => Some (insertAll mergeTopNBound first (concat later))
  end.

(** ** Configurations, keys and shards of the examples *)

(** The defaults of the scan route. *)
Definition cfgDefault : ScanConfig :=
  {| dbs := [0]; sampleLimit := 50000; scanCount := 1000;
     ttlBuckets := [0; 60; 300; 1800; 3600; 21600; 86400];
     idleBuckets := [0; 60; 300; 3600; 21600; 86400]; sizeTopN := 20 |}.

(** A persistent string key of database 0 with an estimate. *)
Definition stringKey (name : string) (bytes : Z) : KeyMeta :=
  {| key := name; type := "string"; ttlMs := None; idleSec := None;
     estBytes := Some bytes; db := Some 0 |}.

(** Three shards: [x] of 5 bytes, [y] of 10 bytes, [x] of 5 bytes. *)
Definition shardA : AggregationResult := aggregateKeys [stringKey "x" 5] cfgDefault ":".

(** A configuration that asks for the one largest key per type. *)
Definition cfgTop1 : ScanConfig :=
  {| dbs := [0]; sampleLimit := 50000; scanCount := 1000;
     ttlBuckets := [0; 60; 300]; idleBuckets := [0; 60]; sizeTopN := 1 |}.

(** The scenario of the two keys under [a]; the fields that the scenario
    leaves open are filled in. *)
Definition cfgScenario : ScanConfig :=
  {| dbs := []; sampleLimit := 5; scanCount := 0;
     ttlBuckets := [0; 60; 300]; idleBuckets := [0; 60]; sizeTopN := 0 |}.

Definition keyA1 : KeyMeta :=
  {| key := "a:1"; type := "string"; ttlMs := None; idleSec := None;
     estBytes := Some 10; db := None |}.

Definition keyA2 : KeyMeta :=
  {| key := "a:2"; type := "string"; ttlMs := Some 30000; idleSec := None;
     estBytes := Some 20; db := None |}.

(** The aggregate of a prefix in a result. *)
Definition prefixAgg (name : string) (r : AggregationResult) : option PrefixAgg :=
  List.find (fun a => String.eqb (prefix a) name) (prefixes r).

(** The key with its estimate taken away. *)
Definition withoutEstimate (k : KeyMeta) : KeyMeta :=
  {| key := key k; type := type k; ttlMs := ttlMs k; idleSec := idleSec k;
     estBytes := None; db := db k |}.

(** [byType[ty].estBytes], zero when the type has no entry. *)
Definition typeBytes (ty : string) (a : PrefixAgg) : Z :=
  t_estBytes (default noStats (byType a !! ty)).

(** ** The estimator and the scans *)

(** The size that the heuristic of a type comes to before the overhead. *)
Definition typeEstimate (floorScaled : Z -> Z -> Z -> Z) (client : Conn) (k ty : string) : Z :=
  if String.eqb ty "string" then estimateStringSize client k
  else if String.eqb ty "hash" then estimateHashSize floorScaled client k
  else if String.eqb ty "list" then estimateListSize floorScaled client k
  else if String.eqb ty "set" then estimateSetSize floorScaled client k
  else if String.eqb ty "zset" then estimateZSetSize floorScaled client k
  else if String.eqb ty "stream" then estimateStreamSize client k
  else 0.

(** The native answer counts only when it is a positive number. *)
Definition nativeSize (client : Conn) (k : string) : option Z :=
  match c_memory client k with
  | Ok (Some m) => if 0 <? m then Some m else None
  | _ => None
  end.

(** [Math.floor((total / sample) * n)] where the doubles are exact. *)
Definition floorScaledExact (total sample n : Z) : Z := (total * n) / sample.

(** A store that holds one string [k] with the value [abc]; [native] is
    what it answers to [MEMORY USAGE] and [value] what it answers to [GET]. *)
Definition oneString (native : Reply (option Z)) (value : Reply (option string)) : Conn :=
  {| c_scan := [Ok ("0", ["k"])];
     c_exec := fun _ => Ok true;
     c_type := fun _ => Ok "string";
     c_pttl := fun _ => Ok (-1);
     c_idle := fun _ => Ok 3;
     c_memory := fun _ => native;
     c_get := fun _ => value;
     c_hlen := fun _ => Err "WRONGTYPE";
     c_hscan := fun _ _ => Err "WRONGTYPE";
     c_llen := fun _ => Err "WRONGTYPE";
     c_lrange := fun _ _ => Err "WRONGTYPE";
     c_scard := fun _ => Err "WRONGTYPE";
     c_sscan := fun _ _ => Err "WRONGTYPE";
     c_zcard := fun _ => Err "WRONGTYPE";
     c_zrevrange := fun _ _ => Err "WRONGTYPE";
     c_xinfo := fun _ => Err "WRONGTYPE" |}.

(** What [collectKeyMetadata] stores as [estBytes] for the key at index [i]
    of a batch. *)
Definition strideEstimate (estimate : Conn -> string -> string -> Reply Z)
    (client : Conn) (i : nat) (k ty : string) : option Z :=
  if (i mod 10 =? 0)%nat then
    match estimate client k ty with
    | Ok n => Some n
    | Err _ => None
    end
  else None.

(** The keys that a scan has gathered when its loops end, before the
    result is cut to the limit. *)
Definition visitedStandalone (estimate : Conn -> string -> string -> Reply Z)
    (client : Server) (config : ScanConfig) : list KeyMeta :=
  (scanDbs estimate client config (dbs config) [] 0 []).1.1.

(** The keys that one node of a cluster has gathered. *)
Definition visitedNode (estimate : Conn -> string -> string -> Reply Z)
    (config : ScanConfig) (node : Node) : list KeyMeta :=
  (scanNode estimate config node).1.1.

(** The keys of the nodes, node after node. *)
Definition visitedCluster (estimate : Conn -> string -> string -> Reply Z)
    (nodes : list Node) (config : ScanConfig) : list KeyMeta :=
  concat (map (visitedNode estimate config) nodes).

(** What [coverage] is, given the other fields of the statistics. *)
Definition coverageIsRatio (s : SampleStats) : Prop :=
  0 <= approxTotalKeys s /\
  (approxTotalKeys s = 0 -> (coverage s == 0)%Q) /\
  (0 < approxTotalKeys s ->
   (coverage s == inject_Z (sampled s) / inject_Z (approxTotalKeys s))%Q /\
   ((coverage s <= 1)%Q <-> sampled s <= approxTotalKeys s)).

(** The answer to [INFO keyspace] of a server with [n] keys in database 0. *)
Definition keyspaceInfo (n : string) : string :=
  "# Keyspace" +:+ crlf +:+ "db0:keys=" +:+ n +:+ ",expires=0,avg_ttl=0" +:+ crlf.

(** A server that reports one key in database 0 and hands out two. *)
Definition staleServer : Server :=
  {| s_info := Ok (keyspaceInfo "1");
     s_select := fun _ => Ok tt;
     s_db := fun _ =>
       {| c_scan := [Ok ("0", ["k1"; "k2"])];
          c_exec := fun _ => Ok true;
          c_type := fun _ => Ok "string";
          c_pttl := fun _ => Ok (-1);
          c_idle := fun _ => Ok 3;
          c_memory := fun _ => Ok (Some 64);
          c_get := fun _ => Ok (Some "abc");
          c_hlen := fun _ => Err "WRONGTYPE";
          c_hscan := fun _ _ => Err "WRONGTYPE";
          c_llen := fun _ => Err "WRONGTYPE";
          c_lrange := fun _ _ => Err "WRONGTYPE";
          c_scard := fun _ => Err "WRONGTYPE";
          c_sscan := fun _ _ => Err "WRONGTYPE";
          c_zcard := fun _ => Err "WRONGTYPE";
          c_zrevrange := fun _ _ => Err "WRONGTYPE";
          c_xinfo := fun _ => Err "WRONGTYPE" |} |}.

(** [out] is [acc] with whole batches appended, each batch appended at a
    moment when the list was still shorter than the limit. *)
Inductive grown (isBatch : list KeyMeta -> Prop) (limit : Z)
    : list KeyMeta -> list KeyMeta -> Prop :=
  | grown_done acc : grown isBatch limit acc acc
  | grown_more acc batch out :
      Z.of_nat (length acc) < limit ->
      isBatch batch ->
      grown isBatch limit (acc ++ batch) out ->
      grown isBatch limit acc out.

(** The metadata of one batch that [SCAN] handed out on this connection. *)
Definition isBatchOf (estimate : Conn -> string -> string -> Reply Z) (config : ScanConfig)
    (client : Conn) (d : Z) (replies : list (Reply (string * list string)))
    (batch : list KeyMeta) : Prop :=
  exists cursor batchKeys memCalls,
    Ok (cursor, batchKeys) ∈ replies /\
    collectKeyMetadata estimate client batchKeys d config = Ok (batch, memCalls).

(** A batch of one of the databases [ds] of a standalone server. *)
Definition standaloneBatch (estimate : Conn -> string -> string -> Reply Z)
    (config : ScanConfig) (client : Server) (ds : list Z) (batch : list KeyMeta) : Prop :=
  exists d, d ∈ ds /\
    isBatchOf estimate config (s_db client d) d (c_scan (s_db client d)) batch.

(** What the two scans have in common: the statistics and the cut. *)
Definition cutToLimit (config : ScanConfig) (all : list KeyMeta) (r : ScanResult) : Prop :=
  sampled (stats r) = Z.min (Z.of_nat (length all)) (sampleLimit config) /\
  sampled (stats r) <= sampleLimit config /\
  sr_keys r = sliceTo all (sampleLimit config) /\
  (0 <= sampleLimit config ->
   sr_keys r = take (Z.to_nat (sampleLimit config)) all /\
   Z.of_nat (length (sr_keys r)) = sampled (stats r)).

(** ** The contract of the sample limit

    The scans against the words of the contract: the batches of the
    shards are taken whole, one after the other, as long as the list is
    shorter than the limit. *)

(** The batches that the answers to [SCAN] give on a connection, up to the
    answer that ends the iteration: a cursor of 0, or a [SCAN] or a
    pipeline that is rejected.  An answer without names is an empty
    batch. *)
Fixpoint batchesOf (estimate : Conn -> string -> string -> Reply Z) (config : ScanConfig)
    (client : Conn) (d : Z) (replies : list (Reply (string * list string)))
    : list (list KeyMeta) :=
  match replies with
  | [] => []
  | Err _ :: _ => []
  | Ok (newCursor, batchKeys) :: rest =>
      let more :=
        if String.eqb newCursor "0" then []
        else batchesOf estimate config client d rest in
      match batchKeys with
      | [] => [] :: more
      | _ =>
          match collectKeyMetadata estimate client batchKeys d config with
          | Ok (ks, _) => ks :: more
          | Err _ => []
          end
      end
  end.

(** The batches of a standalone server: those of the databases asked for,
    in turn; a database that cannot be selected has none. *)
Definition serverBatches (estimate : Conn -> string -> string -> Reply Z) (config : ScanConfig)
    (server : Server) : list (list KeyMeta) :=
  flat_map (fun d =>
              match s_select server d with
              | Ok _ => batchesOf estimate config (s_db server d) d (c_scan (s_db server d))
              | Err _ => []
              end)
           (dbs config).

(** The batches of a master node. *)
Definition nodeBatches (estimate : Conn -> string -> string -> Reply Z) (config : ScanConfig)
    (node : Node) : list (list KeyMeta) :=
  batchesOf estimate config (n_conn node) 0 (c_scan (n_conn node)).

(** The contract, in its own words: batches are added whole, and one is
    added only while the list is shorter than the limit; nothing is added
    or dropped to make the count come out at the limit. *)
Fixpoint wholeBatches (limit : Z) (acc : list KeyMeta) (batches : list (list KeyMeta))
    : list KeyMeta :=
  match batches with
  | [] => acc
  | batch :: rest =>
      if limit <=? Z.of_nat (length acc) then acc
      else wholeBatches limit (acc ++ batch) rest
  end.

(** The contract for one node of a cluster, which counts for itself and
    asks for its first batch before it looks at the limit. *)
Definition nodeGathers (estimate : Conn -> string -> string -> Reply Z) (config : ScanConfig)
    (node : Node) : list KeyMeta :=
  match nodeBatches estimate config node with
  | [] => []
  | first :: later => wholeBatches (sampleLimit config) first later
  end.

(** A master node that hands out the two keys of [staleServer]. *)
Definition twoKeyNode : Node :=
  {| n_host := "127.0.0.1"; n_port := 7000;
     n_info := Ok (keyspaceInfo "2"); n_conn := s_db staleServer 0 |}.

(** A configuration with a negative limit. *)
Definition cfgNegative : ScanConfig :=
  {| dbs := [0]; sampleLimit := -1; scanCount := 1000;
     ttlBuckets := [0; 60; 300]; idleBuckets := [0; 60]; sizeTopN := 20 |}.

(** * The merge on shared objects

    [mergeAggregations] copies a prefix record with [{ ...prefix }]: the
    copy has numbers of its own and shares the objects [ttlHist],
    [idleHist] and [byType] with the input, and the later inputs are added
    into these shared objects in place.  This part embeds the function
    with the objects in a heap; [SharedFacts] below shows on which inputs
    the embedding on values is exact and what happens on the others. *)

Module Shared.

(** The heap: histogram objects and [byType] objects by address.  (The
    inner objects [{ count, estBytes }] belong to one [byType] object each
    and are kept inside it.) *)
Record Heap := {
  hists : gmap nat (gmap string Z);
  breakdowns : gmap nat (gmap string TypeStats)
}.

(** A prefix record with the addresses of its three objects. *)
Record PrefixObj := {
  o_prefix : string;
  o_count : Z;
  o_estBytes : Z;
  o_ttlHist : nat;
  o_idleHist : nat;
  o_byType : nat
}.

Record ResultObj := {
  o_prefixes : list PrefixObj;
  o_topN : gmap string (list KeyMeta)
}.

Definition readHist (h : Heap) (l : nat) : gmap string Z := default ∅ (hists h !! l).

Definition readBreakdown (h : Heap) (l : nat) : gmap string TypeStats :=
  default ∅ (breakdowns h !! l).

Definition writeHist (l : nat) (v : gmap string Z) (h : Heap) : Heap :=
  {| hists := <[l := v]> (hists h); breakdowns := breakdowns h |}.

Definition writeBreakdown (l : nat) (v : gmap string TypeStats) (h : Heap) : Heap :=
  {| hists := hists h; breakdowns := <[l := v]> (breakdowns h) |}.

(** The value that a record stands for in a heap. *)
Definition readPrefix (h : Heap) (o : PrefixObj) : PrefixAgg :=
  {| prefix := o_prefix o; count := o_count o; p_estBytes := o_estBytes o;
     ttlHist := readHist h (o_ttlHist o);
     idleHist := readHist h (o_idleHist o);
     byType := readBreakdown h (o_byType o) |}.

Definition readResult (h : Heap) (r : ResultObj) : AggregationResult :=
  {| prefixes := map (readPrefix h) (o_prefixes r); topN := o_topN r |}.

(** The [else] branch, its writes: the three objects of [existing] are
    written in place, one after the other; each loop runs over the entries
    that the object of [p] has when the loop starts. *)
Definition mergedHeap (h : Heap) (existing p : PrefixObj) : Heap :=
  let h1 := writeHist (o_ttlHist existing)
              (mergeHist (readHist h (o_ttlHist existing)) (readHist h (o_ttlHist p))) h in
  let h2 := writeHist (o_idleHist existing)
              (mergeHist (readHist h1 (o_idleHist existing)) (readHist h1 (o_idleHist p))) h1 in
  writeBreakdown (o_byType existing)
    (mergeByType (readBreakdown h2 (o_byType existing)) (readBreakdown h2 (o_byType p))) h2.

(** The [else] branch, the record: the copy in the map gets new numbers
    and keeps its three objects. *)
Definition mergedRecord (existing p : PrefixObj) : PrefixObj :=
  {| o_prefix := o_prefix existing;
     o_count := o_count existing + o_count p;
     o_estBytes := o_estBytes existing + o_estBytes p;
     o_ttlHist := o_ttlHist existing;
     o_idleHist := o_idleHist existing;
     o_byType := o_byType existing |}.

Definition mergePrefixObj (st : Heap * list (string * PrefixObj)) (p : PrefixObj)
    : Heap * list (string * PrefixObj) :=
  match OMap.get (o_prefix p) st.2 with
  | None => (st.1, OMap.set (o_prefix p) p st.2)
  | Some existing =>
      (mergedHeap st.1 existing p, OMap.set (o_prefix p) (mergedRecord existing p) st.2)
  end.

Fixpoint sortInsertObj (x : PrefixObj) (l : list PrefixObj) : list PrefixObj :=
  match l with
  | [] => [x]
  | y :: l' =>
      if o_estBytes x <? o_estBytes y then y :: sortInsertObj x l' else x :: y :: l'
  end.

Definition mergeStepObj
    (st : Heap * list (string * PrefixObj) * gmap string (list KeyMeta))
    (result : ResultObj) : Heap * list (string * PrefixObj) * gmap string (list KeyMeta) :=
  let '(hpm, tm) := st in
  (foldl mergePrefixObj hpm (o_prefixes result), mergeTopN tm (o_topN result)).

(** [mergeAggregations] on a heap: the heap it leaves and the result. *)
Definition mergeAggregationsObj (h : Heap) (results : list ResultObj) : Heap * ResultObj :=
  let '(h1, pm, tm) := foldl mergeStepObj (h, [], ∅) results in
  (h1, {| o_prefixes := foldr sortInsertObj [] (OMap.values pm); o_topN := tm |}).

Definition histRefs (ps : list PrefixObj) : list nat :=
  flat_map (fun o => [o_ttlHist o; o_idleHist o]) ps.

Definition typeRefs (ps : list PrefixObj) : list nat := map o_byType ps.

(** No histogram object and no [byType] object occurs twice in the records. *)
Definition separate (ps : list PrefixObj) : Prop :=
  NoDup (histRefs ps) /\ NoDup (typeRefs ps).

(** [o] has none of its three objects in common with [e]. *)
Definition untouched (o e : PrefixObj) : Prop :=
  o_ttlHist o <> o_ttlHist e /\ o_ttlHist o <> o_idleHist e /\
  o_idleHist o <> o_ttlHist e /\ o_idleHist o <> o_idleHist e /\
  o_byType o <> o_byType e.

(** The ordered map of records, read in a heap. *)
Definition readEntries (h : Heap) (pm : list (string * PrefixObj))
    : list (string * PrefixAgg) :=
  map (fun e => (e.1, readPrefix h e.2)) pm.

Definition persistent (n : Z) : gmap string Z := {[ "persistent" := n ]}.

Definition strings (n bytes : Z) : gmap string TypeStats :=
  {[ "string" := {| t_count := n; t_estBytes := bytes |} ]}.

(** Three shards with one key each under the prefix [x], of 5, 7 and 9
    bytes, as [aggregateKeys] leaves them: every record with objects of
    its own. *)
Definition heap0 : Heap :=
  {| hists := {[ 0%nat := persistent 1; 1%nat := ∅; 2%nat := persistent 1; 3%nat := ∅;
                 4%nat := persistent 1; 5%nat := ∅ ]};
     breakdowns := {[ 0%nat := strings 1 5; 1%nat := strings 1 7; 2%nat := strings 1 9 ]} |}.

Definition objA : ResultObj :=
  {| o_prefixes := [ {| o_prefix := "x"; o_count := 1; o_estBytes := 5;
                        o_ttlHist := 0; o_idleHist := 1; o_byType := 0 |} ];
     o_topN := ∅ |}.

Definition objB : ResultObj :=
  {| o_prefixes := [ {| o_prefix := "x"; o_count := 1; o_estBytes := 7;
                        o_ttlHist := 2; o_idleHist := 3; o_byType := 1 |} ];
     o_topN := ∅ |}.

Definition objC : ResultObj :=
  {| o_prefixes := [ {| o_prefix := "x"; o_count := 1; o_estBytes := 9;
                        o_ttlHist := 4; o_idleHist := 5; o_byType := 2 |} ];
     o_topN := ∅ |}.

(** What a merge returns, read in the heap that it leaves. *)
Definition merged (h : Heap) (results : list ResultObj) : AggregationResult :=
  readResult (mergeAggregationsObj h results).1 (mergeAggregationsObj h results).2.






(** Per prefix: the count, the total of [ttlHist] and the total of the
    counts of [byType]. *)
Definition summary (r : AggregationResult) : list (string * Z * Z * Z) :=
  map (fun a => (prefix a, count a, mapSum id (ttlHist a), mapSum t_count (byType a)))
      (prefixes r).

End Shared.

(** * More of the code: vocabulary *)

(** ** Prefixes and keys *)

(** The number of segments that [key.split(delimiter)] gives. *)
Definition segments (k delimiter : string) : nat := length (split k delimiter).

(** The key is counted under the prefix. *)
Definition carries (delimiter p : string) (k : KeyMeta) : Prop :=
  p ∈ extractPrefixes (key k) delimiter 3.

(** What a key adds to a sum of [estBytes]: its estimate when that is
    there and is not zero. *)
Definition knownBytes (k : KeyMeta) : Z :=
  if truthy (estBytes k) then orZero (estBytes k) else 0.

(** The sum of [knownBytes] over a list of keys. *)
Definition sumKnownBytes (ks : list KeyMeta) : Z :=
  foldr (fun k n => knownBytes k + n) 0 ks.

Global Instance carries_dec delimiter p k : Decision (carries delimiter p k).
Proof. unfold carries. apply _. Defined.

(** The keys of a list that are counted under a prefix, in their order. *)
Definition carriers (delimiter p : string) (keys : list KeyMeta) : list KeyMeta :=
  filter (carries delimiter p) keys.

(** [updatePrefixAgg] applied to the keys of a list, one after the other. *)
Definition foldKeys (config : ScanConfig) (a : PrefixAgg) (ks : list KeyMeta) : PrefixAgg :=
  foldl (fun a k => updatePrefixAgg a k config) a ks.

(** The number of keys of a list that [test] holds of. *)
Definition countKeys (test : KeyMeta -> bool) (ks : list KeyMeta) : Z :=
  Z.of_nat (length (filter (fun k => test k = true) ks)).

(** An entry of a histogram, zero when the label has none. *)
Definition histAt (label : string) (h : gmap string Z) : Z := orZero (h !! label).

(** ** The largest keys *)

(** [key.estBytes || 0], the size that [insertTopN] compares. *)
Definition sizeOf (k : KeyMeta) : Z := orZero (estBytes k).

(** A list of keys with no entry larger than an entry before it. *)
Definition largestFirst (l : list KeyMeta) : Prop :=
  StronglySorted (fun x y => sizeOf y <= sizeOf x) l.

(** The keys of a type that have an estimate that counts. *)
Definition candidates (ty : string) (keys : list KeyMeta) : list KeyMeta :=
  filter (fun k => type k = ty /\ truthy (estBytes k) = true) keys.

(** Every key seen is in the list, or the list is full and holds nothing
    smaller than the key. *)
Definition keepsLargest (bound : Z) (l seen : list KeyMeta) : Prop :=
  forall k, k ∈ seen ->
    k ∈ l \/ (bound <= Z.of_nat (length l) /\ forall x, x ∈ l -> sizeOf k <= sizeOf x).

(** ** What a merge adds up *)

(** [sum(f(x) for x in l)]. *)
Definition sumOf {A : Type} (f : A -> Z) (l : list A) : Z := foldr (fun x n => f x + n) 0 l.

(** The records of the inputs that carry the name [p], in the order in
    which [mergeAggregations] meets them. *)
Definition recordsOf (p : string) (results : list AggregationResult) : list PrefixAgg :=
  filter (fun a => prefix a = p) (concat (map prefixes results)).

(** The bytes of the per-type breakdown against [estBytes]. *)
Definition bytesAddUp (a : PrefixAgg) : Prop := mapSum t_estBytes (byType a) = p_estBytes a.

(** The keys of the input lists for one type, list after list. *)
Definition offered (ty : string) (results : list AggregationResult) : list KeyMeta :=
  concat (topNLists ty results).

(** ** Bucket boundaries *)

(** The boundaries are in ascending order. *)
Definition ascending (buckets : list Z) : Prop := StronglySorted Z.le buckets.

(** [v] lies below the first boundary or not below the last one. *)
Definition outside (v : Z) (buckets : list Z) : Prop :=
  (forall b, head buckets = Some b -> v < b) \/ (forall b, last buckets = Some b -> b <= v).

(** ** Batches and scans *)

(** [TYPE] answered for the key. *)
Definition hasType (client : Conn) (k : string) : bool :=
  match c_type client k with Ok _ => true | Err _ => false end.

(** The number of entries that carry an estimate. *)
Definition estimated (ms : list KeyMeta) : Z :=
  Z.of_nat (length (filter (fun m => is_Some (estBytes m)) ms)).

(** What an entry says about its key, the estimate apart, is what the
    connection answered for that key. *)
Definition describes (client : Conn) (d : Z) (m : KeyMeta) : Prop :=
  c_type client (key m) = Ok (type m) /\
  ttlMs m = match c_pttl client (key m) with
            | Ok v => if v =? -1 then None else Some v
            | Err _ => None
            end /\
  idleSec m = match c_idle client (key m) with Ok v => Some v | Err _ => None end /\
  db m = Some d.

(** The keys that a scan has gathered when its loops end. *)
Definition visited (estimate : Conn -> string -> string -> Reply Z)
    (client : Client) (config : ScanConfig) : list KeyMeta :=
  match client with
  | Standalone server => visitedStandalone estimate server config
  | Cluster nodes => visitedCluster estimate nodes config
  end.

(** A [SCAN] or a pipeline of the connection is rejected with the message [m]. *)
Definition fails (client : Conn) (m : string) : Prop :=
  Err m ∈ c_scan client \/
  exists cursor batch, Ok (cursor, batch) ∈ c_scan client /\ c_exec client batch = Err m.

(** The entry [e] of [errors] names a shard of the scan and the message of
    a command that was rejected there. *)
Definition reported (client : Client) (config : ScanConfig) (e : string) : Prop :=
  match client with
  | Standalone server =>
      exists d m, d ∈ dbs config /\
        e = ("DB " +:+ num_to_string d) +:+ ": " +:+ m /\
        (s_select server d = Err m \/ fails (s_db server d) m)
  | Cluster nodes =>
      exists node m, node ∈ nodes /\
        e = ("Node " +:+ n_host node +:+ ":" +:+ num_to_string (n_port node)) +:+ ": " +:+ m /\
        fails (n_conn node) m
  end.

(** The shards of a scan: the databases asked for, or the master nodes. *)
Definition shards (client : Client) (config : ScanConfig) : nat :=
  match client with
  | Standalone _ => length (dbs config)
  | Cluster nodes => length nodes
  end.

(** The entry was gathered on the connection [client] as database [d]:
    [SCAN] handed out its name there and the entry describes it. *)
Definition gatheredOn (client : Conn) (d : Z) (m : KeyMeta) : Prop :=
  describes client d m /\
  exists cursor batch, Ok (cursor, batch) ∈ c_scan client /\ key m ∈ batch.

(** Where an entry of a scan comes from. *)
Definition provenance (client : Client) (config : ScanConfig) (m : KeyMeta) : Prop :=
  match client with
  | Standalone server => exists d, d ∈ dbs config /\ gatheredOn (s_db server d) d m
  | Cluster nodes => exists node, node ∈ nodes /\ gatheredOn (n_conn node) 0 m
  end.

(** No answer of [SCAN] on the connection hands out more than [B] names. *)
Definition batchBound (client : Conn) (B : Z) : Prop :=
  forall cursor batch, Ok (cursor, batch) ∈ c_scan client -> Z.of_nat (length batch) <= B.

(** ** The answer to [INFO keyspace] *)

(** One step of [parseInt]: the digit [c] behind the number [n]. *)
Definition digitStep (n : Z) (c : ascii) : Z := 10 * n + (Z.of_nat (nat_of_ascii c) - 48).

(** The text does not go on with a digit. *)
Definition noDigitAhead (tail : string) : Prop :=
  match tail with
  | String c _ => isDigit c = false
  | EmptyString => True
  end.

(** The answer is a text whose first line for database 0 reads
    [db0:keys=n] and goes on with something that is no digit. *)
Definition reportsKeys (info : Reply string) (n : Z) : Prop :=
  0 <= n /\
  exists text pre tail post,
    info = Ok text /\
    split text crlf = (pre ++ ("db0:keys=" +:+ num_to_string n +:+ tail) :: post)%list /\
    Forall (fun line => startsWith "db0:" line = false) pre /\
    noDigitAhead tail.

(** ** The first level *)

(** The first segment of a key, its prefix of one level. *)
Definition firstSegment (k delimiter : string) : string :=
  join delimiter (take 1 (split k delimiter)).

(** The aggregate stands for the first segment of some key. *)
Definition firstLevel (delimiter : string) (keys : list KeyMeta) (a : PrefixAgg) : Prop :=
  Exists (fun k => firstSegment (key k) delimiter = prefix a) keys.

Global Instance firstLevel_dec delimiter keys a : Decision (firstLevel delimiter keys a).
Proof. unfold firstLevel. apply _. Defined.

(** ** The scan route ([api/scan/route.ts])

    The part of the handler between the lookup of the connection and the
    answer: the defaults of the configuration, the scan and the
    aggregation. *)

(** The [config] of the request body; a field that is missing is [None]. *)
Record RequestConfig := {
  r_dbs : option (list Z);
  r_sampleLimit : option Z;
  r_scanCount : option Z;
  r_ttlBuckets : option (list Z);
  r_idleBuckets : option (list Z);
  r_sizeTopN : option Z
}.

(** [n || d] for a number: zero is falsy. *)
Definition numberOr (n : option Z) (d : Z) : Z :=
  match n with
  | Some v => if v =? 0 then d else v
  | None => d
  end.

(** [a || d] for an array: an array is truthy, also when it is empty. *)
Definition arrayOr (a : option (list Z)) (d : list Z) : list Z := default d a.

(** [s || d] for a string: the empty string is falsy. *)
Definition stringOr (s : option string) (d : string) : string :=
  match s with
  | Some v => if String.eqb v "" then d else v
  | None => d
  end.

Definition scanConfigOf (config : RequestConfig) : ScanConfig :=
  {| dbs := arrayOr (r_dbs config) [0];
     sampleLimit := numberOr (r_sampleLimit config) 50000;
     scanCount := numberOr (r_scanCount config) 1000;
     ttlBuckets := arrayOr (r_ttlBuckets config) [0; 60; 300; 1800; 3600; 21600; 86400];
     idleBuckets := arrayOr (r_idleBuckets config) [0; 60; 300; 3600; 21600; 86400];
     sizeTopN := numberOr (r_sizeTopN config) 20 |}.

(** The [data] of the answer. *)
Record ScanData := {
  sampleStats : SampleStats;
  aggregates : list PrefixAgg;
  d_topN : gmap string (list KeyMeta)
}.

Definition scanData (estimate : Conn -> string -> string -> Reply Z) (client : Client)
    (config : RequestConfig) (keyDelimiter : option string) : ScanData :=
  let scanConfig := scanConfigOf config in
  let scanResult := scanKeys estimate client scanConfig in
  let aggregationResult :=
    aggregateKeys (sr_keys scanResult) scanConfig (stringOr keyDelimiter ":") in
  {| sampleStats := stats scanResult;
     aggregates := prefixes aggregationResult;
     d_topN := topN aggregationResult |}.

(** The keys that the route aggregates. *)
Definition sampleOf (estimate : Conn -> string -> string -> Reply Z) (client : Client)
    (config : RequestConfig) : list KeyMeta :=
  sr_keys (scanKeys estimate client (scanConfigOf config)).

(** A request with every field left out. *)
Definition emptyRequest : RequestConfig :=
  {| r_dbs := None; r_sampleLimit := None; r_scanCount := None;
     r_ttlBuckets := None; r_idleBuckets := None; r_sizeTopN := None |}.

(** * The sessions ([auth/session.ts])

    The session manager keeps its sessions in a [Map] and reads the clock
    and the random source of the platform.  Both are inputs of the
    embedding: [now n] is what the [n]-th call of [Date.now()] returns and
    [randomHex n] what the [n]-th call of [crypto.randomBytes(..).toString('hex')]
    returns; the state counts the calls.  The methods are embedded in a
    state monad over the map and the two counters.  A session object is
    reached through the map only, so a write to one of its fields is a
    write to the entry of its key. *)

Module Session.

Inductive RedisConnKind : Type := KStandalone | KCluster | KSentinel.

Record SentinelConfig := {
  s_name : string;
  s_hosts : list (string * Z);
  s_password : option string
}.

Record ConnectionProfile := {
  id : string;
  name : string;
  kind : RedisConnKind;
  host : option string;
  port : option Z;
  password : option string;
  tls : option bool;
  clusterHosts : option (list (string * Z));
  sentinel : option SentinelConfig;
  db : option Z;
  keyDelimiter : option string
}.

(** [connection.id = newId], and [{ ...connection }] with a new [id]. *)
Definition withId (newId : string) (c : ConnectionProfile) : ConnectionProfile :=
  {| id := newId; name := name c; kind := kind c; host := host c; port := port c;
     password := password c; tls := tls c; clusterHosts := clusterHosts c;
     sentinel := sentinel c; db := db c; keyDelimiter := keyDelimiter c |}.

(** The field [id] of a session is [session_id] here: a module has one
    projection of a name. *)
Record UserSession := {
  session_id : string;
  connections : list ConnectionProfile;
  createdAt : Z;
  lastActive : Z
}.

Record World := {
  sessions : list (string * UserSession);
  clockReads : nat;
  randomReads : nat
}.

Definition SESSION_TTL : Z := 24 * 60 * 60 * 1000.

(** [Map.prototype.delete]. *)
Definition delete (k : string) (m : list (string * UserSession)) : list (string * UserSession) :=
  filter (fun e => e.1 <> k) m.

Definition M (A : Type) : Type := World -> A * World.

Definition ret {A : Type} (a : A) : M A := fun w => (a, w).

Definition bind {A B : Type} (m : M A) (f : A -> M B) : M B :=
  fun w => let '(a, w1) := m w in f a w1.

Notation "x <- m ;; k" := (bind m (fun x => k))
  (at level 100, m at next level, right associativity).
Notation "m ;;; k" := (bind m (fun _ => k))
  (at level 100, right associativity).

Definition sessionsGet (k : string) : M (option UserSession) :=
  fun w => (OMap.get k (sessions w), w).

Definition sessionsSet (k : string) (s : UserSession) : M unit :=
  fun w => (tt, {| sessions := OMap.set k s (sessions w);
                   clockReads := clockReads w; randomReads := randomReads w |}).

Definition sessionsDelete (k : string) : M unit :=
  fun w => (tt, {| sessions := delete k (sessions w);
                   clockReads := clockReads w; randomReads := randomReads w |}).

Definition sessionsEntries : M (list (string * UserSession)) :=
  fun w => (sessions w, w).

Section Manager.

Variable now : nat -> Z.
Variable randomHex : nat -> string.

(** [Date.now()]. *)
Definition dateNow : M Z :=
  fun w => (now (clockReads w),
            {| sessions := sessions w; clockReads := S (clockReads w);
               randomReads := randomReads w |}).

(** [crypto.randomBytes(n).toString('hex')]. *)
Definition randomBytes : M string :=
  fun w => (randomHex (randomReads w),
            {| sessions := sessions w; clockReads := clockReads w;
               randomReads := S (randomReads w) |}).

Definition generateSessionId : M string := randomBytes.

Definition createSession : M UserSession :=
  sessionId <- generateSessionId ;;
  created <- dateNow ;;
  active <- dateNow ;;
  let session := {| session_id := sessionId; connections := [];
                    createdAt := created; lastActive := active |} in
  sessionsSet sessionId session ;;;
  ret session.

Definition getSession (sessionId : string) : M (option UserSession) :=
  found <- sessionsGet sessionId ;;
  match found with
  | None => ret None
  | Some session =>
      t <- dateNow ;;
      if SESSION_TTL <? t - lastActive session then
        sessionsDelete sessionId ;;;
        ret None
      else
        active <- dateNow ;;
        let session1 := {| session_id := session_id session;
                           connections := connections session;
                           createdAt := createdAt session; lastActive := active |} in
        sessionsSet sessionId session1 ;;;
        ret (Some session1)
  end.

(** The two writes [session.connections = ...] and [session.lastActive = Date.now()]. *)
Definition touch (sessionId : string) (session : UserSession)
    (conns : list ConnectionProfile) : M unit :=
  active <- dateNow ;;
  sessionsSet sessionId {| session_id := session_id session; connections := conns;
                           createdAt := createdAt session; lastActive := active |}.

Definition addConnection (sessionId : string) (connection : ConnectionProfile) : M bool :=
  found <- getSession sessionId ;;
  match found with
  | None => ret false
  | Some session =>
      newId <- randomBytes ;;
      let connection1 := withId newId connection in
      let kept := filter (fun c => name c <> name connection1) (connections session) in
      touch sessionId session (kept ++ [connection1]) ;;;
      ret true
  end.

Definition removeConnection (sessionId connectionId : string) : M bool :=
  found <- getSession sessionId ;;
  match found with
  | None => ret false
  | Some session =>
      touch sessionId session (filter (fun c => id c <> connectionId) (connections session)) ;;;
      ret true
  end.

Definition getConnection (sessionId connectionId : string) : M (option ConnectionProfile) :=
  found <- getSession sessionId ;;
  match found with
  | None => ret None
  | Some session =>
      ret (List.find (fun c => String.eqb (id c) connectionId) (connections session))
  end.

Definition getConnectionByName (sessionId connectionName : string)
    : M (option ConnectionProfile) :=
  found <- getSession sessionId ;;
  match found with
  | None => ret None
  | Some session =>
      ret (List.find (fun c => String.eqb (name c) connectionName) (connections session))
  end.

(** The loop over [this.sessions.entries()]: the connection of that name
    in the first other session that has one. *)
Fixpoint findInOthers (sessionId connectionName : string)
    (entries : list (string * UserSession)) : option ConnectionProfile :=
  match entries with
  | [] => None
  | (otherSessionId, otherSession) :: rest =>
      if String.eqb otherSessionId sessionId
      then findInOthers sessionId connectionName rest
      else
        match List.find (fun c => String.eqb (name c) connectionName)
                        (connections otherSession) with
        | Some connection => Some connection
        | None => findInOthers sessionId connectionName rest
        end
  end.

Definition syncConnectionToSession (sessionId connectionName : string) : M bool :=
  found <- getSession sessionId ;;
  match found with
  | None => ret false
  | Some session =>
      match List.find (fun c => String.eqb (name c) connectionName) (connections session) with
      | Some _ => ret true
      | None =>
          entries <- sessionsEntries ;;
          match findInOthers sessionId connectionName entries with
          | Some connection =>
              newId <- randomBytes ;;
              touch sessionId session (connections session ++ [withId newId connection]) ;;;
              ret true
          | None => ret false
          end
      end
  end.

Definition cleanupExpiredSessions : M unit :=
  t <- dateNow ;;
  fun w => (tt, {| sessions := filter (fun e => ~ (SESSION_TTL < t - lastActive e.2)) (sessions w);
                   clockReads := clockReads w; randomReads := randomReads w |}).

(** The calls that a handler can make. *)
Inductive Call : Type :=
  | CreateSession
  | GetSession (sessionId : string)
  | AddConnection (sessionId : string) (connection : ConnectionProfile)
  | RemoveConnection (sessionId connectionId : string)
  | GetConnection (sessionId connectionId : string)
  | GetConnectionByName (sessionId connectionName : string)
  | SyncConnectionToSession (sessionId connectionName : string)
  | CleanupExpiredSessions.

(** The manager after a call. *)
Definition after (c : Call) (w : World) : World :=
  match c with
  | CreateSession => (createSession w).2
  | GetSession s => (getSession s w).2
  | AddConnection s conn => (addConnection s conn w).2
  | RemoveConnection s i => (removeConnection s i w).2
  | GetConnection s i => (getConnection s i w).2
  | GetConnectionByName s n => (getConnectionByName s n w).2
  | SyncConnectionToSession s n => (syncConnectionToSession s n w).2
  | CleanupExpiredSessions => (cleanupExpiredSessions w).2
  end.

End Manager.

(** [new SessionManager()]. *)
Definition fresh : World := {| sessions := []; clockReads := 0; randomReads := 0 |}.

(** Every session sits under its own id and holds each connection name
    once; the map holds each key once. *)
Definition wellKept (w : World) : Prop :=
  NoDup (map fst (sessions w)) /\
  Forall (fun e => session_id e.2 = e.1 /\ NoDup (map name (connections e.2))) (sessions w).

(** A clock and a random source for the examples. *)
Definition clock0 (n : nat) : Z := Z.of_nat n.
Definition random0 (n : nat) : string := num_to_string (Z.of_nat n).

Definition local : ConnectionProfile :=
  {| id := ""; name := "local"; kind := KStandalone; host := Some "127.0.0.1";
     port := Some 6379; password := None; tls := Some false; clusterHosts := Some [];
     sentinel := None; db := Some 0; keyDelimiter := Some ":" |}.

End Session.

(** ** Records that share their objects *)

(** Two records of one name with the same three objects. *)
Definition sameObjects (o r : Shared.PrefixObj) : Prop :=
  Shared.o_prefix o = Shared.o_prefix r /\
  Shared.o_ttlHist o = Shared.o_ttlHist r /\
  Shared.o_idleHist o = Shared.o_idleHist r /\
  Shared.o_byType o = Shared.o_byType r.

(** * Verification *)

(** ** Loops over the entries of an object *)

(** A loop over [Object.entries(m)] whose body writes only the entry of
    the key it is at computes every entry on its own. *)
Lemma map_fold_pointwise {V W : Type} (g : string -> V -> option W -> W)
    (f : string -> V -> gmap string W -> gmap string W)
    (m : gmap string V) (acc : gmap string W) (k : string) :
  (forall i x a, f i x a = <[i := g i x (a !! i)]> a) ->
  map_fold f acc m !! k =
  match m !! k with
  | Some x => Some (g k x (acc !! k))
  | None => acc !! k
  end.
Proof.
  intros Hf. revert k.
  apply (map_fold_weak_ind
           (fun (r : gmap string W) (m : gmap string V) =>
              forall k, r !! k = match m !! k with
                                 | Some x => Some (g k x (acc !! k))
                                 | None => acc !! k
                                 end)).
  - intros k. by rewrite lookup_empty.
  - intros i x m' r Hi IH k. rewrite Hf.
    destruct (decide (i = k)) as [->|Hne].
    + rewrite !lookup_insert_eq. by rewrite IH, Hi.
    + rewrite !lookup_insert_ne by done. apply IH.
Qed.

Lemma histAdd_lookup (label : string) (n : Z) (h : gmap string Z) (k : string) :
  histAdd label n h !! k =
  if decide (label = k) then Some (orZero (h !! label) + n) else h !! k.
Proof. unfold histAdd. apply lookup_insert. Qed.

Lemma mergeHist_lookup (e h : gmap string Z) (k : string) :
  mergeHist e h !! k =
  match h !! k with
  | Some c => Some (orZero (e !! k) + c)
  | None => e !! k
  end.
Proof.
  unfold mergeHist.
  by apply (map_fold_pointwise (fun _ c o => orZero o + c)).
Qed.

Lemma mergeByType_lookup (e bt : gmap string TypeStats) (k : string) :
  mergeByType e bt !! k =
  match bt !! k with
  | Some s => Some (addStats (default noStats (e !! k)) s)
  | None => e !! k
  end.
Proof.
  unfold mergeByType.
  by apply (map_fold_pointwise (fun _ s o => addStats (default noStats o) s)).
Qed.

Lemma mergeTopN_lookup (merged tn : gmap string (list KeyMeta)) (ty : string) :
  mergeTopN merged tn !! ty =
  match tn !! ty with
  | Some keys =>
      Some (match merged !! ty with
            | None => keys
            | Some existing => insertAll mergeTopNBound existing keys
            end)
  | None => merged !! ty
  end.
Proof.
  unfold mergeTopN.
  apply (map_fold_pointwise
           (fun _ keys o => match o with
                            | None => keys
                            | Some existing => insertAll mergeTopNBound existing keys
                            end)).
  intros i keys a. by destruct (a !! i).
Qed.

(** ** Totals of a histogram *)

Lemma mapSum_empty {V : Type} (f : V -> Z) : mapSum f ∅ = 0.
Proof. apply map_fold_empty. Qed.

Lemma mapSum_insert_fresh {V : Type} (f : V -> Z) (m : gmap string V) k v :
  m !! k = None -> mapSum f (<[k := v]> m) = f v + mapSum f m.
Proof.
  intros Hk. unfold mapSum.
  rewrite map_fold_insert_L; [done| |done].
  intros. lia.
Qed.

Lemma mapSum_insert {V : Type} (f : V -> Z) (m : gmap string V) k v :
  mapSum f (<[k := v]> m) =
  f v + mapSum f m - match m !! k with Some v0 => f v0 | None => 0 end.
Proof.
  destruct (m !! k) as [v0|] eqn:Hk.
  - rewrite <- (insert_delete_eq m k v).
    rewrite <- (insert_delete_id m k v0) at 2 by done.
    rewrite !mapSum_insert_fresh by apply lookup_delete_eq. lia.
  - rewrite mapSum_insert_fresh by done. lia.
Qed.

Lemma mapSum_histAdd (label : string) (n : Z) (h : gmap string Z) :
  mapSum id (histAdd label n h) = mapSum id h + n.
Proof.
  unfold histAdd. rewrite mapSum_insert.
  destruct (h !! label); unfold orZero, id; simpl; lia.
Qed.

(** ** The ordered map *)

Module OMapFacts.
Import OMap.
Section Facts.
Context {V : Type}.
Implicit Types (m : list (string * V)) (k : string) (v : V).

Lemma get_set_eq m k v : get k (set k v m) = Some v.
Proof.
  induction m as [|[k' v'] m IH]; simpl.
  - by rewrite String.eqb_refl.
  - destruct (String.eqb_spec k' k) as [->|Hne]; simpl.
    + by rewrite String.eqb_refl.
    + by destruct (String.eqb_spec k' k).
Qed.

Lemma get_set_ne m k k' v : k <> k' -> get k' (set k v m) = get k' m.
Proof.
  intros Hne. induction m as [|[k0 v0] m IH]; simpl.
  - by destruct (String.eqb_spec k k').
  - destruct (String.eqb_spec k0 k) as [->|Hk0]; simpl.
    + by destruct (String.eqb_spec k k').
    + by rewrite IH.
Qed.

Lemma set_fresh m k v : get k m = None -> set k v m = (m ++ [(k, v)])%list.
Proof.
  induction m as [|[k' v'] m IH]; simpl; [done|].
  destruct (String.eqb_spec k' k); [done|].
  intros H. by rewrite IH.
Qed.

Lemma get_None_keys m k : get k m = None <-> k ∉ map fst m.
Proof.
  induction m as [|[k' v'] m IH]; simpl.
  - split; [intros _; apply not_elem_of_nil|done].
  - rewrite not_elem_of_cons.
    destruct (String.eqb_spec k' k) as [->|Hne]; split; try done.
    + intros [? _]. done.
    + intros H. split; [congruence|by apply IH].
    + intros [_ H]. by apply IH.
Qed.

Lemma keys_set m k v :
  map fst (set k v m) =
  match get k m with Some _ => map fst m | None => (map fst m ++ [k])%list end.
Proof.
  induction m as [|[k' v'] m IH]; simpl; [done|].
  destruct (String.eqb_spec k' k) as [->|Hne]; simpl; [done|].
  rewrite IH. by destruct (get k m).
Qed.

Lemma keys_set_NoDup m k v : NoDup (map fst m) -> NoDup (map fst (set k v m)).
Proof.
  intros Hnd. rewrite keys_set.
  destruct (get k m) eqn:Hg; [done|].
  apply NoDup_app. split_and!; [done| |apply NoDup_singleton].
  intros x Hx ->%list_elem_of_singleton. by apply get_None_keys in Hg.
Qed.

Lemma values_set_Forall (P : V -> Prop) m k v :
  Forall P (values m) -> P v -> Forall P (values (set k v m)).
Proof.
  unfold values. intros Hm Hv.
  induction m as [|[k' v'] m IH]; simpl.
  - by constructor.
  - inversion Hm; subst.
    destruct (String.eqb k' k); simpl; constructor; auto.
Qed.

Lemma get_Forall (P : V -> Prop) m k v :
  Forall P (values m) -> get k m = Some v -> P v.
Proof.
  unfold values.
  induction m as [|[k' v'] m IH]; simpl; [done|].
  intros Hm. inversion Hm; subst.
  destruct (String.eqb k' k); [congruence|auto].
Qed.

(** Looking a key up in the list is looking it up in the table the
    list stands for. *)
Lemma get_list_to_map m k :
  (list_to_map m : gmap string V) !! k = get k m.
Proof.
  induction m as [|[k' v'] m IH]; simpl; [apply lookup_empty|].
  destruct (String.eqb_spec k' k) as [->|Hne].
  - apply lookup_insert_eq.
  - by rewrite lookup_insert_ne.
Qed.

Lemma list_to_map_set m k v :
  (list_to_map (set k v m) : gmap string V) = <[k := v]> (list_to_map m).
Proof.
  apply map_eq. intros i. rewrite get_list_to_map.
  destruct (decide (k = i)) as [->|Hne].
  - by rewrite get_set_eq, lookup_insert_eq.
  - by rewrite get_set_ne, lookup_insert_ne, get_list_to_map.
Qed.
End Facts.
End OMapFacts.

(** ** The stable sort *)

Lemma sortInsert_perm x l : sortInsert x l ≡ₚ x :: l.
Proof.
  induction l as [|y l IH]; simpl; [done|].
  destruct (p_estBytes x <? p_estBytes y); [|done].
  rewrite IH. apply Permutation_swap.
Qed.

Lemma sortByEstBytes_perm l : sortByEstBytes l ≡ₚ l.
Proof.
  induction l as [|x l IH]; simpl; [done|].
  fold (sortByEstBytes l). by rewrite sortInsert_perm, IH.
Qed.

Lemma sortInsert_descending x l : descending l -> descending (sortInsert x l).
Proof.
  induction l as [|y l IH]; simpl; [done|].
  intros Hd.
  destruct (Z.ltb_spec (p_estBytes x) (p_estBytes y)) as [Hlt|Hge].
  - destruct l as [|z l]; simpl in *.
    + split; [lia|done].
    + destruct Hd as [Hzy Hd]. specialize (IH Hd).
      destruct (Z.ltb_spec (p_estBytes x) (p_estBytes z)); simpl in *.
      * split; [lia|done].
      * split; [lia|]. done.
  - simpl. split; [lia|done].
Qed.

Lemma sortByEstBytes_descending l : descending (sortByEstBytes l).
Proof.
  induction l as [|x l IH]; simpl; [done|].
  by apply sortInsert_descending.
Qed.

(** Sorting a list that is in order changes nothing: the sort is stable. *)
Lemma sortByEstBytes_id l : descending l -> sortByEstBytes l = l.
Proof.
  induction l as [|x l IH]; simpl; [done|].
  intros Hd. fold (sortByEstBytes l).
  destruct l as [|y l]; [done|].
  destruct Hd as [Hyx Hd]. rewrite (IH Hd). simpl.
  destruct (Z.ltb_spec (p_estBytes x) (p_estBytes y)); [lia|done].
Qed.

(** ** Invariants of the aggregator *)

Lemma aggregateKeys_unfold keys config delimiter :
  aggregateKeys keys config delimiter =
  {| prefixes := sortByEstBytes (OMap.values (aggregateState keys config delimiter).1);
     topN := (aggregateState keys config delimiter).2 |}.
Proof.
  unfold aggregateKeys, aggregateState.
  by destruct (foldl (aggregateStep config delimiter) ([], ∅) keys).
Qed.

Lemma aggregateState_snoc keys k config delimiter :
  aggregateState (keys ++ [k]) config delimiter =
  aggregateStep config delimiter (aggregateState keys config delimiter) k.
Proof. unfold aggregateState. by rewrite foldl_snoc. Qed.

Lemma aggregateStep_fst config delimiter st k :
  (aggregateStep config delimiter st k).1 =
  foldl (touchPrefix k config) st.1 (extractPrefixes (key k) delimiter 3).
Proof. by destruct st. Qed.

Lemma aggregateStep_snd config delimiter st k :
  (aggregateStep config delimiter st k).2 =
  let tm1 := if decide (is_Some (st.2 !! type k)) then st.2 else <[type k := []]> st.2 in
  if truthy (estBytes k)
  then <[type k := insertTopN (default [] (tm1 !! type k)) k (sizeTopN config)]> tm1
  else tm1.
Proof. by destruct st. Qed.

Section PrefixInvariant.
(** A property of prefix aggregates that the empty aggregate has and that
    [updatePrefixAgg] keeps holds of every aggregate that is returned. *)
Variable P : PrefixAgg -> Prop.
Hypothesis P_empty : forall p, P (createEmptyPrefixAgg p).
Hypothesis P_update : forall a k config, P a -> P (updatePrefixAgg a k config).

Lemma touchPrefix_Forall k config pm p :
  Forall P (OMap.values pm) -> Forall P (OMap.values (touchPrefix k config pm p)).
Proof.
  intros Hpm. unfold touchPrefix, OMap.has.
  destruct (OMap.get p pm) as [a|] eqn:Hget.
  - rewrite Hget. apply OMapFacts.values_set_Forall; [done|].
    apply P_update. by eapply OMapFacts.get_Forall.
  - rewrite OMapFacts.get_set_eq.
    apply OMapFacts.values_set_Forall.
    + by apply OMapFacts.values_set_Forall.
    + by apply P_update.
Qed.

Lemma touchPrefixes_Forall k config ps pm :
  Forall P (OMap.values pm) ->
  Forall P (OMap.values (foldl (touchPrefix k config) pm ps)).
Proof.
  revert pm. induction ps as [|p ps IH]; simpl; [done|].
  intros pm Hpm. apply IH. by apply touchPrefix_Forall.
Qed.

Lemma aggregateState_Forall keys config delimiter :
  Forall P (OMap.values (aggregateState keys config delimiter).1).
Proof.
  induction keys as [|k keys IH] using rev_ind.
  - constructor.
  - rewrite aggregateState_snoc, aggregateStep_fst.
    by apply touchPrefixes_Forall.
Qed.

Lemma aggregateKeys_Forall keys config delimiter :
  Forall P (prefixes (aggregateKeys keys config delimiter)).
Proof.
  rewrite aggregateKeys_unfold. simpl.
  rewrite sortByEstBytes_perm. apply aggregateState_Forall.
Qed.
End PrefixInvariant.

Lemma histogramsAddUp_empty p : histogramsAddUp (createEmptyPrefixAgg p).
Proof. unfold histogramsAddUp; simpl. rewrite !mapSum_empty. lia. Qed.

Lemma histogramsAddUp_update a k config :
  histogramsAddUp a -> histogramsAddUp (updatePrefixAgg a k config).
Proof.
  intros (Hty & Httl & Hidle). unfold histogramsAddUp, updatePrefixAgg; simpl.
  split_and!.
  - rewrite mapSum_insert. simpl.
    destruct (byType a !! type k); simpl; lia.
  - rewrite mapSum_histAdd. lia.
  - destruct (idleSec k); [rewrite mapSum_histAdd|]; lia.
Qed.

(** C2. Every prefix aggregate that [aggregateKeys] returns has
    [sum(byType[*].count) = count], [sum(ttlHist[*]) = count] and
    [sum(idleHist[*]) <= count], for every list of keys and every
    configuration. *)
Theorem aggregateKeys_histograms_add_up keys config delimiter agg :
  agg ∈ prefixes (aggregateKeys keys config delimiter) ->
  mapSum t_count (byType agg) = count agg /\
  mapSum id (ttlHist agg) = count agg /\
  mapSum id (idleHist agg) <= count agg.
Proof.
  intros Hin.
  pose proof (aggregateKeys_Forall histogramsAddUp histogramsAddUp_empty
                histogramsAddUp_update keys config delimiter) as Hall.
  rewrite Forall_forall in Hall. by apply Hall.
Qed.

Lemma aggregateKeys_histograms_add_up_witness :
  let agg :=
    updatePrefixAgg (updatePrefixAgg (createEmptyPrefixAgg "a") keyA1 cfgDefault)
                    keyA2 cfgDefault in
  agg ∈ prefixes (aggregateKeys [keyA1; keyA2] cfgDefault ":") /\
  mapSum t_count (byType agg) = count agg /\
  mapSum id (ttlHist agg) = count agg /\
  mapSum id (idleHist agg) <= count agg.
Proof.
  intros agg.
  assert (Hin : agg ∈ prefixes (aggregateKeys [keyA1; keyA2] cfgDefault ":")).
  { apply list_elem_of_lookup. exists 0%nat. vm_compute. reflexivity. }
  split; [exact Hin|].
  exact (aggregateKeys_histograms_add_up [keyA1; keyA2] cfgDefault ":" agg Hin).
Defined.

(** ** The bounded insertion *)

Lemma findInsertIndex_le l k : (findInsertIndex l k <= length l)%nat.
Proof.
  induction l as [|x l IH]; simpl; [lia|].
  destruct (orZero (estBytes x) <? orZero (estBytes k)); lia.
Qed.

(** What [insertTopN] returns is the list itself, the list with the key
    put in, or the first [maxSize] entries of that. *)
Lemma insertTopN_cases l k maxSize :
  let i := findInsertIndex l k in
  let l1 := (take i l ++ k :: drop i l)%list in
  (maxSize <= Z.of_nat i /\ insertTopN l k maxSize = l) \/
  (Z.of_nat i < maxSize /\ Z.of_nat (length l1) <= maxSize /\ insertTopN l k maxSize = l1) \/
  (Z.of_nat i < maxSize /\ maxSize < Z.of_nat (length l1) /\
   insertTopN l k maxSize = take (Z.to_nat maxSize) l1).
Proof.
  intros i l1. unfold insertTopN. fold i. fold l1.
  destruct (Z.ltb_spec (Z.of_nat i) maxSize); [|left; done].
  destruct (Z.ltb_spec maxSize (Z.of_nat (length l1))); right; [right|left]; done.
Qed.

Lemma insertTopN_length_spliced l k :
  length (take (findInsertIndex l k) l ++ k :: drop (findInsertIndex l k) l)%list
  = S (length l).
Proof.
  rewrite length_app. simpl. rewrite length_take, length_drop.
  pose proof (findInsertIndex_le l k). lia.
Qed.

(** A list within the bound stays within it. *)
Lemma insertTopN_length l k maxSize :
  Z.of_nat (length l) <= maxSize ->
  Z.of_nat (length (insertTopN l k maxSize)) <= maxSize.
Proof.
  intros Hl.
  destruct (insertTopN_cases l k maxSize) as [[_ ->]|[(_ & Hle & ->)|(Hi & _ & ->)]];
    [done|done|].
  rewrite length_take. lia.
Qed.

(** A list over the bound does not grow. *)
Lemma insertTopN_length_max l k maxSize :
  Z.of_nat (length (insertTopN l k maxSize)) <= Z.max (Z.of_nat (length l)) maxSize.
Proof.
  destruct (insertTopN_cases l k maxSize) as [[_ ->]|[(_ & Hle & ->)|(Hi & _ & ->)]];
    [lia|lia|].
  rewrite length_take. lia.
Qed.

Lemma insertTopN_elem l k maxSize x :
  x ∈ insertTopN l k maxSize -> x = k \/ x ∈ l.
Proof.
  assert (Hsp : x ∈ (take (findInsertIndex l k) l ++ k :: drop (findInsertIndex l k) l)%list
                -> x = k \/ x ∈ l).
  { rewrite elem_of_app, elem_of_cons.
    intros [H|[H|H]]; [right|by left|right].
    - by eapply subseteq_take.
    - by eapply subseteq_drop. }
  destruct (insertTopN_cases l k maxSize) as [[_ ->]|[(_ & _ & ->)|(_ & _ & ->)]].
  - by right.
  - done.
  - intros H. apply Hsp. by eapply subseteq_take.
Qed.

(** A key that has no estimate, or the estimate zero, finds no smaller
    entry among entries that are not negative: it goes to the end. *)
Lemma findInsertIndex_unknown l k :
  truthy (estBytes k) = false ->
  Forall (fun x => 0 <= orZero (estBytes x)) l ->
  findInsertIndex l k = length l.
Proof.
  intros Hk Hl.
  assert (Hz : orZero (estBytes k) = 0).
  { destruct (estBytes k) as [v|]; simpl in *; [|done].
    destruct (Z.eqb_spec v 0); [done|discriminate]. }
  induction Hl as [|x l Hx Hl IH]; simpl; [done|].
  rewrite Hz. destruct (Z.ltb_spec (orZero (estBytes x)) 0); [lia|].
  by rewrite IH.
Qed.

(** Such a key never pushes an entry out: the list that was there is still
    there, entry for entry, at the head of the result. *)
Lemma insertTopN_unknown_keeps l k maxSize :
  truthy (estBytes k) = false ->
  Forall (fun x => 0 <= orZero (estBytes x)) l ->
  insertTopN l k maxSize = l \/ insertTopN l k maxSize = (l ++ [k])%list.
Proof.
  intros Hk Hl. unfold insertTopN.
  rewrite (findInsertIndex_unknown l k Hk Hl).
  destruct (Z.ltb_spec (Z.of_nat (length l)) maxSize) as [Hlt|]; [|by left].
  rewrite firstn_all, drop_all.
  destruct (Z.ltb_spec maxSize (Z.of_nat (length (l ++ [k])%list))) as [Hgt|]; [|by right].
  rewrite length_app in Hgt. simpl in Hgt. lia.
Qed.

(** ** The top-N lists of [aggregateKeys] *)

Section TopNInvariant.
(** A property of top-N lists that the empty list has and that
    [insertTopN] keeps for a key with an estimate. *)
Variable config : ScanConfig.
Variable P : list KeyMeta -> Prop.
Hypothesis P_nil : P [].
Hypothesis P_insert :
  forall l k, P l -> truthy (estBytes k) = true -> P (insertTopN l k (sizeTopN config)).

Lemma aggregateStep_topN delimiter st k :
  map_Forall (fun _ l => P l) st.2 ->
  map_Forall (fun _ l => P l) (aggregateStep config delimiter st k).2.
Proof.
  intros Hst. rewrite aggregateStep_snd. simpl.
  set (tm1 := if decide (is_Some (st.2 !! type k)) then st.2 else <[type k := []]> st.2).
  assert (Htm1 : map_Forall (fun _ l => P l) tm1).
  { unfold tm1. destruct (decide (is_Some (st.2 !! type k))); [done|].
    by apply map_Forall_insert_2. }
  destruct (truthy (estBytes k)) eqn:Hk; [|done].
  apply map_Forall_insert_2; [|done].
  apply P_insert; [|done].
  destruct (tm1 !! type k) as [l|] eqn:Hl; simpl; [|done].
  by apply (Htm1 _ _ Hl).
Qed.

Lemma aggregateState_topN keys delimiter :
  map_Forall (fun _ l => P l) (aggregateState keys config delimiter).2.
Proof.
  induction keys as [|k keys IH] using rev_ind.
  - apply map_Forall_empty.
  - rewrite aggregateState_snoc. by apply aggregateStep_topN.
Qed.

Lemma aggregateKeys_topN keys delimiter ty l :
  topN (aggregateKeys keys config delimiter) !! ty = Some l -> P l.
Proof.
  rewrite aggregateKeys_unfold. simpl.
  apply (aggregateState_topN keys delimiter).
Qed.
End TopNInvariant.

(** Within one call of [aggregateKeys] no top-N list is longer than
    [sizeTopN]. *)
Lemma aggregateKeys_topN_length keys config delimiter ty l :
  0 <= sizeTopN config ->
  topN (aggregateKeys keys config delimiter) !! ty = Some l ->
  Z.of_nat (length l) <= sizeTopN config.
Proof.
  intros Hn.
  apply (aggregateKeys_topN config (fun l => Z.of_nat (length l) <= sizeTopN config)).
  - simpl. lia.
  - intros l0 k Hl0 _. by apply insertTopN_length.
Qed.

(** Only keys whose estimate is there and is not zero are in a top-N list
    of [aggregateKeys]. *)
Lemma aggregateKeys_topN_truthy keys config delimiter ty l :
  topN (aggregateKeys keys config delimiter) !! ty = Some l ->
  Forall (fun k => truthy (estBytes k) = true) l.
Proof.
  apply (aggregateKeys_topN config (Forall (fun k => truthy (estBytes k) = true))).
  - constructor.
  - intros l0 k Hl0 Hk. rewrite Forall_forall. intros x Hx.
    apply insertTopN_elem in Hx as [->|Hx]; [done|].
    rewrite Forall_forall in Hl0. by apply Hl0.
Qed.

(** ** The shape of a result *)

Lemma keyed_set pm k v : keyed pm -> prefix v = k -> keyed (OMap.set k v pm).
Proof.
  unfold keyed. intros Hpm Hv.
  induction pm as [|[k' v'] pm IH]; simpl.
  - by constructor.
  - apply Forall_cons in Hpm as [Hhd Htl].
    destruct (String.eqb_spec k' k) as [->|]; constructor; auto.
Qed.

Lemma keyed_get pm k v : keyed pm -> OMap.get k pm = Some v -> prefix v = k.
Proof.
  unfold keyed. induction pm as [|[k' v'] pm IH]; simpl; [done|].
  intros Hpm. apply Forall_cons in Hpm as [Hhd Htl].
  destruct (String.eqb_spec k' k) as [->|]; [|auto].
  intros [= <-]. done.
Qed.

Lemma keyed_names pm : keyed pm -> map prefix (OMap.values pm) = map fst pm.
Proof.
  unfold keyed, OMap.values. induction 1 as [|[k v] pm Hk _ IH]; simpl; [done|].
  simpl in Hk. by rewrite Hk, IH.
Qed.

Lemma updatePrefixAgg_prefix a k config : prefix (updatePrefixAgg a k config) = prefix a.
Proof. done. Qed.

Lemma touchPrefix_tidy k config pm p : tidy pm -> tidy (touchPrefix k config pm p).
Proof.
  intros [Hnd Hk]. unfold touchPrefix, OMap.has.
  destruct (OMap.get p pm) as [a|] eqn:Hget.
  - rewrite Hget. split.
    + by apply OMapFacts.keys_set_NoDup.
    + apply keyed_set; [done|]. rewrite updatePrefixAgg_prefix. by eapply keyed_get.
  - rewrite OMapFacts.get_set_eq. split.
    + by do 2 apply OMapFacts.keys_set_NoDup.
    + apply keyed_set; [by apply keyed_set|done].
Qed.

Lemma aggregateState_tidy keys config delimiter :
  tidy (aggregateState keys config delimiter).1.
Proof.
  induction keys as [|k keys IH] using rev_ind.
  - split; constructor.
  - rewrite aggregateState_snoc, aggregateStep_fst.
    revert IH. generalize (aggregateState keys config delimiter).1.
    induction (extractPrefixes (key k) delimiter 3) as [|p ps IHp]; simpl; [done|].
    intros pm Hpm. apply IHp. by apply touchPrefix_tidy.
Qed.

Lemma mergePrefix_tidy pm p : tidy pm -> tidy (mergePrefix pm p).
Proof.
  intros [Hnd Hk]. unfold mergePrefix.
  destruct (OMap.get (prefix p) pm) as [e|] eqn:Hget; split;
    try (by apply OMapFacts.keys_set_NoDup).
  - apply keyed_set; [done|]. simpl. by eapply keyed_get.
  - by apply keyed_set.
Qed.

Lemma mergePrefixes_tidy ps pm : tidy pm -> tidy (foldl mergePrefix pm ps).
Proof.
  revert pm. induction ps as [|p ps IH]; simpl; [done|].
  intros pm Hpm. apply IH. by apply mergePrefix_tidy.
Qed.

Lemma mergeAggregations_unfold results :
  mergeAggregations results =
  {| prefixes := sortByEstBytes (OMap.values (mergeState results).1);
     topN := (mergeState results).2 |}.
Proof.
  unfold mergeAggregations, mergeState.
  by destruct (foldl mergeStep ([], ∅) results).
Qed.

Lemma mergeState_snoc results r :
  mergeState (results ++ [r]) =
  (foldl mergePrefix (mergeState results).1 (prefixes r),
   mergeTopN (mergeState results).2 (topN r)).
Proof.
  unfold mergeState. rewrite foldl_snoc.
  by destruct (foldl mergeStep ([], ∅) results).
Qed.

Lemma mergeState_tidy results : tidy (mergeState results).1.
Proof.
  induction results as [|r results IH] using rev_ind.
  - split; constructor.
  - rewrite mergeState_snoc. simpl. by apply mergePrefixes_tidy.
Qed.

Lemma sorted_values_wellFormed pm tm :
  tidy pm ->
  wellFormed {| prefixes := sortByEstBytes (OMap.values pm); topN := tm |}.
Proof.
  intros [Hnd Hk]. split; simpl.
  - rewrite sortByEstBytes_perm, keyed_names; done.
  - apply sortByEstBytes_descending.
Qed.

Lemma aggregateKeys_wellFormed keys config delimiter :
  wellFormed (aggregateKeys keys config delimiter).
Proof.
  rewrite aggregateKeys_unfold. apply sorted_values_wellFormed, aggregateState_tidy.
Qed.

Lemma mergeAggregations_wellFormed results : wellFormed (mergeAggregations results).
Proof.
  rewrite mergeAggregations_unfold. apply sorted_values_wellFormed, mergeState_tidy.
Qed.

Lemma partialResult_wellFormed r : partialResult r -> wellFormed r.
Proof.
  destruct 1.
  - apply aggregateKeys_wellFormed.
  - apply mergeAggregations_wellFormed.
Qed.

(** ** Merging one result *)

Lemma mergePrefixes_fresh ps pm :
  NoDup (map fst pm ++ map prefix ps) ->
  foldl mergePrefix pm ps = (pm ++ map (fun p => (prefix p, p)) ps)%list.
Proof.
  revert pm. induction ps as [|p ps IH]; simpl; intros pm Hnd.
  - by rewrite app_nil_r.
  - assert (Hfresh : OMap.get (prefix p) pm = None).
    { apply OMapFacts.get_None_keys. apply NoDup_app in Hnd as (_ & Hdisj & _).
      intros Hin. apply (Hdisj _ Hin). apply elem_of_cons. by left. }
    unfold mergePrefix at 2. rewrite Hfresh, OMapFacts.set_fresh by done.
    rewrite IH.
    + by rewrite <- app_assoc.
    + rewrite map_app. simpl. rewrite <- app_assoc. done.
Qed.

Lemma values_of_entries ps : OMap.values (map (fun p => (prefix p, p)) ps) = ps.
Proof. unfold OMap.values. rewrite map_map. simpl. apply map_id. Qed.

Lemma mergeTopN_empty tn : mergeTopN ∅ tn = tn.
Proof.
  apply map_eq. intros ty. rewrite mergeTopN_lookup, lookup_empty.
  by destruct (tn !! ty).
Qed.

Lemma mergeAggregations_single_wellFormed x :
  wellFormed x -> mergeAggregations [x] = x.
Proof.
  intros [Hnd Hdesc]. rewrite mergeAggregations_unfold.
  change (mergeState [x]) with (mergeState ([] ++ [x])).
  rewrite mergeState_snoc. simpl.
  rewrite mergePrefixes_fresh by done. simpl.
  rewrite values_of_entries, sortByEstBytes_id by done.
  rewrite mergeTopN_empty. by destruct x.
Qed.

(** C3. [mergeAggregations([x])] is [x] for every partial result [x]: the
    prefixes list in the same order, every top-N list with the same
    entries in the same order. *)
Theorem mergeAggregations_single x :
  partialResult x -> mergeAggregations [x] = x.
Proof.
  intros Hx. by apply mergeAggregations_single_wellFormed, partialResult_wellFormed.
Qed.

Lemma mergeAggregations_single_witness :
  partialResult shardA /\ mergeAggregations [shardA] = shardA.
Proof.
  assert (H : partialResult shardA) by apply partial_aggregate.
  split; [exact H|]. exact (mergeAggregations_single shardA H).
Defined.

(** The identity of C3 is about results of the core.  A record of the same
    type whose prefixes are not in the order of the sort comes back
    sorted. *)
Lemma mergeAggregations_single_sorts :
  let small := createEmptyPrefixAgg "p" in
  let large :=
    {| prefix := "q"; count := 1; p_estBytes := 8;
       ttlHist := ∅; idleHist := ∅; byType := ∅ |} in
  prefixes (mergeAggregations [ {| prefixes := [small; large]; topN := ∅ |} ])
  = [large; small].
Proof. vm_compute. reflexivity. Qed.

(** ** The merge as a sum of tables *)

Lemma TypeStats_eq (s t : TypeStats) :
  t_count s = t_count t -> t_estBytes s = t_estBytes t -> s = t.
Proof. destruct s, t; simpl; congruence. Qed.

Lemma PrefixAgg_eq (a b : PrefixAgg) :
  prefix a = prefix b -> count a = count b -> p_estBytes a = p_estBytes b ->
  ttlHist a = ttlHist b -> idleHist a = idleHist b -> byType a = byType b -> a = b.
Proof. destruct a, b; simpl; congruence. Qed.

Lemma mergeHist_assoc (a b c : gmap string Z) :
  mergeHist (mergeHist a b) c = mergeHist a (mergeHist b c).
Proof.
  apply map_eq. intros k. rewrite !mergeHist_lookup.
  destruct (a !! k), (b !! k), (c !! k); simpl; f_equal; lia.
Qed.


Lemma mergeByType_assoc (a b c : gmap string TypeStats) :
  mergeByType (mergeByType a b) c = mergeByType a (mergeByType b c).
Proof.
  apply map_eq. intros k. rewrite !mergeByType_lookup.
  destruct (a !! k), (b !! k), (c !! k); simpl; f_equal;
    apply TypeStats_eq; simpl; lia.
Qed.


Lemma mergeInto_assoc a b c : mergeInto (mergeInto a b) c = mergeInto a (mergeInto b c).
Proof.
  apply PrefixAgg_eq; simpl; try lia; try done.
  - apply mergeHist_assoc.
  - apply mergeHist_assoc.
  - apply mergeByType_assoc.
Qed.


Lemma addRecord_lookup T p k :
  addRecord T p !! k =
  if decide (prefix p = k)
  then Some (match T !! k with Some e => mergeInto e p | None => p end)
  else T !! k.
Proof.
  unfold addRecord. destruct (decide (prefix p = k)) as [<-|Hne].
  - destruct (T !! prefix p); by rewrite lookup_insert_eq.
  - destruct (T !! prefix p); by rewrite lookup_insert_ne.
Qed.

Lemma mergePrefix_table pm p :
  (list_to_map (mergePrefix pm p) : gmap string PrefixAgg) = addRecord (list_to_map pm) p.
Proof.
  unfold mergePrefix, addRecord. rewrite OMapFacts.get_list_to_map.
  destruct (OMap.get (prefix p) pm); apply OMapFacts.list_to_map_set.
Qed.

Lemma mergePrefixes_table ps pm :
  (list_to_map (foldl mergePrefix pm ps) : gmap string PrefixAgg)
  = foldl addRecord (list_to_map pm) ps.
Proof.
  revert pm. induction ps as [|p ps IH]; simpl; [done|].
  intros pm. by rewrite IH, mergePrefix_table.
Qed.

Lemma addRecords_union ps T : foldl addRecord T ps = tableUnion T (total ps).
Proof.
  unfold total. induction ps as [|p ps IH] using rev_ind; simpl.
  - unfold tableUnion. apply map_eq. intros k.
    rewrite lookup_union_with, lookup_empty. by destruct (T !! k).
  - rewrite !foldl_snoc, IH. apply map_eq. intros k.
    unfold tableUnion. rewrite addRecord_lookup, !lookup_union_with, addRecord_lookup.
    destruct (decide (prefix p = k)) as [<-|Hne]; [|done].
    destruct (T !! prefix p), (foldl addRecord ∅ ps !! prefix p); simpl; try done.
    by rewrite mergeInto_assoc.
Qed.

Lemma total_app ps qs : total (ps ++ qs) = tableUnion (total ps) (total qs).
Proof. unfold total at 1. rewrite foldl_app. apply addRecords_union. Qed.



Lemma entries_of_values pm :
  keyed pm -> map (fun p => (prefix p, p)) (OMap.values pm) = pm.
Proof.
  unfold keyed, OMap.values. induction 1 as [|[k v] pm Hk _ IH]; simpl; [done|].
  simpl in Hk. by rewrite Hk, IH.
Qed.

Lemma byPrefix_sorted_values pm tm :
  tidy pm ->
  byPrefix {| prefixes := sortByEstBytes (OMap.values pm); topN := tm |} = list_to_map pm.
Proof.
  intros [Hnd Hk]. unfold byPrefix. simpl.
  rewrite <- (entries_of_values pm Hk) at 2.
  apply list_to_map_proper.
  - rewrite map_map. simpl.
    change (NoDup (map prefix (sortByEstBytes (OMap.values pm)))).
    rewrite sortByEstBytes_perm, keyed_names; done.
  - by rewrite sortByEstBytes_perm.
Qed.

Lemma mergeState_table results :
  (list_to_map (mergeState results).1 : gmap string PrefixAgg)
  = total (concat (map prefixes results)).
Proof.
  induction results as [|r results IH] using rev_ind; [done|].
  rewrite mergeState_snoc. simpl.
  rewrite mergePrefixes_table, IH, map_app, concat_app. simpl.
  rewrite app_nil_r. unfold total. by rewrite foldl_app.
Qed.

(** The table of a merge is the sum of all the records of all the inputs. *)
Lemma byPrefix_mergeAggregations results :
  byPrefix (mergeAggregations results) = total (concat (map prefixes results)).
Proof.
  rewrite mergeAggregations_unfold, byPrefix_sorted_values by apply mergeState_tidy.
  apply mergeState_table.
Qed.

Lemma total_wellFormed r : wellFormed r -> total (prefixes r) = byPrefix r.
Proof.
  intros [Hnd _]. unfold total, byPrefix.
  change (∅ : gmap string PrefixAgg) with (list_to_map [] : gmap string PrefixAgg).
  rewrite <- mergePrefixes_table. by rewrite mergePrefixes_fresh.
Qed.





(** ** The top-N lists of a merge *)

Lemma insertAll_app bound l ks1 ks2 :
  insertAll bound l (ks1 ++ ks2) = insertAll bound (insertAll bound l ks1) ks2.
Proof. unfold insertAll. apply foldl_app. Qed.

Lemma mergeState_topN results ty :
  (mergeState results).2 !! ty = remerge (topNLists ty results).
Proof.
  induction results as [|r results IH] using rev_ind; [apply lookup_empty|].
  rewrite mergeState_snoc. simpl. rewrite mergeTopN_lookup, IH.
  unfold topNLists. rewrite omap_app. simpl.
  destruct (topN r !! ty) as [keys|]; simpl.
  - destruct (omap (fun r0 => topN r0 !! ty) results) as [|first later]; simpl; [done|].
    by rewrite concat_app, insertAll_app; simpl; rewrite app_nil_r.
  - by rewrite app_nil_r.
Qed.

Lemma mergeAggregations_topN results ty :
  topN (mergeAggregations results) !! ty = remerge (topNLists ty results).
Proof. rewrite mergeAggregations_unfold. apply mergeState_topN. Qed.

Lemma insertAll_length_max bound l ks :
  Z.of_nat (length (insertAll bound l ks)) <= Z.max (Z.of_nat (length l)) bound.
Proof.
  revert l. induction ks as [|k ks IH]; intros l; simpl; [lia|].
  etransitivity; [apply IH|].
  pose proof (insertTopN_length_max l k bound). lia.
Qed.

(** After a merge a top-N list is no longer than the bound of the merge or
    than the first list that went in, whichever is larger. *)
Lemma mergeAggregations_topN_length results ty l first later :
  topNLists ty results = first :: later ->
  topN (mergeAggregations results) !! ty = Some l ->
  Z.of_nat (length l) <= Z.max (Z.of_nat (length first)) mergeTopNBound.
Proof.
  intros Hlists. rewrite mergeAggregations_topN, Hlists. simpl.
  intros [= <-]. apply insertAll_length_max.
Qed.

(** ** The order of the inputs shows in the result *)




(** Nor is the merge commutative: two shards with one key of 7 bytes each
    come out in the order they went in, in the prefixes list and in the
    top-N list. *)
Lemma mergeAggregations_not_commutative :
  let a := aggregateKeys [stringKey "p" 7] cfgDefault ":" in
  let b := aggregateKeys [stringKey "q" 7] cfgDefault ":" in
  map prefix (prefixes (mergeAggregations [a; b])) = ["p"; "q"] /\
  map prefix (prefixes (mergeAggregations [b; a])) = ["q"; "p"] /\
  map key <$> topN (mergeAggregations [a; b]) !! "string" = Some ["p"; "q"] /\
  map key <$> topN (mergeAggregations [b; a]) !! "string" = Some ["q"; "p"].
Proof. vm_compute. done. Qed.

(** ** The bound of a merged top-N list *)

(** C5. With [sizeTopN = 1], two shards of one key each: each shard keeps
    one key, as configured, and their merge keeps both, since the merge
    bounds its lists by 20 whatever the configuration says. *)
Theorem mergeAggregations_topN_exceeds_sizeTopN :
  let a := aggregateKeys [stringKey "k1" 10] cfgTop1 ":" in
  let b := aggregateKeys [stringKey "k2" 5] cfgTop1 ":" in
  length <$> topN a !! "string" = Some 1%nat /\
  length <$> topN b !! "string" = Some 1%nat /\
  topN (mergeAggregations [a; b]) !! "string"
  = Some [stringKey "k1" 10; stringKey "k2" 5] /\
  sizeTopN cfgTop1 < 2.
Proof. vm_compute. done. Qed.

(** What does hold of the two halves of C5 is in
    [aggregateKeys_topN_length] (one call of [aggregateKeys] respects
    [sizeTopN]), [mergeAggregations_topN_length] (a merge respects 20 or
    the length of the first list) and [insertTopN_unknown_keeps] (a key
    without an estimate pushes no entry out). *)

(** ** The scenario of two keys under [a] *)

(** C6. The scenario gives for prefix [a] the count 2 and the estBytes 30
    of the claim, but not its TTL histogram: the key of 30 seconds is
    counted under [0s-1m], the label that [formatTime] makes of the
    boundaries 0 and 60, so that the histogram is
    [{persistent: 1, 0s-1m: 1}] and has no entry [0-60s].  On the same
    boundaries the function's own path for a TTL of 0 names this bucket
    [0-60s], as the claim does: one bucket goes under two labels. *)
Theorem scenario_prefix_a (ds : list Z) (sc n : Z) :
  let config :=
    {| dbs := ds; sampleLimit := 5; scanCount := sc;
       ttlBuckets := [0; 60; 300]; idleBuckets := [0; 60]; sizeTopN := n |} in
  (exists agg,
     prefixAgg "a" (aggregateKeys [keyA1; keyA2] config ":") = Some agg /\
     count agg = 2 /\
     p_estBytes agg = 30 /\
     ttlHist agg = {[ "persistent" := 1; "0s-1m" := 1 ]} /\
     ttlHist agg !! "0-60s" = None /\
     ttlHist agg <> {[ "persistent" := 1; "0-60s" := 1 ]}) /\
  getTTLBucketLabel (Some 30000) (ttlBuckets config) = "0s-1m" /\
  getTTLBucketLabel (Some 0) (ttlBuckets config) = "0-60s".
Proof.
  intros config. split; [|by vm_compute].
  eexists. split; [vm_compute; reflexivity|].
  split; [done|]. split; [done|].
  split; [vm_compute; reflexivity|]. split; [by vm_compute|].
  intros Heq. apply (f_equal (fun h => h !! "0-60s")) in Heq.
  vm_compute in Heq. discriminate.
Qed.

(** ** An estimate of zero *)

Lemma updatePrefixAgg_falsy_sums a k config :
  truthy (estBytes k) = false ->
  p_estBytes (updatePrefixAgg a k config) = p_estBytes a /\
  forall ty, typeBytes ty (updatePrefixAgg a k config) = typeBytes ty a.
Proof.
  intros Hk. unfold typeBytes, updatePrefixAgg. simpl. rewrite Hk. split; [done|].
  intros ty. destruct (decide (type k = ty)) as [<-|Hne].
  - rewrite lookup_insert_eq. simpl. by destruct (byType a !! type k).
  - by rewrite lookup_insert_ne.
Qed.

Lemma updatePrefixAgg_falsy a k config :
  truthy (estBytes k) = false ->
  updatePrefixAgg a k config = updatePrefixAgg a (withoutEstimate k) config.
Proof. intros Hk. unfold updatePrefixAgg. simpl. by rewrite Hk. Qed.

Lemma aggregateStep_falsy config delimiter st k :
  truthy (estBytes k) = false ->
  aggregateStep config delimiter st k = aggregateStep config delimiter st (withoutEstimate k).
Proof.
  intros Hk. destruct st as [pm tm]. unfold aggregateStep. simpl. rewrite Hk.
  f_equal. generalize (extractPrefixes (key k) delimiter 3). intros ps.
  revert pm. induction ps as [|p ps IH]; simpl; [done|].
  intros pm. rewrite IH. f_equal.
  unfold touchPrefix.
  destruct (OMap.get p (if OMap.has p pm then pm else OMap.set p (createEmptyPrefixAgg p) pm));
    [|done].
  by rewrite updatePrefixAgg_falsy.
Qed.

Lemma aggregateState_middle keys1 k keys2 config delimiter :
  aggregateState (keys1 ++ k :: keys2) config delimiter =
  foldl (aggregateStep config delimiter)
        (aggregateStep config delimiter (aggregateState keys1 config delimiter) k) keys2.
Proof. unfold aggregateState. by rewrite foldl_app. Qed.

(** C10. A key whose [estBytes] is exactly 0 is aggregated as the same key
    without an estimate: the result is the same, the key adds nothing to
    the [estBytes] of a prefix or of a type, and it is in no top-N list;
    the test [if (key.estBytes)] is on the truth of the value. *)
Theorem zero_estimate_is_no_estimate keys1 k keys2 config delimiter :
  estBytes k = Some 0 ->
  aggregateKeys (keys1 ++ k :: keys2) config delimiter
  = aggregateKeys (keys1 ++ withoutEstimate k :: keys2) config delimiter /\
  (forall a,
     p_estBytes (updatePrefixAgg a k config) = p_estBytes a /\
     forall ty, typeBytes ty (updatePrefixAgg a k config) = typeBytes ty a) /\
  (forall ty l,
     topN (aggregateKeys (keys1 ++ k :: keys2) config delimiter) !! ty = Some l ->
     k ∉ l).
Proof.
  intros Hzero.
  assert (Hk : truthy (estBytes k) = false) by (by rewrite Hzero).
  split_and!.
  - rewrite !aggregateKeys_unfold, !aggregateState_middle.
    by rewrite (aggregateStep_falsy _ _ _ k Hk).
  - intros a. by apply updatePrefixAgg_falsy_sums.
  - intros ty l Hl Hin.
    apply aggregateKeys_topN_truthy in Hl. rewrite Forall_forall in Hl.
    specialize (Hl _ Hin). congruence.
Qed.

Lemma zero_estimate_is_no_estimate_witness :
  let k := stringKey "a:2" 0 in
  estBytes k = Some 0 /\
  aggregateKeys ([keyA1] ++ k :: [keyA2]) cfgDefault ":"
  = aggregateKeys ([keyA1] ++ withoutEstimate k :: [keyA2]) cfgDefault ":".
Proof.
  split; [reflexivity|].
  exact (proj1 (zero_estimate_is_no_estimate [keyA1] (stringKey "a:2" 0) [keyA2]
                  cfgDefault ":" eq_refl)).
Defined.

(** ** The size estimator *)

Lemma estimateKeySizeHeuristic_overhead floorScaled client k ty :
  estimateKeySizeHeuristic floorScaled client k ty
  = typeEstimate floorScaled client k ty + baseOverhead.
Proof.
  unfold estimateKeySizeHeuristic, typeEstimate.
  repeat (destruct (String.eqb ty _); [done|]). done.
Qed.

Lemma estimateKeySize_native floorScaled client k ty m :
  nativeSize client k = Some m ->
  estimateKeySize floorScaled client k ty = Ok m.
Proof.
  unfold nativeSize, estimateKeySize.
  destruct (c_memory client k) as [[m'|]|]; try done.
  destruct (Z.ltb_spec 0 m'); [|done]. intros [= ->].
  destruct (Z.eqb_spec m 0); [lia|done].
Qed.

Lemma estimateKeySize_fallback floorScaled client k ty :
  nativeSize client k = None ->
  estimateKeySize floorScaled client k ty
  = Ok (estimateKeySizeHeuristic floorScaled client k ty).
Proof.
  unfold nativeSize, estimateKeySize.
  destruct (c_memory client k) as [[m'|]|]; try done.
  destruct (Z.ltb_spec 0 m'); [done|]. intros _.
  by rewrite andb_false_r.
Qed.

(** C8, as stated, fails: when [MEMORY USAGE] answers 1, the estimate is 1;
    no size with an overhead of 50 on top of it comes to 1. *)
Lemma native_estimate_without_overhead :
  estimateKeySize floorScaledExact (oneString (Ok (Some 1)) (Ok (Some "abc"))) "k" "string"
  = Ok 1 /\
  ~ exists size, 0 <= size /\ 1 = size + baseOverhead.
Proof.
  split; [reflexivity|]. unfold baseOverhead. intros (size & ? & ?). lia.
Qed.

(** C8, amended. The overhead of 50 is added on every path of the
    heuristic: the estimate is the size that the heuristic of the type
    comes to plus 50, and 50 alone for a type without a heuristic.  When
    the native command answers a positive number the estimate is that
    number as it is, with nothing added. *)
Theorem overhead_on_heuristic_paths floorScaled client k ty :
  (forall m, nativeSize client k = Some m ->
             estimateKeySize floorScaled client k ty = Ok m) /\
  (nativeSize client k = None ->
   estimateKeySize floorScaled client k ty
   = Ok (typeEstimate floorScaled client k ty + baseOverhead)) /\
  (ty ∉ ["string"; "hash"; "list"; "set"; "zset"; "stream"] ->
   typeEstimate floorScaled client k ty = 0).
Proof.
  split_and!.
  - intros m. apply estimateKeySize_native.
  - intros Hnone. rewrite estimateKeySize_fallback by done.
    by rewrite estimateKeySizeHeuristic_overhead.
  - intros Hty. unfold typeEstimate.
    assert (Hne : forall s, s ∈ ["string"; "hash"; "list"; "set"; "zset"; "stream"] ->
                            String.eqb ty s = false).
    { intros s Hs. apply String.eqb_neq. intros ->. by apply Hty. }
    rewrite !Hne by set_solver. done.
Qed.

Lemma overhead_on_heuristic_paths_witness :
  let client := oneString (Err "ERR unknown command") (Ok (Some "abc")) in
  nativeSize client "k" = None /\
  estimateKeySize floorScaledExact client "k" "string" = Ok (3 + baseOverhead).
Proof.
  split; [reflexivity|].
  exact (proj1 (proj2 (overhead_on_heuristic_paths floorScaledExact
                         (oneString (Err "ERR unknown command") (Ok (Some "abc")))
                         "k" "string")) eq_refl).
Defined.

(** ** Where an estimate is absent *)

Lemma collectLoop_estBytes estimate client d j batch i k ty :
  batch !! i = Some k ->
  c_type client k = Ok ty ->
  exists meta,
    meta ∈ (collectLoop estimate client d j batch).1 /\
    key meta = k /\ type meta = ty /\
    estBytes meta = strideEstimate estimate client (j + i) k ty.
Proof.
  revert j i. induction batch as [|k0 batch IH]; intros j i Hi Hty; [done|].
  destruct i as [|i]; cbn [lookup list_lookup] in Hi.
  - injection Hi as ->. cbn [collectLoop]. rewrite Hty.
    unfold strideEstimate. rewrite Nat.add_0_r.
    destruct (j mod 10 =? 0)%nat; [destruct (estimate client k ty)|];
      destruct (collectLoop estimate client d (S j) batch);
      eexists; (split; [apply list_elem_of_here|done]).
  - destruct (IH (S j) i Hi Hty) as (meta & Hin & Hrest).
    replace (j + S i)%nat with (S j + i)%nat by lia.
    exists meta. split; [|done].
    cbn [collectLoop]. destruct (c_type client k0); [|done].
    destruct (if (j mod 10 =? 0)%nat then _ else _) as [e c].
    destruct (collectLoop estimate client d (S j) batch). simpl in *.
    by apply list_elem_of_further.
Qed.

Lemma aggregateStep_falsy_topN config delimiter st k ty :
  truthy (estBytes k) = false ->
  default [] ((aggregateStep config delimiter st k).2 !! ty) = default [] (st.2 !! ty).
Proof.
  intros Hk. rewrite aggregateStep_snd. simpl. rewrite Hk.
  destruct (decide (is_Some (st.2 !! type k))) as [|Hnone]; [done|].
  destruct (decide (type k = ty)) as [<-|Hne].
  - rewrite lookup_insert_eq. simpl.
    destruct (st.2 !! type k) eqn:E; [|done]. exfalso. apply Hnone. by eexists.
  - by rewrite lookup_insert_ne.
Qed.

(** C7, as stated, fails.  [MEMORY USAGE] errors and the key still gets an
    estimate: the 3 bytes of its value and the overhead when [GET] answers,
    and the overhead on top of a zero when [GET] fails as well. *)
Lemma native_failure_still_estimates :
  let collected (client : Conn) :=
    match collectKeyMetadata (estimateKeySize floorScaledExact) client ["k"] 0 cfgDefault with
    | Ok (metadata, _) => Some (map estBytes metadata)
    | Err _ => None
    end in
  let unknown := Err "ERR unknown command" in
  c_memory (oneString unknown (Ok (Some "abc"))) "k" = unknown /\
  collected (oneString unknown (Ok (Some "abc"))) = Some [Some 53] /\
  collected (oneString unknown (Err "Connection is closed.")) = Some [Some 50].
Proof. split_and!; reflexivity. Qed.

(** C7, amended. When the native command is unavailable, errors or gives
    no positive number, the estimator falls back to the heuristic of the
    type and resolves with its number.  The [estBytes] of a key is absent
    when the key is off the one-in-ten stride of its batch or when the
    estimator rejects, and is otherwise the very number the estimator
    resolved with.  A key with absent [estBytes] adds nothing to the
    [estBytes] of a prefix or of a type and goes into no top-N list. *)
Theorem absent_estimate floorScaled estimate :
  (forall client k ty,
     nativeSize client k = None ->
     estimateKeySize floorScaled client k ty
     = Ok (estimateKeySizeHeuristic floorScaled client k ty)) /\
  (forall client d batch i k ty,
     batch !! i = Some k -> c_type client k = Ok ty ->
     exists meta,
       meta ∈ (collectLoop estimate client d 0 batch).1 /\
       key meta = k /\
       estBytes meta =
         if (i mod 10 =? 0)%nat then
           match estimate client k ty with Ok n => Some n | Err _ => None end
         else None) /\
  (forall config delimiter st a k,
     estBytes k = None ->
     p_estBytes (updatePrefixAgg a k config) = p_estBytes a /\
     (forall ty, typeBytes ty (updatePrefixAgg a k config) = typeBytes ty a) /\
     (forall ty, default [] ((aggregateStep config delimiter st k).2 !! ty)
                 = default [] (st.2 !! ty))).
Proof.
  split_and!.
  - intros. by apply estimateKeySize_fallback.
  - intros client d batch i k ty Hi Hty.
    destruct (collectLoop_estBytes estimate client d 0 batch i k ty Hi Hty)
      as (meta & Hin & Hk & _ & Hest).
    exists meta. split_and!; done.
  - intros config delimiter st a k Hnone.
    assert (Hk : truthy (estBytes k) = false) by (by rewrite Hnone).
    destruct (updatePrefixAgg_falsy_sums a k config Hk) as [Hp Ht].
    split_and!; [done|done|].
    intros ty. by apply aggregateStep_falsy_topN.
Qed.

(** A batch of eleven keys on a store where the estimator rejects: the key
    at index 10 is on the stride and is kept, without an estimate. *)
Lemma absent_estimate_witness :
  let client := oneString (Ok None) (Ok None) in
  let rejecting := fun (_ : Conn) (_ _ : string) => @Err Z "timeout" in
  let batch := ["k0"; "k1"; "k2"; "k3"; "k4"; "k5"; "k6"; "k7"; "k8"; "k9"; "k10"] in
  batch !! 10%nat = Some "k10" /\
  c_type client "k10" = Ok "string" /\
  exists meta,
    meta ∈ (collectLoop rejecting client 0 0 batch).1 /\
    key meta = "k10" /\ estBytes meta = None.
Proof.
  intros client rejecting batch.
  split; [reflexivity|]. split; [reflexivity|].
  exact (proj1 (proj2 (absent_estimate floorScaledExact rejecting))
           client 0 batch 10%nat "k10" "string" eq_refl eq_refl).
Defined.

(** ** The coverage of a scan *)

Lemma takeDigits_digits s : Forall (fun c => isDigit c = true) (list_ascii_of_string (takeDigits s)).
Proof.
  induction s as [|c s IH]; simpl; [constructor|].
  destruct (isDigit c) eqn:Hc; simpl; [|constructor].
  by constructor.
Qed.

Lemma parseInt_nonneg digits :
  Forall (fun c => isDigit c = true) (list_ascii_of_string digits) ->
  0 <= parseInt digits.
Proof.
  unfold parseInt. generalize (list_ascii_of_string digits). intros cs Hcs.
  assert (Hgen : forall n, 0 <= n ->
            0 <= foldl (fun n c => 10 * n + (Z.of_nat (nat_of_ascii c) - 48)) n cs).
  { induction Hcs as [|c cs Hc _ IH]; intros n Hn; simpl; [done|].
    apply IH. unfold isDigit in Hc.
    apply andb_true_iff in Hc as [Hlo _]. apply Nat.leb_le in Hlo. lia. }
  by apply Hgen.
Qed.

Lemma matchKeys_digits line digits :
  matchKeys line = Some digits ->
  Forall (fun c => isDigit c = true) (list_ascii_of_string digits).
Proof.
  induction line as [|c line IH]; [done|].
  cbn [matchKeys].
  destruct (startsWith "keys=" (String c line)).
  - destruct (String.eqb_spec
                (takeDigits (substring 5 (String.length (String c line) - 5) (String c line)))
                EmptyString) as [_|_]; [done|].
    intros [= <-]. apply takeDigits_digits.
  - rewrite String.eqb_refl. done.
Qed.

Lemma db0Keys_nonneg lines : 0 <= default 0 (db0Keys lines).
Proof.
  induction lines as [|line lines IH]; cbn [db0Keys]; [done|].
  destruct (startsWith "db0:" line); [|exact IH].
  destruct (matchKeys line) as [digits|] eqn:Hm; [|exact IH].
  cbn [default]. by eapply parseInt_nonneg, matchKeys_digits.
Qed.

Lemma clusterTotal_nonneg nodes approx : 0 <= approx -> 0 <= clusterTotal nodes approx.
Proof.
  revert approx. induction nodes as [|node nodes IH]; intros approx Ha;
    cbn [clusterTotal]; [done|].
  destruct (n_info node) as [info|]; [|done].
  apply IH. pose proof (db0Keys_nonneg (split info crlf)). lia.
Qed.

Lemma scanStandalone_finish estimate client config :
  exists approx memCalls errs,
    0 <= approx /\
    scanStandalone estimate client config
    = finish config (visitedStandalone estimate client config) approx memCalls errs.
Proof.
  unfold scanStandalone, visitedStandalone.
  destruct (scanDbs estimate client config (dbs config) [] 0 []) as [[all memCalls] errs].
  eexists _, memCalls, errs. split; [|reflexivity].
  destruct (s_info client); [apply db0Keys_nonneg|done].
Qed.

Lemma scanCluster_finish estimate nodes config :
  exists approx memCalls errs,
    0 <= approx /\
    scanCluster estimate nodes config
    = finish config (visitedCluster estimate nodes config) approx memCalls errs.
Proof.
  unfold scanCluster, visitedCluster, visitedNode.
  eexists _, _, _. split; [|by rewrite map_map].
  by apply clusterTotal_nonneg.
Qed.

Lemma finish_coverage config all approx memCalls errs :
  0 <= approx -> coverageIsRatio (stats (finish config all approx memCalls errs)).
Proof.
  intros Ha. unfold coverageIsRatio, finish, coverageOf. simpl.
  split; [done|]. split.
  - intros ->. reflexivity.
  - intros Hpos. destruct (Z.ltb_spec 0 approx); [|lia]. split.
    + rewrite Qmake_Qdiv. by rewrite Z2Pos.id.
    + unfold Qle. simpl. rewrite Z2Pos.id by done. lia.
Qed.

(** C9, as stated, fails: with one key reported and two sampled the
    coverage is 2; nothing clamps it. *)
Lemma coverage_exceeds_one :
  let s := stats (scanStandalone (estimateKeySize floorScaledExact) staleServer cfgDefault) in
  sampled s = 2 /\ approxTotalKeys s = 1 /\ (coverage s == 2)%Q /\ ~ (coverage s <= 1)%Q.
Proof.
  split; [reflexivity|]. split; [reflexivity|]. split; [reflexivity|].
  vm_compute. intros H. by apply H.
Qed.

(** C9, amended. The store never reports a negative total.  When the
    total is 0 the coverage is 0; when it is positive the coverage is
    [sampled] divided by it, with no clamping: it is at most 1 exactly when
    [sampled] is at most the total, and it is above 1 when the total is
    stale and smaller than [sampled]. *)
Theorem coverage_is_unclamped_ratio estimate config :
  (forall client, coverageIsRatio (stats (scanStandalone estimate client config))) /\
  (forall nodes, coverageIsRatio (stats (scanCluster estimate nodes config))).
Proof.
  split.
  - intros client.
    destruct (scanStandalone_finish estimate client config) as (a & m & e & Ha & ->).
    by apply finish_coverage.
  - intros nodes.
    destruct (scanCluster_finish estimate nodes config) as (a & m & e & Ha & ->).
    by apply finish_coverage.
Qed.

Lemma coverage_is_unclamped_ratio_witness :
  let s := stats (scanStandalone (estimateKeySize floorScaledExact) staleServer cfgDefault) in
  0 < approxTotalKeys s /\
  (coverage s == inject_Z (sampled s) / inject_Z (approxTotalKeys s))%Q.
Proof.
  intros s. assert (Hpos : 0 < approxTotalKeys s) by reflexivity.
  split; [exact Hpos|].
  exact (proj1 (proj2 (proj2 (proj1 (coverage_is_unclamped_ratio
           (estimateKeySize floorScaledExact) cfgDefault) staleServer)) Hpos)).
Defined.

(** ** The sample limit *)

Lemma grown_weaken (P Q : list KeyMeta -> Prop) limit acc out :
  (forall b, P b -> Q b) -> grown P limit acc out -> grown Q limit acc out.
Proof.
  intros HPQ. induction 1 as [|acc b out Hlt Hb _ IH]; [constructor|].
  eapply grown_more; eauto.
Qed.

Lemma grown_trans P limit a b c :
  grown P limit a b -> grown P limit b c -> grown P limit a c.
Proof.
  induction 1 as [|acc batch out Hlt Hb _ IH]; [done|].
  intros Hc. eapply grown_more; eauto.
Qed.

Lemma scanLoop_grown estimate client d config replies acc memCalls :
  Z.of_nat (length acc) < sampleLimit config ->
  grown (isBatchOf estimate config client d replies) (sampleLimit config) acc
        (scanLoop estimate client d config replies acc memCalls).1.1.
Proof.
  revert acc memCalls.
  induction replies as [|r replies IH]; intros acc memCalls Hlt; [constructor|].
  assert (Hrest : forall a c,
            Z.of_nat (length a) < sampleLimit config ->
            grown (isBatchOf estimate config client d (r :: replies)) (sampleLimit config) a
                  (scanLoop estimate client d config replies a c).1.1).
  { intros a c Ha. eapply grown_weaken; [|by apply IH].
    intros b (cur & bk & mc & Hin & Hb). exists cur, bk, mc.
    split; [by apply list_elem_of_further|done]. }
  destruct r as [[newCursor batchKeys]|m]; cbn [scanLoop]; [|constructor].
  destruct batchKeys as [|k0 batchKeys].
  - destruct (Z.leb_spec (sampleLimit config) (Z.of_nat (length acc))); [constructor|].
    destruct (String.eqb newCursor "0"); [constructor|]. by apply Hrest.
  - destruct (collectKeyMetadata estimate client (k0 :: batchKeys) d config)
      as [[ks c]|m] eqn:Hcollect; [|constructor].
    eapply grown_more; [done| |].
    { exists newCursor, (k0 :: batchKeys), c. split; [apply list_elem_of_here|done]. }
    destruct (Z.leb_spec (sampleLimit config) (Z.of_nat (length (acc ++ ks)%list)));
      [constructor|].
    destruct (String.eqb newCursor "0"); [constructor|]. by apply Hrest.
Qed.

Lemma scanDbs_grown estimate client config ds acc memCalls errs :
  grown (standaloneBatch estimate config client ds) (sampleLimit config) acc
        (scanDbs estimate client config ds acc memCalls errs).1.1.
Proof.
  revert acc memCalls errs.
  induction ds as [|d ds IH]; intros acc memCalls errs; [constructor|].
  assert (Hrest : forall a c e,
            grown (standaloneBatch estimate config client (d :: ds)) (sampleLimit config) a
                  (scanDbs estimate client config ds a c e).1.1).
  { intros a c e. eapply grown_weaken; [|apply IH].
    intros b (d' & Hd' & Hb). exists d'. split; [by apply list_elem_of_further|done]. }
  cbn [scanDbs].
  destruct (Z.leb_spec (sampleLimit config) (Z.of_nat (length acc))); [constructor|].
  destruct (s_select client d); [|apply Hrest].
  pose proof (scanLoop_grown estimate (s_db client d) d config
                (c_scan (s_db client d)) acc memCalls) as Hloop.
  destruct (scanLoop estimate (s_db client d) d config (c_scan (s_db client d)) acc memCalls)
    as [[acc1 calls1] e].
  eapply grown_trans; [|apply Hrest].
  eapply grown_weaken; [|by apply Hloop].
  intros b Hb. exists d. split; [apply list_elem_of_here|done].
Qed.

Lemma sliceTo_nonneg all limit :
  0 <= limit ->
  sliceTo all limit = take (Z.to_nat limit) all /\
  Z.of_nat (length (sliceTo all limit)) = Z.min (Z.of_nat (length all)) limit.
Proof.
  intros Hl. unfold sliceTo. destruct (Z.ltb_spec limit 0); [lia|].
  split; [done|]. rewrite length_take. lia.
Qed.

Lemma finish_cutToLimit config all approx memCalls errs :
  cutToLimit config all (finish config all approx memCalls errs).
Proof.
  unfold cutToLimit, finish. simpl. split_and!; [done|lia|done|].
  intros Hl. by apply sliceTo_nonneg.
Qed.

(** *** The loops against the contract *)

Lemma wholeBatches_full limit acc batches :
  limit <= Z.of_nat (length acc) -> wholeBatches limit acc batches = acc.
Proof.
  intros Hfull. destruct batches as [|b rest]; [done|]. cbn [wholeBatches].
  destruct (Z.leb_spec limit (Z.of_nat (length acc))); [done|lia].
Qed.

Lemma wholeBatches_app limit acc bs1 bs2 :
  wholeBatches limit acc (bs1 ++ bs2) = wholeBatches limit (wholeBatches limit acc bs1) bs2.
Proof.
  revert acc. induction bs1 as [|b bs1 IH]; intros acc; [done|].
  cbn [app wholeBatches].
  destruct (Z.leb_spec limit (Z.of_nat (length acc))); [|apply IH].
  by rewrite wholeBatches_full.
Qed.

(** The loop over the answers to [SCAN] takes its first batch and then
    whole batches while the list is shorter than the limit. *)
Lemma scanLoop_batches estimate client d config replies acc memCalls :
  (scanLoop estimate client d config replies acc memCalls).1.1 =
  match batchesOf estimate config client d replies with
  | [] => acc
  | first :: later => wholeBatches (sampleLimit config) (acc ++ first) later
  end.
Proof.
  revert acc memCalls. induction replies as [|r replies IH]; intros acc memCalls; [done|].
  destruct r as [[newCursor batchKeys]|m]; cbn [scanLoop batchesOf]; [|done].
  assert (Hgo : forall a c,
            (if sampleLimit config <=? Z.of_nat (length a) then (a, c, None)
             else if String.eqb newCursor "0" then (a, c, None)
                  else scanLoop estimate client d config replies a c).1.1
            = wholeBatches (sampleLimit config) a
                (if String.eqb newCursor "0" then []
                 else batchesOf estimate config client d replies)).
  { intros a c. destruct (Z.leb_spec (sampleLimit config) (Z.of_nat (length a))).
    - by rewrite wholeBatches_full.
    - destruct (String.eqb newCursor "0"); [done|]. rewrite IH.
      destruct (batchesOf estimate config client d replies) as [|b rest]; [done|].
      cbn [wholeBatches].
      destruct (Z.leb_spec (sampleLimit config) (Z.of_nat (length a))); [lia|done]. }
  destruct batchKeys as [|k0 batchKeys].
  - rewrite app_nil_r. apply Hgo.
  - destruct (collectKeyMetadata estimate client (k0 :: batchKeys) d config)
      as [[ks c]|m]; [apply Hgo|done].
Qed.

Lemma scanDbs_batches estimate server config ds acc memCalls errs :
  (scanDbs estimate server config ds acc memCalls errs).1.1 =
  wholeBatches (sampleLimit config) acc
    (flat_map (fun d =>
                 match s_select server d with
                 | Ok _ => batchesOf estimate config (s_db server d) d (c_scan (s_db server d))
                 | Err _ => []
                 end) ds).
Proof.
  revert acc memCalls errs. induction ds as [|d ds IH]; intros acc memCalls errs; [done|].
  cbn [scanDbs flat_map]. rewrite wholeBatches_app.
  destruct (Z.leb_spec (sampleLimit config) (Z.of_nat (length acc))) as [Hfull|Hroom].
  - rewrite (wholeBatches_full _ acc) by lia. by rewrite wholeBatches_full by lia.
  - destruct (s_select server d); [|apply IH].
    pose proof (scanLoop_batches estimate (s_db server d) d config
                  (c_scan (s_db server d)) acc memCalls) as Hloop.
    destruct (scanLoop estimate (s_db server d) d config (c_scan (s_db server d)) acc memCalls)
      as [[acc1 calls1] e].
    rewrite IH. f_equal. cbn [fst] in Hloop. rewrite Hloop.
    destruct (batchesOf estimate config (s_db server d) d (c_scan (s_db server d)))
      as [|b rest]; [done|].
    cbn [wholeBatches].
    destruct (Z.leb_spec (sampleLimit config) (Z.of_nat (length acc))); [lia|done].
Qed.

Lemma visitedStandalone_batches estimate server config :
  visitedStandalone estimate server config
  = wholeBatches (sampleLimit config) [] (serverBatches estimate config server).
Proof. apply scanDbs_batches. Qed.

Lemma visitedNode_batches estimate config node :
  visitedNode estimate config node = nodeGathers estimate config node.
Proof. unfold visitedNode, scanNode, nodeGathers, nodeBatches. apply scanLoop_batches. Qed.

Lemma nodeGathers_positive estimate config node :
  0 < sampleLimit config ->
  nodeGathers estimate config node
  = wholeBatches (sampleLimit config) [] (nodeBatches estimate config node).
Proof.
  intros Hpos. unfold nodeGathers.
  destruct (nodeBatches estimate config node) as [|b rest]; [done|].
  cbn [wholeBatches length]. destruct (Z.leb_spec (sampleLimit config) (Z.of_nat 0)); [lia|done].
Qed.

(** C1, as stated, fails for a negative limit: a node hands out two keys,
    the limit is -1, and the scan returns one key and says [sampled = -1]. *)
Lemma negative_limit_length_is_not_sampled :
  let r := scanCluster (estimateKeySize floorScaledExact) [twoKeyNode] cfgNegative in
  length (sr_keys r) = 1%nat /\
  sampled (stats r) = (-1) /\
  Z.of_nat (length (sr_keys r)) <> sampled (stats r).
Proof. vm_compute. split_and!; done. Qed.

(** C1, amended. With [sampleLimit = L], both scans return [sampled] equal
    to the smaller of [L] and the number of keys gathered, so at most [L],
    and the keys returned are [slice(0, L)] of the keys gathered; for a
    limit that is not negative these are the first [L] of them, as many as
    [sampled] says.  The keys gathered are the batches of the shards taken
    whole and in turn, a batch being added exactly while the list is
    shorter than [L]: on a standalone server over the databases asked for,
    on a cluster node by node, each node counting for itself and taking
    its first batch in any case.  Nothing is fetched or dropped to make
    the count come out at [L]. *)
Theorem scan_respects_sample_limit estimate config :
  (forall server,
     cutToLimit config
       (wholeBatches (sampleLimit config) [] (serverBatches estimate config server))
       (scanStandalone estimate server config)) /\
  (forall nodes,
     cutToLimit config
       (concat (map (nodeGathers estimate config) nodes))
       (scanCluster estimate nodes config) /\
     (0 < sampleLimit config ->
      forall node,
        nodeGathers estimate config node
        = wholeBatches (sampleLimit config) [] (nodeBatches estimate config node))).
Proof.
  split.
  - intros server. rewrite <- visitedStandalone_batches.
    destruct (scanStandalone_finish estimate server config) as (a & m & e & _ & ->).
    apply finish_cutToLimit.
  - intros nodes. split.
    + assert (Hall : concat (map (nodeGathers estimate config) nodes)
                     = visitedCluster estimate nodes config).
      { unfold visitedCluster. f_equal. apply map_ext. intros node.
        symmetry. apply visitedNode_batches. }
      rewrite Hall.
      destruct (scanCluster_finish estimate nodes config) as (a & m & e & _ & ->).
      apply finish_cutToLimit.
    + intros Hpos node. by apply nodeGathers_positive.
Qed.

Lemma scan_respects_sample_limit_witness :
  let estimate := estimateKeySize floorScaledExact in
  let r := scanStandalone estimate staleServer cfgDefault in
  0 <= sampleLimit cfgDefault /\
  0 < sampleLimit cfgDefault /\
  Z.of_nat (length (sr_keys r)) = sampled (stats r) /\
  sampled (stats r) = 2 /\
  nodeGathers estimate cfgDefault twoKeyNode
  = wholeBatches (sampleLimit cfgDefault) [] (nodeBatches estimate cfgDefault twoKeyNode).
Proof.
  intros estimate r.
  assert (Hl : 0 <= sampleLimit cfgDefault) by (vm_compute; discriminate).
  assert (Hpos : 0 < sampleLimit cfgDefault) by (vm_compute; reflexivity).
  split; [exact Hl|]. split; [exact Hpos|]. split; [|split; [reflexivity|]].
  - exact (proj2 (proj2 (proj2 (proj2 (proj1 (scan_respects_sample_limit
             estimate cfgDefault) staleServer))) Hl)).
  - exact (proj2 (proj2 (scan_respects_sample_limit estimate cfgDefault) [twoKeyNode])
             Hpos twoKeyNode).
Defined.

(** * The merge on shared objects, verified *)

Module SharedFacts.
Import Shared.

(** ** Reading and writing *)

Lemma readHist_write_eq l v h : readHist (writeHist l v h) l = v.
Proof. unfold readHist, writeHist. simpl. by rewrite lookup_insert_eq. Qed.

Lemma readHist_write_ne l l' v h : l <> l' -> readHist (writeHist l v h) l' = readHist h l'.
Proof. intros Hne. unfold readHist, writeHist. simpl. by rewrite lookup_insert_ne. Qed.

Lemma readHist_writeBreakdown l l' v h : readHist (writeBreakdown l v h) l' = readHist h l'.
Proof. done. Qed.

Lemma readBreakdown_writeHist l l' v h : readBreakdown (writeHist l v h) l' = readBreakdown h l'.
Proof. done. Qed.

Lemma readBreakdown_write_eq l v h : readBreakdown (writeBreakdown l v h) l = v.
Proof. unfold readBreakdown, writeBreakdown. simpl. by rewrite lookup_insert_eq. Qed.

Lemma readBreakdown_write_ne l l' v h :
  l <> l' -> readBreakdown (writeBreakdown l v h) l' = readBreakdown h l'.
Proof. intros Hne. unfold readBreakdown, writeBreakdown. simpl. by rewrite lookup_insert_ne. Qed.

(** A record that shares nothing with [existing] reads the same after the
    merge into [existing]. *)
Lemma readPrefix_untouched h existing p o :
  untouched o existing ->
  readPrefix (mergedHeap h existing p) o = readPrefix h o.
Proof.
  intros (H1 & H2 & H3 & H4 & H5). unfold mergedHeap, readPrefix. simpl.
  rewrite !readHist_writeBreakdown, !readBreakdown_write_ne by done.
  rewrite !readBreakdown_writeHist.
  rewrite !(readHist_write_ne (o_idleHist existing)) by done.
  rewrite !(readHist_write_ne (o_ttlHist existing)) by done.
  done.
Qed.

(** When [existing] has two histogram objects and shares nothing with [p],
    the merged record reads as the merge of the two values. *)
Lemma readPrefix_merged h existing p :
  o_ttlHist existing <> o_idleHist existing ->
  untouched p existing ->
  readPrefix (mergedHeap h existing p) (mergedRecord existing p)
  = mergeInto (readPrefix h existing) (readPrefix h p).
Proof.
  intros Hne (H1 & H2 & H3 & H4 & H5). unfold mergedHeap, readPrefix, mergeInto. simpl.
  rewrite !readHist_writeBreakdown, readBreakdown_write_eq, !readBreakdown_writeHist.
  rewrite readHist_write_eq.
  rewrite !(readHist_write_ne (o_idleHist existing) (o_ttlHist existing)) by done.
  rewrite readHist_write_eq.
  rewrite !(readHist_write_ne (o_ttlHist existing) (o_idleHist existing)) by done.
  rewrite !(readHist_write_ne (o_ttlHist existing) (o_idleHist p)) by done.
  done.
Qed.

(** ** What separate records give *)

Lemma histRefs_app A B : histRefs (A ++ B) = (histRefs A ++ histRefs B)%list.
Proof. unfold histRefs. apply flat_map_app. Qed.

Lemma typeRefs_app A B : typeRefs (A ++ B) = (typeRefs A ++ typeRefs B)%list.
Proof. unfold typeRefs. apply map_app. Qed.

Lemma elem_of_histRefs o l :
  o ∈ l -> o_ttlHist o ∈ histRefs l /\ o_idleHist o ∈ histRefs l.
Proof.
  induction 1 as [o l|o o' l _ IH]; simpl.
  - split; [apply list_elem_of_here|apply list_elem_of_further, list_elem_of_here].
  - destruct IH. split; by do 2 apply list_elem_of_further.
Qed.

Lemma elem_of_typeRefs o l : o ∈ l -> o_byType o ∈ typeRefs l.
Proof. intros H. unfold typeRefs. by apply list_elem_of_fmap_2. Qed.

Lemma separate_at A e B :
  separate (A ++ e :: B) ->
  o_ttlHist e <> o_idleHist e /\ forall o, o ∈ (A ++ B)%list -> untouched o e.
Proof.
  intros [Hh Ht].
  rewrite histRefs_app in Hh. simpl in Hh.
  rewrite typeRefs_app in Ht. simpl in Ht.
  apply NoDup_app in Hh as (_ & HA & HeB).
  apply NoDup_cons in HeB as [Hte HeB]. apply NoDup_cons in HeB as [Hie _].
  apply NoDup_app in Ht as (_ & HtA & HtB). apply NoDup_cons in HtB as [HtB _].
  split.
  - intros Heq. apply Hte. rewrite Heq. apply list_elem_of_here.
  - intros o [Ho|Ho]%elem_of_app.
    + destruct (elem_of_histRefs o A Ho) as [Hot Hoi].
      pose proof (HA _ Hot) as Hot'. pose proof (HA _ Hoi) as Hoi'.
      pose proof (HtA _ (elem_of_typeRefs o A Ho)) as Hoty.
      apply not_elem_of_cons in Hot' as [? Hot']. apply not_elem_of_cons in Hot' as [? _].
      apply not_elem_of_cons in Hoi' as [? Hoi']. apply not_elem_of_cons in Hoi' as [? _].
      apply not_elem_of_cons in Hoty as [? _].
      unfold untouched. done.
    + destruct (elem_of_histRefs o B Ho) as [Hot Hoi].
      pose proof (elem_of_typeRefs o B Ho) as Hoty.
      apply not_elem_of_cons in Hte as [_ Hte].
      unfold untouched. split_and!; intros Heq.
      * apply Hte. by rewrite <- Heq.
      * apply Hie. by rewrite <- Heq.
      * apply Hte. by rewrite <- Heq.
      * apply Hie. by rewrite <- Heq.
      * apply HtB. by rewrite <- Heq.
Qed.

Lemma separate_replace A e e' B :
  o_ttlHist e' = o_ttlHist e -> o_idleHist e' = o_idleHist e -> o_byType e' = o_byType e ->
  separate (A ++ e :: B) -> separate (A ++ e' :: B).
Proof.
  intros H1 H2 H3. unfold separate.
  rewrite !histRefs_app, !typeRefs_app. simpl. by rewrite H1, H2, H3.
Qed.

Lemma separate_drop A p B : separate (A ++ p :: B) -> separate (A ++ B).
Proof.
  intros [Hh Ht]. split.
  - eapply sublist_NoDup; [exact Hh|]. rewrite !histRefs_app.
    apply sublist_app; [done|]. simpl. by do 2 apply sublist_cons.
  - eapply sublist_NoDup; [exact Ht|]. rewrite !typeRefs_app.
    apply sublist_app; [done|]. simpl. by apply sublist_cons.
Qed.

(** ** The merge on separate records is the merge on values *)

Lemma readEntries_get h pm k :
  OMap.get k (readEntries h pm) = readPrefix h <$> OMap.get k pm.
Proof.
  induction pm as [|[k' v] pm IH]; simpl; [done|].
  by destruct (String.eqb k' k).
Qed.

Lemma readEntries_set h pm k v :
  readEntries h (OMap.set k v pm) = OMap.set k (readPrefix h v) (readEntries h pm).
Proof.
  induction pm as [|[k' v'] pm IH]; simpl; [done|].
  destruct (String.eqb k' k); simpl; [done|]. by rewrite IH.
Qed.

Lemma readEntries_values h pm :
  OMap.values (readEntries h pm) = map (readPrefix h) (OMap.values pm).
Proof. unfold OMap.values, readEntries. by rewrite !map_map. Qed.

Lemma readEntries_ext h h' pm :
  (forall o, o ∈ OMap.values pm -> readPrefix h' o = readPrefix h o) ->
  readEntries h' pm = readEntries h pm.
Proof.
  induction pm as [|[k v] pm IH]; simpl; [done|].
  intros Hall. rewrite (Hall v) by apply list_elem_of_here.
  rewrite IH; [done|]. intros o Ho. apply Hall. by apply list_elem_of_further.
Qed.

Lemma get_split {V : Type} (pm : list (string * V)) k e :
  OMap.get k pm = Some e ->
  exists pre post, pm = (pre ++ (k, e) :: post)%list /\ OMap.get k pre = None.
Proof.
  induction pm as [|[k' v'] pm IH]; simpl; [done|].
  destruct (String.eqb_spec k' k) as [->|Hne].
  - intros [= ->]. by exists [], pm.
  - intros Hget. destruct (IH Hget) as (pre & post & -> & Hpre).
    exists ((k', v') :: pre), post. split; [done|].
    simpl. by destruct (String.eqb_spec k' k).
Qed.

Lemma set_at {V : Type} (pre post : list (string * V)) k e v :
  OMap.get k pre = None ->
  OMap.set k v (pre ++ (k, e) :: post) = (pre ++ (k, v) :: post)%list.
Proof.
  induction pre as [|[k' v'] pre IH]; simpl.
  - by rewrite String.eqb_refl.
  - destruct (String.eqb_spec k' k); [done|]. intros H. by rewrite IH.
Qed.

Lemma readEntries_app h a b :
  readEntries h (a ++ b) = (readEntries h a ++ readEntries h b)%list.
Proof. unfold readEntries. apply map_app. Qed.

Lemma values_app {V : Type} (a b : list (string * V)) :
  OMap.values (a ++ b) = (OMap.values a ++ OMap.values b)%list.
Proof. unfold OMap.values. apply map_app. Qed.

Lemma mergePrefixObj_exact h0 h pm p ps :
  separate (OMap.values pm ++ p :: ps) ->
  (forall o, o ∈ p :: ps -> readPrefix h o = readPrefix h0 o) ->
  let st := mergePrefixObj (h, pm) p in
  separate (OMap.values st.2 ++ ps) /\
  (forall o, o ∈ ps -> readPrefix st.1 o = readPrefix h0 o) /\
  readEntries st.1 st.2 = mergePrefix (readEntries h pm) (readPrefix h0 p).
Proof.
  intros Hsep Hrest. unfold mergePrefixObj, mergePrefix. cbn [fst snd prefix readPrefix].
  rewrite readEntries_get.
  destruct (OMap.get (o_prefix p) pm) as [e|] eqn:Hget; cbn [fmap option_fmap option_map fst snd].
  - destruct (get_split pm (o_prefix p) e Hget) as (pre & post & -> & Hpre).
    rewrite set_at by done. rewrite !values_app in *. cbn [OMap.values map snd] in *.
    rewrite <- app_assoc in Hsep. cbn [app] in Hsep.
    destruct (separate_at _ _ _ Hsep) as [Hne Hunt].
    assert (Hp : untouched p e).
    { apply Hunt. rewrite !elem_of_app. right. right. apply list_elem_of_here. }
    split_and!.
    + rewrite <- app_assoc. cbn [app].
      apply (separate_replace _ e); [done..|].
      rewrite app_comm_cons, app_assoc in Hsep. apply separate_drop in Hsep.
      by rewrite <- app_assoc in Hsep.
    + intros o Ho. rewrite readPrefix_untouched.
      * apply Hrest. by apply list_elem_of_further.
      * apply Hunt. rewrite !elem_of_app. right. right. by apply list_elem_of_further.
    + rewrite !readEntries_app. cbn [readEntries map fst snd].
      fold (readEntries (mergedHeap h e p) post). fold (readEntries h post).
      rewrite set_at by (by rewrite readEntries_get, Hpre).
      rewrite readPrefix_merged by done.
      rewrite (Hrest p) by apply list_elem_of_here.
      rewrite !(readEntries_ext h (mergedHeap h e p)); [done| |].
      * intros o Ho. apply readPrefix_untouched, Hunt.
        rewrite !elem_of_app. right. by left.
      * intros o Ho. apply readPrefix_untouched, Hunt.
        rewrite !elem_of_app. by left.
  - split_and!.
    + rewrite OMapFacts.set_fresh by done. rewrite values_app. cbn [OMap.values map snd].
      by rewrite <- app_assoc.
    + intros o Ho. apply Hrest. by apply list_elem_of_further.
    + rewrite readEntries_set. by rewrite (Hrest p) by apply list_elem_of_here.
Qed.

Lemma mergePrefixesObj_exact h0 ps h pm :
  separate (OMap.values pm ++ ps) ->
  (forall o, o ∈ ps -> readPrefix h o = readPrefix h0 o) ->
  let st := foldl mergePrefixObj (h, pm) ps in
  separate (OMap.values st.2) /\
  readEntries st.1 st.2 = foldl mergePrefix (readEntries h pm) (map (readPrefix h0) ps).
Proof.
  revert h pm. induction ps as [|p ps IH]; intros h pm Hsep Hrest.
  - simpl. by rewrite app_nil_r in Hsep.
  - destruct (mergePrefixObj_exact h0 h pm p ps Hsep Hrest) as (Hsep1 & Hrest1 & Hstep).
    cbn [foldl map]. rewrite <- Hstep.
    destruct (mergePrefixObj (h, pm) p) as [h1 pm1]. by apply IH.
Qed.

Lemma mergeStateObj_fst h rs :
  (foldl mergeStepObj (h, [], ∅) rs).1
  = foldl mergePrefixObj (h, []) (concat (map o_prefixes rs)).
Proof.
  induction rs as [|r rs IH] using rev_ind; [done|].
  rewrite foldl_snoc, map_app, concat_app, foldl_app. simpl.
  rewrite app_nil_r, <- IH.
  by destruct (foldl mergeStepObj (h, [], ∅) rs).
Qed.

Lemma mergeStateObj_snd h rs :
  (foldl mergeStepObj (h, [], ∅) rs).2 = foldl mergeTopN ∅ (map o_topN rs).
Proof.
  induction rs as [|r rs IH] using rev_ind; [done|].
  rewrite foldl_snoc, map_app, foldl_app. simpl. rewrite <- IH.
  by destruct (foldl mergeStepObj (h, [], ∅) rs).
Qed.

Lemma mergeState_fst rs :
  (mergeState rs).1 = foldl mergePrefix [] (concat (map prefixes rs)).
Proof.
  induction rs as [|r rs IH] using rev_ind; [done|].
  rewrite mergeState_snoc, map_app, concat_app, foldl_app. simpl.
  by rewrite app_nil_r, <- IH.
Qed.

Lemma mergeState_snd rs : (mergeState rs).2 = foldl mergeTopN ∅ (map topN rs).
Proof.
  induction rs as [|r rs IH] using rev_ind; [done|].
  rewrite mergeState_snoc, map_app, foldl_app. simpl. by rewrite <- IH.
Qed.

Lemma sortInsertObj_read h x l :
  map (readPrefix h) (sortInsertObj x l) = sortInsert (readPrefix h x) (map (readPrefix h) l).
Proof.
  induction l as [|y l IH]; simpl; [done|].
  destruct (o_estBytes x <? o_estBytes y); simpl; [by rewrite IH|done].
Qed.

Lemma sortObj_read h l :
  map (readPrefix h) (foldr sortInsertObj [] l) = sortByEstBytes (map (readPrefix h) l).
Proof.
  induction l as [|x l IH]; simpl; [done|].
  rewrite sortInsertObj_read, IH. done.
Qed.

Lemma mergeAggregationsObj_unfold h rs :
  mergeAggregationsObj h rs =
  ((foldl mergePrefixObj (h, []) (concat (map o_prefixes rs))).1,
   {| o_prefixes :=
        foldr sortInsertObj []
          (OMap.values (foldl mergePrefixObj (h, []) (concat (map o_prefixes rs))).2);
      o_topN := foldl mergeTopN ∅ (map o_topN rs) |}).
Proof.
  unfold mergeAggregationsObj.
  rewrite <- (mergeStateObj_fst h rs), <- (mergeStateObj_snd h rs).
  by destruct (foldl mergeStepObj (h, [], ∅) rs) as [[h1 pm] tm].
Qed.

Lemma readResult_prefixes h rs :
  concat (map prefixes (map (readResult h) rs))
  = map (readPrefix h) (concat (map o_prefixes rs)).
Proof.
  induction rs as [|r rs IH]; simpl; [done|].
  by rewrite map_app, IH.
Qed.

(** On inputs that share no object, the merge on the heap returns the
    very result of the merge on values. *)
Theorem mergeAggregationsObj_exact h rs :
  separate (concat (map o_prefixes rs)) ->
  readResult (mergeAggregationsObj h rs).1 (mergeAggregationsObj h rs).2
  = mergeAggregations (map (readResult h) rs).
Proof.
  intros Hsep.
  rewrite mergeAggregationsObj_unfold, mergeAggregations_unfold.
  rewrite mergeState_fst, mergeState_snd, readResult_prefixes.
  destruct (mergePrefixesObj_exact h (concat (map o_prefixes rs)) h [] Hsep)
    as [_ Hread]; [done|].
  unfold readResult. cbn [fst snd o_prefixes o_topN].
  rewrite sortObj_read, <- readEntries_values, Hread.
  by rewrite !map_map.
Qed.

(** ** Inputs that share objects *)

(** The two shards share nothing: on them the merge on the heap is the
    merge on values. *)
Lemma shards_are_separate :
  separate (concat (map o_prefixes [objA; objB])) /\
  readResult (mergeAggregationsObj heap0 [objA; objB]).1
             (mergeAggregationsObj heap0 [objA; objB]).2
  = mergeAggregations [readResult heap0 objA; readResult heap0 objB].
Proof.
  assert (Hsep : separate (concat (map o_prefixes [objA; objB]))).
  { split; simpl; apply (bool_decide_unpack _); by vm_compute. }
  split; [exact Hsep|]. exact (mergeAggregationsObj_exact heap0 [objA; objB] Hsep).
Qed.

(** The merge is right, and it has changed its first input: the shard
    [objA] still says one key and now has two in its histograms. *)
Lemma merge_changes_first_input :
  let '(h1, r) := mergeAggregationsObj heap0 [objA; objB] in
  summary (readResult heap0 objA) = [("x", 1, 1, 1)] /\
  summary (readResult h1 r) = [("x", 2, 2, 2)] /\
  summary (readResult h1 objA) = [("x", 1, 2, 2)] /\
  summary (readResult h1 objB) = [("x", 1, 1, 1)].
Proof. vm_compute. done. Qed.

(** The same object twice among the inputs: the count is 3 and the
    histograms hold 4, where the merge on values gives 3 and 3. *)
Lemma merge_of_shared_input :
  let '(h1, r) := mergeAggregationsObj heap0 [objA; objB; objA] in
  summary (readResult h1 r) = [("x", 3, 4, 4)] /\
  summary (mergeAggregations (map (readResult heap0) [objA; objB; objA]))
  = [("x", 3, 3, 3)].
Proof. vm_compute. done. Qed.

(** The two groupings of three shards, computed one after the other on
    the same objects: the first is right when it returns, the second adds
    to histograms that the first has already filled, and both results,
    which share these histograms, end with 3 keys counted and 5 in the
    histograms. *)
Lemma groupings_in_sequence :
  let '(h1, ab) := mergeAggregationsObj heap0 [objA; objB] in
  let '(h2, grouped_left) := mergeAggregationsObj h1 [ab; objC] in
  let '(h3, bc) := mergeAggregationsObj h2 [objB; objC] in
  let '(h4, grouped_right) := mergeAggregationsObj h3 [objA; bc] in
  summary (readResult h2 grouped_left) = [("x", 3, 3, 3)] /\
  summary (readResult h4 grouped_right) = [("x", 3, 5, 5)] /\
  summary (readResult h4 grouped_left) = [("x", 3, 5, 5)].
Proof. vm_compute. done. Qed.

End SharedFacts.

(** * More of the code, verified *)

(** ** Cutting and joining strings *)

Lemma str_app_String c a b : String c a +:+ b = String c (a +:+ b).
Proof. done. Qed.

Lemma str_app_nil_r s : s +:+ "" = s.
Proof. induction s as [|c s IH]; [done|]. by rewrite str_app_String, IH. Qed.

Lemma str_app_assoc a b c : (a +:+ b) +:+ c = a +:+ (b +:+ c).
Proof. induction a as [|x a IH]; [done|]. by rewrite !str_app_String, IH. Qed.

Lemma str_app_cons c s : String c s = String c "" +:+ s.
Proof. done. Qed.

Lemma str_length_app a b : String.length (a +:+ b) = (String.length a + String.length b)%nat.
Proof.
  induction a as [|x a IH]; [done|].
  rewrite str_app_String. cbn [String.length]. by rewrite IH.
Qed.

Lemma startsWith_app d rest : startsWith d (d +:+ rest) = true.
Proof.
  induction d as [|c d IH]; [by destruct rest|].
  rewrite str_app_String. cbn [startsWith]. by rewrite Ascii.eqb_refl.
Qed.

Lemma startsWith_inv d s : startsWith d s = true -> exists rest, s = d +:+ rest.
Proof.
  revert s. induction d as [|c d IH]; intros s Hs.
  - by exists s.
  - destruct s as [|c' s]; [done|]. cbn [startsWith] in Hs.
    destruct (Ascii.eqb_spec c c') as [->|]; [|done].
    destruct (IH s Hs) as [rest ->]. by exists rest.
Qed.

Lemma split_go_skip d t cur rest :
  split_go d (String.length t) cur (t +:+ rest) = split_go d 0 cur rest.
Proof.
  induction t as [|c t IH]; [done|].
  rewrite str_app_String. cbn [String.length split_go]. apply IH.
Qed.

Lemma split_go_not_nil d skip cur s : split_go d skip cur s <> [].
Proof.
  revert skip cur. induction s as [|c s IH]; intros skip cur; [done|].
  cbn [split_go]. destruct skip; [|apply IH].
  destruct (startsWith d (String c s)); [done|apply IH].
Qed.

Lemma join_cons d p l : l <> [] -> join d (p :: l) = p +:+ d +:+ join d l.
Proof. by destruct l. Qed.

(** Cutting a string at a separator and joining the segments with the
    separator gives the string back. *)
Lemma split_go_join d n :
  d <> "" ->
  forall cur s, (String.length s <= n)%nat -> join d (split_go d 0 cur s) = cur +:+ s.
Proof.
  intros Hd. induction n as [|n IH]; intros cur s Hn.
  - destruct s; [|simpl in Hn; lia]. simpl. by rewrite str_app_nil_r.
  - destruct s as [|c s]; [simpl; by rewrite str_app_nil_r|].
    cbn [split_go].
    destruct (startsWith d (String c s)) eqn:Hstart.
    + destruct (startsWith_inv _ _ Hstart) as [rest Hrest].
      destruct d as [|c0 d0]; [done|].
      rewrite str_app_String in Hrest. injection Hrest as <- ->.
      replace (String.length (String c d0) - 1)%nat with (String.length d0)
        by (cbn [String.length]; lia).
      rewrite split_go_skip.
      rewrite join_cons by apply split_go_not_nil.
      rewrite IH; [done|].
      cbn [String.length] in Hn. rewrite str_length_app in Hn. lia.
    + rewrite IH by (cbn [String.length] in Hn; lia).
      by rewrite str_app_assoc.
Qed.

Lemma split_chars_join s : join "" (split_chars s) = s.
Proof.
  induction s as [|c s IH]; [done|].
  cbn [split_chars]. destruct (split_chars s) as [|p l] eqn:Hs.
  - destruct s; [done|discriminate].
  - rewrite join_cons by done. by rewrite IH.
Qed.

Lemma split_join s d : join d (split s d) = s.
Proof.
  unfold split. destruct d as [|c d]; [apply split_chars_join|].
  by rewrite (split_go_join _ (String.length s)).
Qed.

(** ** The prefixes of a key *)

Lemma join_app d l1 l2 :
  l1 <> [] -> l2 <> [] -> join d (l1 ++ l2) = join d l1 +:+ d +:+ join d l2.
Proof.
  induction l1 as [|p l1 IH]; [done|]. intros _ Hl2.
  destruct l1 as [|q l1].
  - simpl app. by rewrite join_cons.
  - rewrite <- app_comm_cons, join_cons by done.
    rewrite IH by done. rewrite (join_cons d p (q :: l1)) by done.
    by rewrite !str_app_assoc.
Qed.

Lemma extractPrefixes_length k delimiter maxLevels :
  length (extractPrefixes k delimiter maxLevels) = Nat.min (segments k delimiter) maxLevels.
Proof. unfold extractPrefixes, segments. by rewrite length_map, length_seq. Qed.

Lemma extractPrefixes_elem k delimiter maxLevels p :
  p ∈ extractPrefixes k delimiter maxLevels <->
  exists i, (1 <= i <= Nat.min (segments k delimiter) maxLevels)%nat /\
            p = join delimiter (take i (split k delimiter)).
Proof.
  unfold extractPrefixes, segments. rewrite list_elem_of_fmap. split.
  - intros (i & -> & Hi). exists i. split; [|done].
    apply elem_of_seq in Hi. lia.
  - intros (i & Hi & ->). exists i. split; [done|]. apply elem_of_seq. lia.
Qed.

(** Every prefix of a key is the key itself or is followed in the key by
    the delimiter. *)
Lemma extractPrefixes_initial k delimiter maxLevels p :
  p ∈ extractPrefixes k delimiter maxLevels ->
  p = k \/ exists rest, k = p +:+ delimiter +:+ rest.
Proof.
  intros (i & Hi & ->)%extractPrefixes_elem. unfold segments in Hi.
  pose proof (split_join k delimiter) as Hk.
  remember (split k delimiter) as parts eqn:Hparts. clear Hparts. subst k.
  destruct (drop i parts) as [|q rest] eqn:Hdrop.
  - left. rewrite <- (take_drop i parts) at 2. by rewrite Hdrop, app_nil_r.
  - right. exists (join delimiter (q :: rest)).
    rewrite <- (take_drop i parts) at 1. rewrite Hdrop.
    apply join_app; [|done].
    intros Htake. apply (f_equal length) in Htake. rewrite length_take in Htake.
    simpl in Htake. lia.
Qed.

Lemma extractPrefixes_startsWith k delimiter maxLevels p :
  p ∈ extractPrefixes k delimiter maxLevels -> startsWith p k = true.
Proof.
  intros [->|[rest ->]]%extractPrefixes_initial.
  - rewrite <- (str_app_nil_r k) at 2. apply startsWith_app.
  - apply startsWith_app.
Qed.

(** A key of at most [maxLevels] segments is its own last prefix. *)
Lemma extractPrefixes_last k delimiter maxLevels :
  (1 <= segments k delimiter <= maxLevels)%nat ->
  last (extractPrefixes k delimiter maxLevels) = Some k.
Proof.
  intros Hseg. unfold extractPrefixes. fold (segments k delimiter).
  rewrite Nat.min_l by lia.
  destruct (segments k delimiter) as [|n] eqn:Hn; [lia|].
  rewrite seq_S, map_app. cbn [map]. rewrite last_snoc. f_equal. simpl Nat.add.
  rewrite firstn_all2 by (unfold segments in Hn; lia).
  apply split_join.
Qed.

Lemma split_chars_nonempty s : Forall (fun p => String.length p = 1%nat) (split_chars s).
Proof. induction s as [|c s IH]; simpl; by constructor. Qed.

(** Each segment after the first makes the joined string longer: by the
    delimiter, or, when the delimiter is empty, by its one byte. *)
Lemma split_grows k delimiter i q :
  split k delimiter !! i = Some q -> (1 <= String.length delimiter + String.length q)%nat.
Proof.
  unfold split. destruct delimiter as [|c d]; [|simpl; lia].
  intros Hq. pose proof (split_chars_nonempty k) as Hall.
  rewrite Forall_lookup in Hall. rewrite (Hall _ _ Hq). lia.
Qed.

Lemma join_take_S d parts i q :
  (1 <= i)%nat -> parts !! i = Some q ->
  join d (take (S i) parts) = join d (take i parts) +:+ d +:+ q.
Proof.
  intros Hi Hq. rewrite (take_S_r _ _ _ Hq).
  apply (join_app d (take i parts) [q]); [|done].
  intros Htake. apply (f_equal length) in Htake. rewrite length_take in Htake.
  apply lookup_lt_Some in Hq. simpl in Htake. lia.
Qed.

Lemma prefix_lengths_increase k delimiter i j :
  (1 <= i < j)%nat -> (j <= segments k delimiter)%nat ->
  (String.length (join delimiter (take i (split k delimiter)))
   < String.length (join delimiter (take j (split k delimiter))))%nat.
Proof.
  unfold segments. intros Hij Hj. induction j as [|j IH]; [lia|].
  destruct (lookup_lt_is_Some_2 (split k delimiter) j) as [q Hq]; [lia|].
  assert (H1 : (1 <= j)%nat) by lia.
  rewrite (join_take_S delimiter _ j q H1 Hq), !str_length_app.
  pose proof (split_grows _ _ _ _ Hq).
  destruct (decide (i = j)) as [->|]; [lia|].
  assert (String.length (join delimiter (take i (split k delimiter)))
          < String.length (join delimiter (take j (split k delimiter))))%nat
    by (apply IH; lia).
  lia.
Qed.

(** The prefixes of a key are pairwise different. *)
Lemma extractPrefixes_NoDup k delimiter maxLevels :
  NoDup (extractPrefixes k delimiter maxLevels).
Proof.
  unfold extractPrefixes. apply NoDup_fmap_2_strong; [|apply NoDup_seq].
  intros i j Hi Hj Heq. apply elem_of_seq in Hi, Hj.
  apply (f_equal String.length) in Heq.
  destruct (Nat.lt_trichotomy i j) as [Hlt|[->|Hgt]]; [|done|].
  - pose proof (prefix_lengths_increase k delimiter i j). unfold segments in *. lia.
  - pose proof (prefix_lengths_increase k delimiter j i). unfold segments in *. lia.
Qed.

(** X1. [extractPrefixes] returns [min(segments, maxLevels)] prefixes, all
    different, each an initial part of the key that ends where the key
    ends or where a delimiter begins; a key of at most [maxLevels]
    segments is the last of its own prefixes. *)
Theorem extractPrefixes_spec k delimiter maxLevels :
  length (extractPrefixes k delimiter maxLevels) = Nat.min (segments k delimiter) maxLevels /\
  NoDup (extractPrefixes k delimiter maxLevels) /\
  (forall p, p ∈ extractPrefixes k delimiter maxLevels ->
     startsWith p k = true /\ (p = k \/ exists rest, k = p +:+ delimiter +:+ rest)) /\
  ((1 <= segments k delimiter <= maxLevels)%nat ->
   last (extractPrefixes k delimiter maxLevels) = Some k).
Proof.
  split_and!.
  - apply extractPrefixes_length.
  - apply extractPrefixes_NoDup.
  - intros p Hp. split; [by eapply extractPrefixes_startsWith|by eapply extractPrefixes_initial].
  - apply extractPrefixes_last.
Qed.

Lemma extractPrefixes_spec_witness :
  "app:user" ∈ extractPrefixes "app:user:42:name" ":" 3 /\
  startsWith "app:user" "app:user:42:name" = true.
Proof.
  assert (H : "app:user" ∈ extractPrefixes "app:user:42:name" ":" 3).
  { apply list_elem_of_lookup. by exists 1%nat. }
  split; [exact H|].
  exact (proj1 (proj1 (proj2 (proj2 (extractPrefixes_spec "app:user:42:name" ":" 3)))
                  "app:user" H)).
Defined.

(** ** What a prefix aggregate holds *)

Lemma touchPrefix_get k config pm p q :
  OMap.get q (touchPrefix k config pm p) =
  if decide (p = q)
  then Some (updatePrefixAgg (default (createEmptyPrefixAgg p) (OMap.get p pm)) k config)
  else OMap.get q pm.
Proof.
  unfold touchPrefix, OMap.has.
  destruct (OMap.get p pm) as [a|] eqn:Hget.
  - rewrite Hget. destruct (decide (p = q)) as [<-|Hne].
    + by rewrite OMapFacts.get_set_eq.
    + by rewrite OMapFacts.get_set_ne.
  - rewrite OMapFacts.get_set_eq. destruct (decide (p = q)) as [<-|Hne].
    + by rewrite OMapFacts.get_set_eq.
    + by rewrite !OMapFacts.get_set_ne.
Qed.

Lemma touchPrefixes_get k config ps pm q :
  NoDup ps ->
  OMap.get q (foldl (touchPrefix k config) pm ps) =
  if decide (q ∈ ps)
  then Some (updatePrefixAgg (default (createEmptyPrefixAgg q) (OMap.get q pm)) k config)
  else OMap.get q pm.
Proof.
  revert pm. induction ps as [|p ps IH]; intros pm Hnd.
  - simpl. destruct (decide (q ∈ [])) as [Hin|]; [by apply elem_of_nil in Hin|done].
  - apply NoDup_cons in Hnd as [Hp Hnd]. simpl. rewrite IH by done.
    rewrite touchPrefix_get.
    destruct (decide (p = q)) as [<-|Hne].
    + destruct (decide (p ∈ ps)); [done|].
      destruct (decide (p ∈ p :: ps)) as [|Hn]; [done|].
      exfalso. apply Hn, list_elem_of_here.
    + destruct (decide (q ∈ ps)) as [Hin|Hnin].
      * destruct (decide (q ∈ p :: ps)) as [|Hn]; [done|].
        exfalso. by apply Hn, list_elem_of_further.
      * destruct (decide (q ∈ p :: ps)) as [Hin|]; [|done].
        apply elem_of_cons in Hin as [->|]; done.
Qed.

(** The aggregate under a name is [updatePrefixAgg] applied, from the empty
    aggregate, to the keys that carry the prefix, in the order of the
    input; a name that no key carries has no aggregate. *)
Lemma aggregateState_get keys config delimiter q :
  OMap.get q (aggregateState keys config delimiter).1 =
  match carriers delimiter q keys with
  | [] => None
  | ks => Some (foldKeys config (createEmptyPrefixAgg q) ks)
  end.
Proof.
  induction keys as [|k keys IH] using rev_ind; [done|].
  rewrite aggregateState_snoc, aggregateStep_fst.
  rewrite touchPrefixes_get by apply extractPrefixes_NoDup.
  unfold carriers in *. rewrite filter_app, IH. simpl.
  rewrite filter_cons, filter_nil. fold (carries delimiter q k).
  destruct (decide (carries delimiter q k)) as [Hc|Hc].
  - destruct (decide (q ∈ extractPrefixes (key k) delimiter 3)); [|done].
    destruct (filter (carries delimiter q) keys) as [|k0 ks] eqn:Hks; simpl; [done|].
    f_equal. unfold foldKeys. by rewrite foldl_snoc.
  - destruct (decide (q ∈ extractPrefixes (key k) delimiter 3)); [done|].
    by rewrite app_nil_r.
Qed.

Lemma get_of_elem {V : Type} (pm : list (string * V)) k v :
  NoDup (map fst pm) -> (k, v) ∈ pm -> OMap.get k pm = Some v.
Proof.
  induction pm as [|[k' v'] pm IH]; intros Hnd Hin; [by apply elem_of_nil in Hin|].
  apply NoDup_cons in Hnd as [Hk Hnd]. simpl.
  apply elem_of_cons in Hin as [[= -> ->]|Hin].
  - by rewrite String.eqb_refl.
  - destruct (String.eqb_spec k' k) as [->|]; [|by apply IH].
    exfalso. apply Hk. apply list_elem_of_fmap. by exists (k, v).
Qed.

Lemma tidy_get pm a : tidy pm -> a ∈ OMap.values pm -> OMap.get (prefix a) pm = Some a.
Proof.
  intros [Hnd Hk] Hin. unfold OMap.values in Hin.
  apply list_elem_of_fmap in Hin as ([k v] & -> & Hin). simpl.
  unfold keyed in Hk. rewrite Forall_forall in Hk.
  pose proof (Hk _ Hin) as Hkv. simpl in Hkv. rewrite Hkv.
  by apply get_of_elem.
Qed.

Lemma get_values {V : Type} (pm : list (string * V)) k v :
  OMap.get k pm = Some v -> v ∈ OMap.values pm.
Proof.
  unfold OMap.values. induction pm as [|[k' v'] pm IH]; simpl; [done|].
  destruct (String.eqb k' k).
  - intros [= ->]. apply list_elem_of_here.
  - intros H. by apply list_elem_of_further, IH.
Qed.

Lemma aggregateKeys_elem keys config delimiter agg :
  agg ∈ prefixes (aggregateKeys keys config delimiter) <->
  carriers delimiter (prefix agg) keys <> [] /\
  agg = foldKeys config (createEmptyPrefixAgg (prefix agg))
                 (carriers delimiter (prefix agg) keys).
Proof.
  rewrite aggregateKeys_unfold. simpl. rewrite sortByEstBytes_perm. split.
  - intros Hin. apply tidy_get in Hin; [|apply aggregateState_tidy].
    rewrite aggregateState_get in Hin.
    destruct (carriers delimiter (prefix agg) keys); [done|].
    injection Hin as Hin. by split.
  - intros [Hne Heq].
    apply (get_values _ (prefix agg)). rewrite aggregateState_get.
    destruct (carriers delimiter (prefix agg) keys); [done|]. by rewrite <- Heq.
Qed.

Lemma foldKeys_snoc config a ks k :
  foldKeys config a (ks ++ [k]) = updatePrefixAgg (foldKeys config a ks) k config.
Proof. unfold foldKeys. by rewrite foldl_snoc. Qed.

Lemma countKeys_snoc test ks k :
  countKeys test (ks ++ [k]) = countKeys test ks + (if test k then 1 else 0).
Proof.
  unfold countKeys. rewrite filter_app, length_app, filter_cons, filter_nil.
  destruct (test k); simpl.
  - destruct (decide (true = true)); [simpl; lia|done].
  - destruct (decide (false = true)); [done|simpl; lia].
Qed.

Lemma sumKnownBytes_snoc ks k : sumKnownBytes (ks ++ [k]) = sumKnownBytes ks + knownBytes k.
Proof.
  unfold sumKnownBytes. induction ks as [|k0 ks IH]; simpl; [lia|].
  rewrite IH. lia.
Qed.

Lemma histAt_histAdd label n h l :
  histAt l (histAdd label n h) = histAt l h + (if decide (label = l) then n else 0).
Proof.
  unfold histAt. rewrite histAdd_lookup.
  destruct (decide (label = l)) as [->|]; simpl; lia.
Qed.

(** The fields of the fold, read off the keys that went in. *)
Lemma foldKeys_fields config p ks :
  let a := foldKeys config (createEmptyPrefixAgg p) ks in
  prefix a = p /\
  count a = Z.of_nat (length ks) /\
  p_estBytes a = sumKnownBytes ks /\
  (forall l, histAt l (ttlHist a)
             = countKeys (fun k => String.eqb (getTTLBucketLabel (ttlMs k) (ttlBuckets config)) l) ks) /\
  (forall l, histAt l (idleHist a)
             = countKeys (fun k => match idleSec k with
                                   | Some s => String.eqb (getIdleBucketLabel s (idleBuckets config)) l
                                   | None => false
                                   end) ks) /\
  (forall ty, t_count (default noStats (byType a !! ty))
              = countKeys (fun k => String.eqb (type k) ty) ks /\
              typeBytes ty a = sumKnownBytes (filter (fun k => type k = ty) ks)).
Proof.
  induction ks as [|k ks IH] using rev_ind.
  - simpl. split_and!; try done; intros; unfold histAt; by rewrite ?lookup_empty.
  - rewrite foldKeys_snoc. destruct IH as (Hp & Hc & He & Httl & Hidle & Hty).
    set (a := foldKeys config (createEmptyPrefixAgg p) ks) in *.
    split_and!.
    + done.
    + simpl. rewrite Hc, length_app. simpl. lia.
    + simpl. rewrite He, sumKnownBytes_snoc. unfold knownBytes.
      destruct (truthy (estBytes k)); lia.
    + intros l. simpl. rewrite histAt_histAdd, Httl, countKeys_snoc.
      destruct (String.eqb_spec (getTTLBucketLabel (ttlMs k) (ttlBuckets config)) l);
        destruct (decide (getTTLBucketLabel (ttlMs k) (ttlBuckets config) = l)); done.
    + intros l. simpl. rewrite countKeys_snoc. destruct (idleSec k) as [s|].
      * rewrite histAt_histAdd, Hidle.
        destruct (String.eqb_spec (getIdleBucketLabel s (idleBuckets config)) l);
          destruct (decide (getIdleBucketLabel s (idleBuckets config) = l)); done.
      * rewrite Hidle. lia.
    + intros ty. destruct (Hty ty) as [Htc Htb]. unfold typeBytes in *. simpl.
      rewrite countKeys_snoc, filter_app, filter_cons, filter_nil.
      destruct (decide (type k = ty)) as [<-|Hne].
      * rewrite lookup_insert_eq, String.eqb_refl. simpl.
        change {| t_count := 0; t_estBytes := 0 |} with noStats.
        rewrite sumKnownBytes_snoc, <- Htb, <- Htc. unfold knownBytes.
        destruct (truthy (estBytes k)); split; lia.
      * rewrite lookup_insert_ne by done.
        destruct (String.eqb_spec (type k) ty); [done|].
        rewrite app_nil_r. split; [lia|done].
Qed.

(** X2. Every prefix aggregate that [aggregateKeys] returns is made of
    exactly the keys that carry its prefix: [count] is their number,
    [estBytes] the sum of their estimates that are there and not zero,
    each entry of [ttlHist] and [idleHist] the number of them with that
    label, each entry of [byType] the number and the bytes of those of
    that type.  There is at least one such key. *)
Theorem aggregateKeys_contents keys config delimiter agg :
  agg ∈ prefixes (aggregateKeys keys config delimiter) ->
  let ks := carriers delimiter (prefix agg) keys in
  ks <> [] /\
  count agg = Z.of_nat (length ks) /\
  p_estBytes agg = sumKnownBytes ks /\
  (forall l, histAt l (ttlHist agg)
             = countKeys (fun k => String.eqb (getTTLBucketLabel (ttlMs k) (ttlBuckets config)) l) ks) /\
  (forall l, histAt l (idleHist agg)
             = countKeys (fun k => match idleSec k with
                                   | Some s => String.eqb (getIdleBucketLabel s (idleBuckets config)) l
                                   | None => false
                                   end) ks) /\
  (forall ty, t_count (default noStats (byType agg !! ty))
              = countKeys (fun k => String.eqb (type k) ty) ks /\
              typeBytes ty agg = sumKnownBytes (filter (fun k => type k = ty) ks)).
Proof.
  intros [Hne Heq]%aggregateKeys_elem ks. split; [done|].
  destruct (foldKeys_fields config (prefix agg) ks) as (_ & H).
  fold ks in Heq. by rewrite <- Heq in H.
Qed.

Lemma aggregateKeys_contents_witness :
  let agg :=
    updatePrefixAgg (updatePrefixAgg (createEmptyPrefixAgg "a") keyA1 cfgDefault)
                    keyA2 cfgDefault in
  agg ∈ prefixes (aggregateKeys [keyA1; keyA2] cfgDefault ":") /\
  count agg = Z.of_nat (length (carriers ":" (prefix agg) [keyA1; keyA2])).
Proof.
  intros agg.
  assert (Hin : agg ∈ prefixes (aggregateKeys [keyA1; keyA2] cfgDefault ":")).
  { apply list_elem_of_lookup. exists 0%nat. vm_compute. reflexivity. }
  split; [exact Hin|].
  exact (proj1 (proj2 (aggregateKeys_contents [keyA1; keyA2] cfgDefault ":" agg Hin))).
Defined.

(** X3. The names in the result are the prefixes of the keys: each prefix
    of each key has an aggregate, and nothing else has one. *)
Theorem aggregateKeys_names keys config delimiter p :
  p ∈ map prefix (prefixes (aggregateKeys keys config delimiter)) <->
  exists k, k ∈ keys /\ p ∈ extractPrefixes (key k) delimiter 3.
Proof.
  rewrite list_elem_of_fmap. split.
  - intros (agg & -> & [Hne _]%aggregateKeys_elem).
    destruct (carriers delimiter (prefix agg) keys) as [|k ks] eqn:Hks; [done|].
    assert (Hk : k ∈ carriers delimiter (prefix agg) keys)
      by (rewrite Hks; apply list_elem_of_here).
    apply list_elem_of_filter in Hk as [Hc Hk]. by exists k.
  - intros (k & Hk & Hp).
    exists (foldKeys config (createEmptyPrefixAgg p) (carriers delimiter p keys)).
    destruct (foldKeys_fields config p (carriers delimiter p keys)) as (Hname & _).
    split; [done|]. apply aggregateKeys_elem. rewrite Hname. split; [|done].
    intros Hnil. eapply (filter_nil_not_elem_of _ _ k Hnil); done.
Qed.

Lemma aggregateKeys_names_witness :
  (exists k, k ∈ [keyA1; keyA2] /\ "a" ∈ extractPrefixes (key k) ":" 3) /\
  "a" ∈ map prefix (prefixes (aggregateKeys [keyA1; keyA2] cfgDefault ":")).
Proof.
  assert (H : exists k, k ∈ [keyA1; keyA2] /\ "a" ∈ extractPrefixes (key k) ":" 3).
  { exists keyA1. split; [apply list_elem_of_here|].
    apply list_elem_of_lookup. by exists 0%nat. }
  split; [exact H|].
  exact (proj2 (aggregateKeys_names [keyA1; keyA2] cfgDefault ":" "a") H).
Defined.

(** X4. The aggregates come sorted.  Along the list that [aggregateKeys]
    returns [estBytes] never goes up from one aggregate to the next, and
    no prefix name occurs twice. *)
Theorem aggregateKeys_sorted keys config delimiter :
  NoDup (map prefix (prefixes (aggregateKeys keys config delimiter))) /\
  descending (prefixes (aggregateKeys keys config delimiter)).
Proof. apply aggregateKeys_wellFormed. Qed.

(** ** The largest keys of a type *)

Lemma candidates_none ty keys :
  filter (fun k => type k = ty) keys = [] -> candidates ty keys = [].
Proof.
  unfold candidates. induction keys as [|k keys IH]; [done|].
  rewrite !filter_cons. destruct (decide (type k = ty)) as [Hty|Hty]; [done|].
  intros Hnil. destruct (decide (type k = ty /\ truthy (estBytes k) = true)) as [[? _]|_];
    [done|by apply IH].
Qed.

Lemma candidates_snoc ty keys k :
  candidates ty (keys ++ [k]) =
  (candidates ty keys ++
   if decide (type k = ty) then (if truthy (estBytes k) then [k] else []) else [])%list.
Proof.
  unfold candidates. rewrite filter_app, filter_cons, filter_nil.
  destruct (decide (type k = ty)) as [Hty|Hty], (truthy (estBytes k)) eqn:Hk;
    destruct (decide (type k = ty /\ _ = true)) as [[? ?]|Hn]; try done.
  by destruct Hn.
Qed.

Lemma aggregateState_topN_default keys config delimiter ty :
  (forall ty,
     (aggregateState keys config delimiter).2 !! ty =
     match filter (fun k => type k = ty) keys with
     | [] => None
     | _ => Some (insertAll (sizeTopN config) [] (candidates ty keys))
     end) ->
  default [] ((aggregateState keys config delimiter).2 !! ty)
  = insertAll (sizeTopN config) [] (candidates ty keys).
Proof.
  intros H. rewrite H.
  destruct (filter (fun k => type k = ty) keys) eqn:E; [|done].
  by rewrite (candidates_none _ _ E).
Qed.

Lemma aggregateState_topN_get keys config delimiter ty :
  (aggregateState keys config delimiter).2 !! ty =
  match filter (fun k => type k = ty) keys with
  | [] => None
  | _ => Some (insertAll (sizeTopN config) [] (candidates ty keys))
  end.
Proof.
  revert ty. induction keys as [|k keys IH] using rev_ind; intros ty; [apply lookup_empty|].
  pose proof (aggregateState_topN_default keys config delimiter (type k) IH) as Hdef.
  rewrite aggregateState_snoc, aggregateStep_snd. cbn zeta.
  rewrite candidates_snoc, filter_app, filter_cons, filter_nil.
  set (tm := (aggregateState keys config delimiter).2) in *.
  assert (Htm1 : default [] ((if decide (is_Some (tm !! type k)) then tm
                              else <[type k := []]> tm) !! type k)
                 = default [] (tm !! type k)).
  { destruct (decide (is_Some (tm !! type k))) as [|Hn]; [done|].
    rewrite lookup_insert_eq. destruct (tm !! type k) eqn:E; [|done].
    exfalso. apply Hn. by eexists. }
  rewrite Htm1, Hdef.
  destruct (decide (type k = ty)) as [<-|Hty].
  - destruct (truthy (estBytes k)).
    + rewrite lookup_insert_eq, insertAll_app. simpl.
      by destruct (filter (fun k0 => type k0 = type k) keys).
    + rewrite app_nil_r.
      destruct (decide (is_Some (tm !! type k))) as [[l Hl]|Hn].
      * rewrite Hl. rewrite Hl in Hdef. simpl in Hdef. rewrite Hdef.
        by destruct (filter (fun k0 => type k0 = type k) keys).
      * rewrite lookup_insert_eq.
        destruct (tm !! type k) eqn:E; [exfalso; apply Hn; by eexists|].
        simpl in Hdef. rewrite <- Hdef.
        by destruct (filter (fun k0 => type k0 = type k) keys).
  - rewrite !app_nil_r.
    destruct (truthy (estBytes k)); [rewrite lookup_insert_ne by done|];
      (destruct (decide (is_Some (tm !! type k))); [|rewrite lookup_insert_ne by done]);
      apply IH.
Qed.

Lemma findInsertIndex_before l k :
  Forall (fun x => sizeOf k <= sizeOf x) (take (findInsertIndex l k) l).
Proof.
  induction l as [|x l IH]; simpl; [constructor|].
  fold (sizeOf x). fold (sizeOf k).
  destruct (Z.ltb_spec (sizeOf x) (sizeOf k)); simpl; [constructor|].
  constructor; [lia|done].
Qed.

Lemma findInsertIndex_after l k :
  largestFirst l ->
  Forall (fun x => sizeOf x < sizeOf k) (drop (findInsertIndex l k) l).
Proof.
  unfold largestFirst. induction 1 as [|x l Hl IH Hx]; simpl; [constructor|].
  fold (sizeOf x). fold (sizeOf k).
  destruct (Z.ltb_spec (sizeOf x) (sizeOf k)); simpl; [|done].
  constructor; [done|]. eapply Forall_impl; [exact Hx|]. simpl. intros y Hy. lia.
Qed.

Lemma spliced_largestFirst l k :
  largestFirst l ->
  largestFirst (take (findInsertIndex l k) l ++ k :: drop (findInsertIndex l k) l).
Proof.
  intros Hl. pose proof (findInsertIndex_before l k) as Hb.
  pose proof (findInsertIndex_after l k Hl) as Ha.
  unfold largestFirst in *.
  rewrite <- (take_drop (findInsertIndex l k) l) in Hl.
  apply StronglySorted_app in Hl as (Hcross & Htake & Hdrop).
  apply StronglySorted_app_2; [|done|].
  - intros x1 x2 H1 [->|H2]%elem_of_cons; [|by apply Hcross].
    rewrite Forall_forall in Hb. by apply Hb.
  - apply StronglySorted_cons. split; [|done].
    eapply Forall_impl; [exact Ha|]. simpl. intros y Hy. lia.
Qed.

Lemma insertTopN_largestFirst l k bound :
  largestFirst l -> largestFirst (insertTopN l k bound).
Proof.
  intros Hl. pose proof (spliced_largestFirst l k Hl) as Hs.
  destruct (insertTopN_cases l k bound) as [[_ ->]|[(_ & _ & ->)|(_ & _ & ->)]];
    [done|done|].
  unfold largestFirst in *.
  rewrite <- (take_drop (Z.to_nat bound)) in Hs. by apply StronglySorted_app_1_l in Hs.
Qed.

Lemma insertTopN_keepsLargest l k bound seen :
  largestFirst l ->
  Z.of_nat (length l) <= bound ->
  keepsLargest bound l seen ->
  keepsLargest bound (insertTopN l k bound) (seen ++ [k]).
Proof.
  intros Hl Hlen Hseen.
  pose proof (findInsertIndex_before l k) as Hb.
  pose proof (findInsertIndex_after l k Hl) as Ha.
  pose proof (findInsertIndex_le l k) as Hi.
  pose proof (spliced_largestFirst l k Hl) as Hs.
  pose proof (insertTopN_length_spliced l k) as Hsl.
  pose proof (insertTopN_cases l k bound) as Hc. cbv zeta in Hc.
  rewrite Forall_forall in Hb. rewrite Forall_forall in Ha.
  set (i := findInsertIndex l k) in *.
  set (l1 := (take i l ++ k :: drop i l)%list) in *.
  assert (Hin1 : forall x, x ∈ l1 <-> x = k \/ x ∈ l).
  { intros x. unfold l1. rewrite elem_of_app, elem_of_cons.
    rewrite <- (take_drop i l) at 3. rewrite elem_of_app. tauto. }
  destruct Hc as [[Hfull ->]|[(Hlt & Hfit & ->)|(Hlt & Hcut & ->)]].
  - (* no room at the index: the list is full and holds nothing smaller *)
    assert (Hlen' : i = length l) by lia.
    intros k' [Hk'|Hk']%elem_of_app; [by apply Hseen|].
    apply list_elem_of_singleton in Hk' as ->.
    right. split; [lia|]. intros x Hx. apply Hb.
    by rewrite Hlen', firstn_all.
  - (* the key goes in and nothing goes out *)
    intros k' [Hk'|Hk']%elem_of_app.
    + destruct (Hseen k' Hk') as [Hin|[Hfull _]]; [|lia].
      left. apply Hin1. by right.
    + apply list_elem_of_singleton in Hk' as ->. left. apply Hin1. by left.
  - (* the key goes in and the last entry goes out *)
    assert (Hsplit : l1 = (take (Z.to_nat bound) l1 ++ drop (Z.to_nat bound) l1)%list)
      by (by rewrite take_drop).
    assert (Hfulllen : bound <= Z.of_nat (length (take (Z.to_nat bound) l1))).
    { rewrite length_take. lia. }
    assert (Hsmaller : exists y, y ∈ l /\ sizeOf y < sizeOf k).
    { destruct (drop i l) as [|y rest] eqn:Hdrop.
      - apply (f_equal length) in Hdrop. rewrite length_drop in Hdrop. simpl in Hdrop. lia.
      - exists y. split.
        + apply (subseteq_drop i l). rewrite Hdrop. apply list_elem_of_here.
        + apply Ha. apply list_elem_of_here. }
    destruct Hsmaller as (y & Hy & Hyk).
    assert (Hcase : forall k', k' ∈ l1 ->
              k' ∈ take (Z.to_nat bound) l1 \/
              (bound <= Z.of_nat (length (take (Z.to_nat bound) l1)) /\
               forall x, x ∈ take (Z.to_nat bound) l1 -> sizeOf k' <= sizeOf x)).
    { intros k' Hk'. rewrite Hsplit in Hk'. apply elem_of_app in Hk' as [Hk'|Hk']; [by left|].
      right. split; [done|]. intros x Hx.
      unfold largestFirst in Hs. rewrite Hsplit in Hs.
      by apply (StronglySorted_app_1_elem_of _ _ _ x k' Hs). }
    intros k' [Hk'|Hk']%elem_of_app; [|apply list_elem_of_singleton in Hk' as ->].
    + destruct (Hseen k' Hk') as [Hin|[Hfull Hall]].
      * apply Hcase, Hin1. by right.
      * right. split; [done|]. intros x Hx.
        apply (subseteq_take (Z.to_nat bound) l1), Hin1 in Hx as [->|Hx]; [|by apply Hall].
        pose proof (Hall y Hy). lia.
    + apply Hcase, Hin1. by left.
Qed.

(** The list that the insertions build from the empty list: in order,
    within the bound, made of keys that went in, and with the largest of
    them. *)
Lemma insertAll_largest bound ks :
  0 <= bound ->
  let l := insertAll bound [] ks in
  largestFirst l /\
  Z.of_nat (length l) <= bound /\
  (forall x, x ∈ l -> x ∈ ks) /\
  keepsLargest bound l ks.
Proof.
  intros Hb. induction ks as [|k ks IH] using rev_ind.
  - simpl. split_and!; [constructor|simpl; lia|done|]. intros k Hk. by apply elem_of_nil in Hk.
  - rewrite insertAll_app. simpl. destruct IH as (Hs & Hl & Hsub & Hkeep).
    split_and!.
    + by apply insertTopN_largestFirst.
    + by apply insertTopN_length.
    + intros x [->|Hx]%insertTopN_elem; rewrite elem_of_app.
      * right. apply list_elem_of_here.
      * left. by apply Hsub.
    + by apply insertTopN_keepsLargest.
Qed.

(** X5. For every type that occurs and a [sizeTopN] that is not negative,
    [aggregateKeys] returns the list of the
    largest keys of that type: the list is in descending order of
    [estBytes] and no longer than [sizeTopN], it holds only keys of the
    input of that type whose estimate is there and not zero, and every
    such key of the input is in it unless the list is full and holds
    nothing smaller. *)
Theorem aggregateKeys_topN_largest keys config delimiter ty l :
  0 <= sizeTopN config ->
  topN (aggregateKeys keys config delimiter) !! ty = Some l ->
  largestFirst l /\
  Z.of_nat (length l) <= sizeTopN config /\
  (forall x, x ∈ l -> x ∈ keys /\ type x = ty /\ truthy (estBytes x) = true) /\
  (forall k, k ∈ keys -> type k = ty -> truthy (estBytes k) = true ->
     k ∈ l \/
     (Z.of_nat (length l) = sizeTopN config /\ forall x, x ∈ l -> sizeOf k <= sizeOf x)).
Proof.
  intros Hn. rewrite aggregateKeys_unfold. simpl. rewrite aggregateState_topN_get.
  destruct (filter (fun k => type k = ty) keys); [done|]. intros [= <-].
  destruct (insertAll_largest (sizeTopN config) (candidates ty keys) Hn)
    as (Hs & Hl & Hsub & Hkeep).
  split_and!; [done|done| |].
  - intros x Hx. apply Hsub in Hx. unfold candidates in Hx.
    apply list_elem_of_filter in Hx. tauto.
  - intros k' Hk Hty Hest.
    destruct (Hkeep k') as [Hin|[Hfull Hall]].
    + unfold candidates. apply list_elem_of_filter. tauto.
    + by left.
    + right. split; [lia|done].
Qed.

Lemma aggregateKeys_topN_largest_witness :
  0 <= sizeTopN cfgTop1 /\
  topN (aggregateKeys [stringKey "k2" 5; stringKey "k1" 10] cfgTop1 ":") !! "string"
  = Some [stringKey "k1" 10] /\
  largestFirst [stringKey "k1" 10].
Proof.
  assert (Hn : 0 <= sizeTopN cfgTop1) by (vm_compute; discriminate).
  assert (Hl : topN (aggregateKeys [stringKey "k2" 5; stringKey "k1" 10] cfgTop1 ":")
               !! "string" = Some [stringKey "k1" 10]) by (vm_compute; reflexivity).
  split; [exact Hn|]. split; [exact Hl|].
  exact (proj1 (aggregateKeys_topN_largest _ cfgTop1 ":" "string" _ Hn Hl)).
Defined.

(** X6. A type has a top-N list exactly when a key of the input has that
    type.  The list is what [insertTopN] builds from the empty list out
    of the keys of that type whose estimate is there and not zero, in the
    order of the input: the keys of other types and the keys without an
    estimate play no part in it, and it is empty when there is no key to
    put in. *)
Theorem aggregateKeys_topN_types keys config delimiter ty :
  (is_Some (topN (aggregateKeys keys config delimiter) !! ty) <->
   exists k, k ∈ keys /\ type k = ty) /\
  (forall l, topN (aggregateKeys keys config delimiter) !! ty = Some l ->
     l = insertAll (sizeTopN config) [] (candidates ty keys)).
Proof.
  rewrite aggregateKeys_unfold. simpl. rewrite aggregateState_topN_get.
  destruct (filter (fun k => type k = ty) keys) as [|k ks] eqn:Hf.
  - split; [|done]. split; [by intros [? ?]|]. intros (k & Hk & Hty).
    exfalso. by eapply (filter_nil_not_elem_of _ _ k Hf).
  - split; [|by intros l [= <-]]. split; [|by eauto]. intros _.
    assert (Hk : k ∈ filter (fun k => type k = ty) keys)
      by (rewrite Hf; apply list_elem_of_here).
    apply list_elem_of_filter in Hk. exists k. tauto.
Qed.

(** ** Shards: the merge of the aggregates against the aggregate of all keys *)

Lemma byPrefix_aggregateKeys_lookup keys config delimiter p :
  byPrefix (aggregateKeys keys config delimiter) !! p =
  match carriers delimiter p keys with
  | [] => None
  | ks => Some (foldKeys config (createEmptyPrefixAgg p) ks)
  end.
Proof.
  rewrite aggregateKeys_unfold, byPrefix_sorted_values by apply aggregateState_tidy.
  rewrite OMapFacts.get_list_to_map. apply aggregateState_get.
Qed.

Lemma mergeHist_empty_r (a : gmap string Z) : mergeHist a ∅ = a.
Proof. apply map_fold_empty. Qed.

Lemma mergeInto_empty a p : mergeInto a (createEmptyPrefixAgg p) = a.
Proof.
  apply PrefixAgg_eq; simpl; try lia; try done; try apply mergeHist_empty_r.
Qed.

(** One more key is one more merge, of the aggregate of that key alone. *)
Lemma updatePrefixAgg_mergeInto a k config p :
  updatePrefixAgg a k config
  = mergeInto a (updatePrefixAgg (createEmptyPrefixAgg p) k config).
Proof.
  apply PrefixAgg_eq; simpl.
  - done.
  - lia.
  - destruct (truthy (estBytes k)); lia.
  - apply map_eq. intros l. rewrite mergeHist_lookup, !histAdd_lookup, !lookup_empty.
    destruct (decide (getTTLBucketLabel (ttlMs k) (ttlBuckets config) = l)) as [->|]; [|done].
    simpl. f_equal; lia.
  - destruct (idleSec k) as [s|]; [|by rewrite mergeHist_empty_r].
    apply map_eq. intros l. rewrite mergeHist_lookup, !histAdd_lookup, !lookup_empty.
    destruct (decide (getIdleBucketLabel s (idleBuckets config) = l)) as [->|]; [|done].
    simpl. f_equal; lia.
  - apply map_eq. intros ty. rewrite mergeByType_lookup, lookup_empty. simpl.
    destruct (decide (type k = ty)) as [<-|Hne].
    + rewrite !lookup_insert_eq. f_equal. unfold addStats. simpl.
      change {| t_count := 0; t_estBytes := 0 |} with noStats.
      apply TypeStats_eq; simpl; [lia|]. destruct (truthy (estBytes k)); lia.
    + by rewrite !lookup_insert_ne, lookup_empty by done.
Qed.

Lemma foldKeys_mergeInto config a p ks :
  foldKeys config a ks = mergeInto a (foldKeys config (createEmptyPrefixAgg p) ks).
Proof.
  induction ks as [|k ks IH] using rev_ind.
  - simpl. by rewrite mergeInto_empty.
  - rewrite !foldKeys_snoc, IH.
    rewrite (updatePrefixAgg_mergeInto (mergeInto _ _) k config p).
    rewrite (updatePrefixAgg_mergeInto (foldKeys _ _ _) k config p).
    apply mergeInto_assoc.
Qed.

Lemma foldKeys_app config p ks1 ks2 :
  foldKeys config (createEmptyPrefixAgg p) (ks1 ++ ks2)
  = mergeInto (foldKeys config (createEmptyPrefixAgg p) ks1)
              (foldKeys config (createEmptyPrefixAgg p) ks2).
Proof.
  unfold foldKeys at 1. rewrite foldl_app.
  apply (foldKeys_mergeInto config _ p ks2).
Qed.

Lemma byPrefix_aggregateKeys_app ks1 ks2 config delimiter :
  byPrefix (aggregateKeys (ks1 ++ ks2) config delimiter)
  = tableUnion (byPrefix (aggregateKeys ks1 config delimiter))
               (byPrefix (aggregateKeys ks2 config delimiter)).
Proof.
  apply map_eq. intros p. unfold tableUnion.
  rewrite lookup_union_with, !byPrefix_aggregateKeys_lookup.
  unfold carriers. rewrite filter_app.
  destruct (filter (carries delimiter p) ks1) as [|k1 l1] eqn:H1,
           (filter (carries delimiter p) ks2) as [|k2 l2] eqn:H2; simpl; try done.
  - by rewrite app_nil_r.
  - f_equal. apply (foldKeys_app config p (k1 :: l1) (k2 :: l2)).
Qed.

Lemma byPrefix_elem r a :
  NoDup (map prefix (prefixes r)) ->
  a ∈ prefixes r <-> byPrefix r !! prefix a = Some a.
Proof.
  intros Hnd. unfold byPrefix. rewrite <- elem_of_list_to_map.
  - rewrite list_elem_of_fmap. split.
    + intros Hin. by exists a.
    + by intros (b & [= _ ->] & Hb).
  - by rewrite <- list_fmap_compose.
Qed.

Lemma byPrefix_perm r s :
  wellFormed r -> wellFormed s -> byPrefix r = byPrefix s -> prefixes r ≡ₚ prefixes s.
Proof.
  intros [Hr _] [Hs _] Heq. apply NoDup_Permutation.
  - by apply NoDup_fmap_1 in Hr.
  - by apply NoDup_fmap_1 in Hs.
  - intros a. by rewrite !byPrefix_elem, Heq.
Qed.

(** X7. Sampling in shards and merging gives, prefix by prefix, what
    sampling at once gives.  When each shard is aggregated on its own,
    with one configuration and one delimiter, the merge of the results
    has the same aggregates as [aggregateKeys] on all the keys: the same
    names, and under each name the same count, estBytes, histograms and
    per-type breakdown.  The two lists of aggregates are permutations of
    each other. *)
Theorem mergeAggregations_of_shards (shards : list (list KeyMeta)) config delimiter :
  let merged := mergeAggregations (map (fun ks => aggregateKeys ks config delimiter) shards) in
  let whole := aggregateKeys (concat shards) config delimiter in
  byPrefix merged = byPrefix whole /\ prefixes merged ≡ₚ prefixes whole.
Proof.
  intros merged whole.
  assert (Heq : byPrefix merged = byPrefix whole).
  { unfold merged, whole. rewrite byPrefix_mergeAggregations.
    induction shards as [|ks shards IH] using rev_ind; [done|].
    rewrite !map_app, !concat_app. simpl. rewrite !app_nil_r.
    rewrite total_app, IH, total_wellFormed by apply aggregateKeys_wellFormed.
    by rewrite byPrefix_aggregateKeys_app. }
  split; [done|].
  apply byPrefix_perm; [apply mergeAggregations_wellFormed|apply aggregateKeys_wellFormed|done].
Qed.

(** ** What a merge adds up *)

Lemma in_concat_iff {A : Type} (x : A) (ls : list (list A)) :
  x ∈ concat ls <-> exists l, x ∈ l /\ l ∈ ls.
Proof.
  induction ls as [|l0 ls IH]; simpl.
  - split; [by intros ?%elem_of_nil|by intros (l & _ & ?%elem_of_nil)].
  - rewrite elem_of_app, IH. split.
    + intros [Hx|(l & Hx & Hl)].
      * exists l0. split; [done|apply list_elem_of_here].
      * exists l. split; [done|by apply list_elem_of_further].
    + intros (l & Hx & [->|Hl]%elem_of_cons); [by left|]. right. by exists l.
Qed.

Lemma total_lookup ps p :
  total ps !! p =
  match filter (fun a => prefix a = p) ps with
  | [] => None
  | q :: qs => Some (foldl mergeInto q qs)
  end.
Proof.
  induction ps as [|a ps IH] using rev_ind; [done|].
  unfold total in *. rewrite foldl_snoc, addRecord_lookup, IH.
  rewrite filter_app, filter_cons, filter_nil.
  destruct (decide (prefix a = p)) as [Ha|Ha].
  - destruct (filter (fun a0 => prefix a0 = p) ps) as [|q qs]; simpl; [done|].
    by rewrite foldl_snoc.
  - by rewrite app_nil_r.
Qed.

Lemma sumOf_snoc {A : Type} (f : A -> Z) l x : sumOf f (l ++ [x]) = sumOf f l + f x.
Proof. unfold sumOf. induction l as [|y l IH]; simpl; [lia|]. rewrite IH. lia. Qed.

Lemma histAt_mergeHist l a b : histAt l (mergeHist a b) = histAt l a + histAt l b.
Proof.
  unfold histAt. rewrite mergeHist_lookup.
  destruct (b !! l); simpl; unfold orZero; simpl; lia.
Qed.

Lemma stats_mergeByType ty a b :
  default noStats (mergeByType a b !! ty)
  = addStats (default noStats (a !! ty)) (default noStats (b !! ty)).
Proof.
  rewrite mergeByType_lookup. destruct (b !! ty); simpl; [done|].
  apply TypeStats_eq; simpl; lia.
Qed.

Lemma sumOf_cons_snoc {A : Type} (f : A -> Z) q l x :
  sumOf f (q :: l ++ [x]) = sumOf f (q :: l) + f x.
Proof. by rewrite app_comm_cons, sumOf_snoc. Qed.

Lemma mergedRecords_fields q qs :
  let a := foldl mergeInto q qs in
  prefix a = prefix q /\
  count a = sumOf count (q :: qs) /\
  p_estBytes a = sumOf p_estBytes (q :: qs) /\
  (forall l, histAt l (ttlHist a) = sumOf (fun x => histAt l (ttlHist x)) (q :: qs)) /\
  (forall l, histAt l (idleHist a) = sumOf (fun x => histAt l (idleHist x)) (q :: qs)) /\
  (forall ty, t_count (default noStats (byType a !! ty))
              = sumOf (fun x => t_count (default noStats (byType x !! ty))) (q :: qs) /\
              typeBytes ty a = sumOf (typeBytes ty) (q :: qs)).
Proof.
  cbv zeta. induction qs as [|x qs IH] using rev_ind.
  - simpl. unfold typeBytes. split_and!; try done; intros; try split; lia.
  - rewrite foldl_snoc. destruct IH as (Hp & Hc & He & Httl & Hidle & Hty).
    split_and!.
    + done.
    + rewrite sumOf_cons_snoc, <- Hc. done.
    + rewrite sumOf_cons_snoc, <- He. done.
    + intros l. rewrite sumOf_cons_snoc, <- Httl. simpl. apply histAt_mergeHist.
    + intros l. rewrite sumOf_cons_snoc, <- Hidle. simpl. apply histAt_mergeHist.
    + intros ty. destruct (Hty ty) as [Htc Htb]. unfold typeBytes in *.
      rewrite !sumOf_cons_snoc, <- Htc, <- Htb. simpl.
      rewrite stats_mergeByType. done.
Qed.

Lemma mergeAggregations_elem rs a :
  a ∈ prefixes (mergeAggregations rs) <->
  exists q qs, recordsOf (prefix a) rs = q :: qs /\ a = foldl mergeInto q qs.
Proof.
  rewrite byPrefix_elem by apply mergeAggregations_wellFormed.
  rewrite byPrefix_mergeAggregations, total_lookup. fold (recordsOf (prefix a) rs).
  destruct (recordsOf (prefix a) rs) as [|q qs]; split.
  - done.
  - by intros (q & qs & ? & _).
  - intros [= <-]. by exists q, qs.
  - by intros (q' & qs' & [= <- <-] & ->).
Qed.


(** X9. The names of a merge are the names of its inputs: a prefix has an
    aggregate in the result exactly when some input has a record of that
    name. *)
Theorem mergeAggregations_names rs p :
  p ∈ map prefix (prefixes (mergeAggregations rs)) <->
  exists r q, r ∈ rs /\ q ∈ prefixes r /\ prefix q = p.
Proof.
  rewrite list_elem_of_fmap. split.
  - intros (a & -> & (q & qs & Hq & _)%mergeAggregations_elem).
    assert (Hin : q ∈ recordsOf (prefix a) rs) by (rewrite Hq; apply list_elem_of_here).
    apply list_elem_of_filter in Hin as [Hp Hin].
    apply in_concat_iff in Hin as (ps & Hin & Hps).
    apply list_elem_of_fmap in Hps as (r & -> & Hr). by exists r, q.
  - intros (r & q & Hr & Hq & Hp).
    assert (Hin : q ∈ recordsOf p rs).
    { apply list_elem_of_filter. split; [done|].
      apply in_concat_iff. exists (prefixes r). split; [done|].
      apply list_elem_of_fmap. by exists r. }
    destruct (recordsOf p rs) as [|q0 qs0] eqn:Hrec; [by apply elem_of_nil in Hin|].
    destruct (mergedRecords_fields q0 qs0) as (Hp0 & _).
    assert (Hq0 : prefix q0 = p).
    { assert (H0 : q0 ∈ recordsOf p rs) by (rewrite Hrec; apply list_elem_of_here).
      by apply list_elem_of_filter in H0 as [? _]. }
    exists (foldl mergeInto q0 qs0). split; [by rewrite Hp0|].
    apply mergeAggregations_elem. exists q0, qs0. by rewrite Hp0, Hq0.
Qed.

(** ** Sums that a merge keeps *)









Lemma bytesAddUp_empty p : bytesAddUp (createEmptyPrefixAgg p).
Proof. unfold bytesAddUp. simpl. by rewrite mapSum_empty. Qed.

Lemma bytesAddUp_update a k config : bytesAddUp a -> bytesAddUp (updatePrefixAgg a k config).
Proof.
  unfold bytesAddUp. intros Ha. simpl. rewrite mapSum_insert. simpl.
  destruct (byType a !! type k), (truthy (estBytes k)); simpl; lia.
Qed.

(** X11. In every aggregate that [aggregateKeys] returns the bytes of the
    per-type breakdown add up to [estBytes]. *)
Theorem aggregateKeys_bytes_add_up keys config delimiter agg :
  agg ∈ prefixes (aggregateKeys keys config delimiter) ->
  mapSum t_estBytes (byType agg) = p_estBytes agg.
Proof.
  intros Hin.
  pose proof (aggregateKeys_Forall bytesAddUp bytesAddUp_empty bytesAddUp_update
                keys config delimiter) as Hall.
  rewrite Forall_forall in Hall. by apply Hall.
Qed.

Lemma aggregateKeys_bytes_add_up_witness :
  let agg :=
    updatePrefixAgg (updatePrefixAgg (createEmptyPrefixAgg "a") keyA1 cfgDefault)
                    keyA2 cfgDefault in
  agg ∈ prefixes (aggregateKeys [keyA1; keyA2] cfgDefault ":") /\
  mapSum t_estBytes (byType agg) = p_estBytes agg.
Proof.
  intros agg.
  assert (Hin : agg ∈ prefixes (aggregateKeys [keyA1; keyA2] cfgDefault ":")).
  { apply list_elem_of_lookup. exists 0%nat. vm_compute. reflexivity. }
  split; [exact Hin|].
  exact (aggregateKeys_bytes_add_up [keyA1; keyA2] cfgDefault ":" agg Hin).
Defined.

(** ** The largest keys after a merge *)

Lemma insertAll_largest_from bound l0 seen0 ks :
  largestFirst l0 ->
  Z.of_nat (length l0) <= bound ->
  (forall x, x ∈ l0 -> x ∈ seen0) ->
  keepsLargest bound l0 seen0 ->
  let l := insertAll bound l0 ks in
  largestFirst l /\
  Z.of_nat (length l) <= bound /\
  (forall x, x ∈ l -> x ∈ (seen0 ++ ks)%list) /\
  keepsLargest bound l (seen0 ++ ks).
Proof.
  intros Hs0 Hl0 Hsub0 Hkeep0. induction ks as [|k ks IH] using rev_ind.
  - simpl. by rewrite app_nil_r.
  - simpl in *. rewrite insertAll_app, app_assoc. simpl.
    destruct IH as (Hs & Hl & Hsub & Hkeep). split_and!.
    + by apply insertTopN_largestFirst.
    + by apply insertTopN_length.
    + intros x [->|Hx]%insertTopN_elem; rewrite elem_of_app.
      * right. apply list_elem_of_here.
      * left. by apply Hsub.
    + by apply insertTopN_keepsLargest.
Qed.

(** X12. The top-N list of a merge.  When the first input list for a type
    is in descending order of [estBytes] and has at most 20 entries, as
    the lists of [aggregateKeys] with [sizeTopN <= 20] do, the merged list
    for that type is in descending order, has at most 20 entries, all of
    them keys of the input lists, and holds every key of the input lists
    unless it is full and holds nothing smaller than that key. *)
Theorem mergeAggregations_topN_largest rs ty first later l :
  topNLists ty rs = first :: later ->
  largestFirst first ->
  Z.of_nat (length first) <= mergeTopNBound ->
  topN (mergeAggregations rs) !! ty = Some l ->
  largestFirst l /\
  Z.of_nat (length l) <= mergeTopNBound /\
  (forall x, x ∈ l -> x ∈ offered ty rs) /\
  keepsLargest mergeTopNBound l (offered ty rs).
Proof.
  intros Hlists Hs Hlen. rewrite mergeAggregations_topN, Hlists. simpl. intros [= <-].
  unfold offered. rewrite Hlists. simpl.
  apply insertAll_largest_from; [done|done|done|].
  intros k Hk. by left.
Qed.

Lemma mergeAggregations_topN_largest_witness :
  let a := aggregateKeys [stringKey "k2" 5] cfgDefault ":" in
  let b := aggregateKeys [stringKey "k1" 10] cfgDefault ":" in
  topNLists "string" [a; b] = [[stringKey "k2" 5]; [stringKey "k1" 10]] /\
  largestFirst [stringKey "k2" 5] /\
  Z.of_nat (length [stringKey "k2" 5]) <= mergeTopNBound /\
  topN (mergeAggregations [a; b]) !! "string" = Some [stringKey "k1" 10; stringKey "k2" 5] /\
  largestFirst [stringKey "k1" 10; stringKey "k2" 5].
Proof.
  intros a b.
  assert (H1 : topNLists "string" [a; b] = [[stringKey "k2" 5]; [stringKey "k1" 10]])
    by (vm_compute; reflexivity).
  assert (H2 : largestFirst [stringKey "k2" 5]) by (repeat constructor).
  assert (H3 : Z.of_nat (length [stringKey "k2" 5]) <= mergeTopNBound)
    by (vm_compute; discriminate).
  assert (H4 : topN (mergeAggregations [a; b]) !! "string"
               = Some [stringKey "k1" 10; stringKey "k2" 5]) by (vm_compute; reflexivity).
  split_and!; [exact H1|exact H2|exact H3|exact H4|].
  exact (proj1 (mergeAggregations_topN_largest [a; b] "string" _ _ _ H1 H2 H3 H4)).
Defined.

(** ** Bucket labels *)

Lemma bucketLoop_enclosing v buckets i b0 b1 :
  ascending buckets ->
  buckets !! i = Some b0 -> buckets !! S i = Some b1 ->
  b0 <= v < b1 ->
  bucketLoop v buckets = Some (formatTime b0 +:+ "-" +:+ formatTime b1).
Proof.
  unfold ascending. intros Hs. revert i.
  induction Hs as [|b rest Hs IH Hb]; intros i H0 H1 Hv; [done|].
  destruct i as [|i]; cbn [lookup list_lookup] in H0, H1.
  - injection H0 as ->. destruct rest as [|c rest]; [done|].
    cbn [lookup list_lookup] in H1. injection H1 as ->. cbn [bucketLoop].
    destruct (Z.leb_spec b0 v); [|lia]. destruct (Z.ltb_spec v b1); [done|lia].
  - destruct rest as [|c rest]; [done|]. cbn [bucketLoop].
    assert (Hc : c <= b0).
    { inversion Hs as [|? ? _ Hc']; subst. destruct i as [|i].
      - cbn [lookup list_lookup] in H0. injection H0 as ->. lia.
      - rewrite Forall_forall in Hc'. apply Hc'.
        cbn [lookup list_lookup] in H0. by eapply list_elem_of_lookup_2. }
    destruct (Z.leb_spec b v); destruct (Z.ltb_spec v c); simpl; try lia;
      by apply (IH i).
Qed.

Lemma bucketLoop_outside v buckets :
  ascending buckets -> outside v buckets -> bucketLoop v buckets = None.
Proof.
  unfold ascending, outside. induction 1 as [|b rest Hs IH Hb]; intros Hout; [done|].
  destruct rest as [|c rest]; [done|]. cbn [bucketLoop].
  assert (Hbc : b <= c) by (by inversion Hb).
  assert (Htest : (b <=? v) && (v <? c) = false).
  { destruct Hout as [Hlow|Hhigh].
    - specialize (Hlow b eq_refl). destruct (Z.leb_spec b v); [lia|done].
    - assert (Hc : forall l, last (c :: rest) = Some l -> c <= l).
      { intros l Hl. inversion Hs as [|? ? _ Hc']; subst.
        destruct rest as [|c' rest]; [injection Hl as ->; lia|].
        rewrite Forall_forall in Hc'. apply Hc'.
        apply last_Some in Hl as [pre Hl]. destruct pre as [|x pre]; [done|].
        injection Hl as _ ->. rewrite elem_of_app. right. apply list_elem_of_here. }
      destruct (last (c :: rest)) as [l|] eqn:Hl.
      + specialize (Hc l eq_refl). specialize (Hhigh l).
        rewrite last_cons, Hl in Hhigh. specialize (Hhigh eq_refl).
        destruct (Z.ltb_spec v c); [lia|]. by rewrite andb_false_r.
      + by apply last_None in Hl. }
  rewrite Htest. apply IH. destruct Hout as [Hlow|Hhigh].
  - left. intros b' [= <-]. specialize (Hlow b eq_refl). lia.
  - right. intros l Hl. apply Hhigh. rewrite last_cons. by rewrite Hl.
Qed.

(** X13. With boundaries in ascending order, a value between two
    neighbouring boundaries, the lower one included, gets the label of
    that pair, [formatTime] of the one, a dash, [formatTime] of the
    other: an idle time that is not zero from [getIdleBucketLabel], and a
    TTL that is not zero, cut to whole seconds, from [getTTLBucketLabel]. *)
Theorem bucket_label_of_enclosing_pair buckets i b0 b1 v :
  ascending buckets ->
  buckets !! i = Some b0 -> buckets !! S i = Some b1 ->
  b0 <= v < b1 ->
  (v <> 0 -> getIdleBucketLabel v buckets = formatTime b0 +:+ "-" +:+ formatTime b1) /\
  (forall ms, ms <> 0 -> ms / 1000 = v ->
     getTTLBucketLabel (Some ms) buckets = formatTime b0 +:+ "-" +:+ formatTime b1).
Proof.
  intros Hs H0 H1 Hv.
  pose proof (bucketLoop_enclosing v buckets i b0 b1 Hs H0 H1 Hv) as Hloop. split.
  - intros Hne. unfold getIdleBucketLabel.
    destruct (Z.eqb_spec v 0); [done|]. by rewrite Hloop.
  - intros ms Hne <-. unfold getTTLBucketLabel.
    destruct (Z.eqb_spec ms 0); [done|]. by rewrite Hloop.
Qed.

Lemma bucket_label_of_enclosing_pair_witness :
  ascending (ttlBuckets cfgDefault) /\
  getTTLBucketLabel (Some 90500) (ttlBuckets cfgDefault) = "1m-5m".
Proof.
  assert (Hs : ascending (ttlBuckets cfgDefault)).
  { unfold ascending. simpl. repeat (constructor; [|repeat (constructor; [lia|]); constructor]).
    constructor. }
  split; [exact Hs|].
  exact (proj2 (bucket_label_of_enclosing_pair (ttlBuckets cfgDefault) 1 60 300 90
                  Hs eq_refl eq_refl ltac:(lia)) 90500 ltac:(lia) eq_refl).
Defined.

(** X14. With boundaries in ascending order, a value below the first
    boundary or not below the last one gets the label of the overflow,
    [>] and [formatTime] of the last boundary.  With a first boundary of
    zero this is the label of a TTL below zero: a key that is gone when
    [PTTL] asks (the answer is -2) is counted with the keys that live
    longest. *)
Theorem bucket_label_overflow buckets v :
  ascending buckets ->
  outside v buckets ->
  (v <> 0 -> getIdleBucketLabel v buckets = overflowLabel buckets) /\
  (forall ms, ms <> 0 -> ms / 1000 = v ->
     getTTLBucketLabel (Some ms) buckets = overflowLabel buckets).
Proof.
  intros Hs Hout. pose proof (bucketLoop_outside v buckets Hs Hout) as Hloop. split.
  - intros Hne. unfold getIdleBucketLabel.
    destruct (Z.eqb_spec v 0); [done|]. by rewrite Hloop.
  - intros ms Hne <-. unfold getTTLBucketLabel.
    destruct (Z.eqb_spec ms 0); [done|]. by rewrite Hloop.
Qed.

Lemma bucket_label_overflow_witness :
  ascending (ttlBuckets cfgDefault) /\
  outside (-1) (ttlBuckets cfgDefault) /\
  getTTLBucketLabel (Some (-2)) (ttlBuckets cfgDefault) = ">1d".
Proof.
  assert (Hs : ascending (ttlBuckets cfgDefault)).
  { unfold ascending. simpl. repeat (constructor; [|repeat (constructor; [lia|]); constructor]).
    constructor. }
  assert (Hout : outside (-1) (ttlBuckets cfgDefault)).
  { left. intros b [= <-]. lia. }
  split; [exact Hs|]. split; [exact Hout|].
  exact (proj2 (bucket_label_overflow (ttlBuckets cfgDefault) (-1) Hs Hout)
               (-2) ltac:(lia) eq_refl).
Defined.

(** ** What a batch gives *)

Lemma estimated_app a b : estimated (a ++ b) = estimated a + estimated b.
Proof. unfold estimated. rewrite filter_app, length_app. lia. Qed.

Lemma estimated_cons m ms :
  estimated (m :: ms) = match estBytes m with Some _ => 1 | None => 0 end + estimated ms.
Proof.
  unfold estimated. rewrite filter_cons.
  destruct (estBytes m) as [n|]; simpl.
  - destruct (decide (is_Some (Some n))) as [|Hn]; [simpl; lia|].
    exfalso. apply Hn. by eexists.
  - destruct (decide (is_Some (@None Z))) as [[? Hn]|]; [done|lia].
Qed.

Lemma collectLoop_gathers estimate client d i batch :
  map key (collectLoop estimate client d i batch).1
  = filter (fun k => hasType client k = true) batch /\
  Forall (describes client d) (collectLoop estimate client d i batch).1 /\
  (collectLoop estimate client d i batch).2
  = estimated (collectLoop estimate client d i batch).1.
Proof.
  revert i. induction batch as [|k batch IH]; intros i; [by split_and!|].
  assert (Hf : filter (fun k => hasType client k = true) (k :: batch)
               = if hasType client k
                 then k :: filter (fun k => hasType client k = true) batch
                 else filter (fun k => hasType client k = true) batch).
  { rewrite filter_cons.
    destruct (decide (hasType client k = true)) as [->|Hn]; [done|].
    by destruct (hasType client k). }
  rewrite Hf. clear Hf. unfold hasType at 1. cbn [collectLoop].
  destruct (IH (S i)) as (Hk & Hd & Hc).
  destruct (c_type client k) as [ty|] eqn:Hty; [|done].
  destruct (if (i mod 10 =? 0)%nat then _ else _) as [est calls] eqn:Hest.
  destruct (collectLoop estimate client d (S i) batch) as [metadata memCalls].
  simpl in *. split_and!.
  - by rewrite Hk.
  - constructor; [|done]. unfold describes. simpl. rewrite Hty.
    split_and!; try done.
    by destruct (c_pttl client k).
  - rewrite estimated_cons. simpl. rewrite Hc. f_equal.
    revert Hest. destruct (_ =? _)%nat; [destruct (estimate client k ty)|];
      by intros [= <- <-].
Qed.

(** X15. A batch whose pipeline answers gives one entry for each name of
    the batch for which [TYPE] answered, in the order of the batch, and
    none for the others; each entry holds what the connection answered
    for its key, a TTL of -1 read as persistent, and the database that was
    passed in.  The count that comes with the entries is the number of
    them that carry an estimate. *)
Theorem collectKeyMetadata_gathers estimate client batch d config :
  c_exec client batch = Ok true ->
  exists ms,
    collectKeyMetadata estimate client batch d config = Ok (ms, estimated ms) /\
    map key ms = filter (fun k => hasType client k = true) batch /\
    Forall (describes client d) ms /\
    Forall (fun m => ttlMs m <> Some (-1)) ms.
Proof.
  intros Hexec. unfold collectKeyMetadata. rewrite Hexec.
  destruct (collectLoop_gathers estimate client d O batch) as (Hk & Hd & Hc).
  destruct (collectLoop estimate client d 0 batch) as [ms calls]. simpl in *. subst calls.
  exists ms. split_and!; try done.
  eapply Forall_impl; [exact Hd|]. intros m (_ & Httl & _). rewrite Httl.
  destruct (c_pttl client (key m)) as [v|]; [|done].
  destruct (Z.eqb_spec v (-1)); [done|congruence].
Qed.

Lemma collectKeyMetadata_gathers_witness :
  c_exec (oneString (Ok (Some 64)) (Ok (Some "abc"))) ["k"] = Ok true /\
  exists ms,
    collectKeyMetadata (estimateKeySize floorScaledExact)
      (oneString (Ok (Some 64)) (Ok (Some "abc"))) ["k"] 0 cfgDefault = Ok (ms, estimated ms) /\
    map key ms = ["k"].
Proof.
  split; [reflexivity|].
  destruct (collectKeyMetadata_gathers (estimateKeySize floorScaledExact)
              (oneString (Ok (Some 64)) (Ok (Some "abc"))) ["k"] 0 cfgDefault eq_refl)
    as (ms & H1 & H2 & _).
  exists ms. split; [exact H1|exact H2].
Defined.

Lemma collectKeyMetadata_cases estimate client batch d config :
  match collectKeyMetadata estimate client batch d config with
  | Ok (ms, calls) =>
      calls = estimated ms /\ Forall (describes client d) ms /\
      Forall (fun m => key m ∈ batch) ms
  | Err m => c_exec client batch = Err m
  end.
Proof.
  unfold collectKeyMetadata. destruct (c_exec client batch) as [[|]|m]; [|by split_and!|done].
  destruct (collectLoop_gathers estimate client d O batch) as (Hk & Hd & Hc).
  destruct (collectLoop estimate client d 0 batch) as [ms calls]. simpl in *.
  split_and!; [done|done|]. apply Forall_forall. intros m Hm.
  assert (Hin : key m ∈ map key ms) by (apply list_elem_of_fmap; by exists m).
  rewrite Hk in Hin. by apply list_elem_of_filter in Hin as [_ ?].
Qed.

(** ** The count of the estimates *)

Lemma scanLoop_estimated estimate client d config replies acc memCalls :
  memCalls = estimated acc ->
  (scanLoop estimate client d config replies acc memCalls).1.2
  = estimated (scanLoop estimate client d config replies acc memCalls).1.1.
Proof.
  revert acc memCalls. induction replies as [|r replies IH]; intros acc memCalls Hc; [done|].
  destruct r as [[newCursor batchKeys]|m]; cbn [scanLoop]; [|done].
  destruct batchKeys as [|k0 batchKeys].
  - destruct (sampleLimit config <=? Z.of_nat (length acc)); [done|].
    destruct (String.eqb newCursor "0"); [done|]. by apply IH.
  - pose proof (collectKeyMetadata_cases estimate client (k0 :: batchKeys) d config) as Hcase.
    destruct (collectKeyMetadata estimate client (k0 :: batchKeys) d config)
      as [[ks c]|m]; [|done].
    destruct Hcase as (-> & _).
    assert (Hc1 : memCalls + estimated ks = estimated (acc ++ ks))
      by (rewrite estimated_app; lia).
    destruct (sampleLimit config <=? Z.of_nat (length (acc ++ ks)%list)); [done|].
    destruct (String.eqb newCursor "0"); [done|]. by apply IH.
Qed.

Lemma scanDbs_estimated estimate client config ds acc memCalls errs :
  memCalls = estimated acc ->
  (scanDbs estimate client config ds acc memCalls errs).1.2
  = estimated (scanDbs estimate client config ds acc memCalls errs).1.1.
Proof.
  revert acc memCalls errs. induction ds as [|d ds IH]; intros acc memCalls errs Hc; [done|].
  cbn [scanDbs].
  destruct (sampleLimit config <=? Z.of_nat (length acc)); [done|].
  destruct (s_select client d); [|by apply IH].
  pose proof (scanLoop_estimated estimate (s_db client d) d config
                (c_scan (s_db client d)) acc memCalls Hc) as Hloop.
  destruct (scanLoop estimate (s_db client d) d config (c_scan (s_db client d)) acc memCalls)
    as [[acc1 calls1] e].
  by apply IH.
Qed.

Lemma finish_memoryUsageCalls config all approx memCalls errs :
  memoryUsageCalls (stats (finish config all approx memCalls errs)) = memCalls.
Proof. done. Qed.

Lemma scanStandalone_memoryUsageCalls estimate client config :
  memoryUsageCalls (stats (scanStandalone estimate client config))
  = estimated (visitedStandalone estimate client config).
Proof.
  unfold scanStandalone, visitedStandalone.
  pose proof (scanDbs_estimated estimate client config (dbs config) [] 0 [] eq_refl) as H.
  destruct (scanDbs estimate client config (dbs config) [] 0 []) as [[all memCalls] errs].
  done.
Qed.

Lemma sum_of_nodes estimate config nodes n :
  foldl (fun n r => n + r.1.2) n (map (scanNode estimate config) nodes)
  = n + estimated (concat (map (visitedNode estimate config) nodes)).
Proof.
  revert n. induction nodes as [|node nodes IH]; intros n; simpl; [unfold estimated; simpl; lia|].
  rewrite IH, estimated_app. unfold visitedNode at 2.
  pose proof (scanLoop_estimated estimate (n_conn node) 0 config
                (c_scan (n_conn node)) [] 0 eq_refl) as H.
  unfold scanNode. rewrite H. lia.
Qed.

Lemma scanCluster_memoryUsageCalls estimate nodes config :
  memoryUsageCalls (stats (scanCluster estimate nodes config))
  = estimated (visitedCluster estimate nodes config).
Proof.
  unfold scanCluster, visitedCluster. rewrite finish_memoryUsageCalls.
  by rewrite sum_of_nodes.
Qed.

Lemma estimated_take n ms : estimated (take n ms) <= estimated ms.
Proof.
  rewrite <- (take_drop n ms) at 2. rewrite estimated_app. unfold estimated. lia.
Qed.

Lemma sliceTo_take all n : exists j, sliceTo all n = take j all.
Proof. unfold sliceTo. destruct (n <? 0); by eexists. Qed.

(** X16. [memoryUsageCalls] counts estimates, not commands.  It is the
    number of keys that the scan gathered with an estimate, before the
    list is cut to the limit; so it is at least the number of returned
    keys that carry an estimate.  Where the estimate came from,
    [MEMORY USAGE] or the heuristics, plays no part. *)
Theorem memoryUsageCalls_counts_estimates estimate client config :
  let r := scanKeys estimate client config in
  memoryUsageCalls (stats r) = estimated (visited estimate client config) /\
  estimated (sr_keys r) <= memoryUsageCalls (stats r).
Proof.
  intros r.
  assert (Heq : memoryUsageCalls (stats r) = estimated (visited estimate client config)).
  { unfold r. destruct client as [server|nodes]; cbn [scanKeys visited].
    - apply scanStandalone_memoryUsageCalls.
    - apply scanCluster_memoryUsageCalls. }
  split; [done|]. rewrite Heq.
  assert (Hcut : exists j, sr_keys r = take j (visited estimate client config)).
  { unfold r. destruct client as [server|nodes]; cbn [scanKeys visited].
    - destruct (scanStandalone_finish estimate server config) as (a & m & e & _ & ->).
      apply sliceTo_take.
    - destruct (scanCluster_finish estimate nodes config) as (a & m & e & _ & ->).
      apply sliceTo_take. }
  destruct Hcut as [j ->]. apply estimated_take.
Qed.

(** ** The errors of a scan *)

Lemma scanLoop_error estimate client d config replies acc memCalls m :
  (scanLoop estimate client d config replies acc memCalls).2 = Some m ->
  Err m ∈ replies \/
  exists cursor batch, Ok (cursor, batch) ∈ replies /\ c_exec client batch = Err m.
Proof.
  revert acc memCalls. induction replies as [|r replies IH]; intros acc memCalls; [done|].
  assert (Hrest : forall a c,
            (scanLoop estimate client d config replies a c).2 = Some m ->
            Err m ∈ r :: replies \/
            exists cursor batch, Ok (cursor, batch) ∈ r :: replies /\
                                 c_exec client batch = Err m).
  { intros a c [H|(cur & b & Hin & Hb)]%IH; [left|right].
    - by apply list_elem_of_further.
    - exists cur, b. split; [by apply list_elem_of_further|done]. }
  destruct r as [[newCursor batchKeys]|m']; cbn [scanLoop].
  - destruct batchKeys as [|k0 batchKeys].
    + destruct (sampleLimit config <=? Z.of_nat (length acc)); [done|].
      destruct (String.eqb newCursor "0"); [done|]. apply Hrest.
    + pose proof (collectKeyMetadata_cases estimate client (k0 :: batchKeys) d config) as Hcase.
      destruct (collectKeyMetadata estimate client (k0 :: batchKeys) d config)
        as [[ks c]|m'].
      * destruct (sampleLimit config <=? Z.of_nat (length (acc ++ ks)%list)); [done|].
        destruct (String.eqb newCursor "0"); [done|]. apply Hrest.
      * simpl. intros [= ->]. right. exists newCursor, (k0 :: batchKeys).
        split; [apply list_elem_of_here|done].
  - simpl. intros [= ->]. left. apply list_elem_of_here.
Qed.

Lemma scanDbs_errors estimate client config ds acc memCalls errs :
  let out := (scanDbs estimate client config ds acc memCalls errs).2 in
  (forall e, e ∈ out ->
     e ∈ errs \/
     exists d m, d ∈ ds /\ e = ("DB " +:+ num_to_string d) +:+ ": " +:+ m /\
                 (s_select client d = Err m \/ fails (s_db client d) m)) /\
  (length out <= length errs + length ds)%nat.
Proof.
  cbv zeta. revert acc memCalls errs.
  induction ds as [|d ds IH]; intros acc memCalls errs.
  - simpl. split; [by left|lia].
  - cbn [scanDbs].
    destruct (sampleLimit config <=? Z.of_nat (length acc)); [simpl; split; [by left|lia]|].
    assert (Hstep : forall a c e0,
              (forall m, e0 = Some m -> s_select client d = Err m \/ fails (s_db client d) m) ->
              let out := (scanDbs estimate client config ds a c
                            (pushError errs ("DB " +:+ num_to_string d) e0)).2 in
              (forall e, e ∈ out ->
                 e ∈ errs \/
                 exists d' m, d' ∈ d :: ds /\ e = ("DB " +:+ num_to_string d') +:+ ": " +:+ m /\
                              (s_select client d' = Err m \/ fails (s_db client d') m)) /\
              (length out <= length errs + length (d :: ds))%nat).
    { intros a c e0 He0. cbv zeta.
      destruct (IH a c (pushError errs ("DB " +:+ num_to_string d) e0)) as [Hin Hlen].
      split.
      - intros e [He|(d' & m & Hd' & -> & Hf)]%Hin.
        + destruct e0 as [m|]; simpl in He; [|by left].
          apply elem_of_app in He as [He|He]; [by left|].
          apply list_elem_of_singleton in He as ->. right. exists d, m.
          split; [apply list_elem_of_here|]. split; [done|]. by apply He0.
        + right. exists d', m. split; [by apply list_elem_of_further|done].
      - etransitivity; [exact Hlen|].
        destruct e0; simpl; rewrite ?length_app; simpl; lia. }
    destruct (s_select client d) as [u|m] eqn:Hsel.
    + pose proof (scanLoop_error estimate (s_db client d) d config
                    (c_scan (s_db client d)) acc memCalls) as Herr.
      destruct (scanLoop estimate (s_db client d) d config (c_scan (s_db client d)) acc memCalls)
        as [[acc1 calls1] e0].
      apply Hstep. intros m ->. right. by apply Herr.
    + apply (Hstep acc memCalls (Some m)). intros m' [= <-]. by left.
Qed.

Lemma scanCluster_errors estimate config nodes es :
  let out :=
    foldl (fun es nr =>
             pushError es ("Node " +:+ n_host (fst nr) +:+ ":" +:+ num_to_string (n_port (fst nr)))
                       (snd (snd nr)))
          es (zip nodes (map (scanNode estimate config) nodes)) in
  (forall e, e ∈ out ->
     e ∈ es \/
     exists node m, node ∈ nodes /\
       e = ("Node " +:+ n_host node +:+ ":" +:+ num_to_string (n_port node)) +:+ ": " +:+ m /\
       fails (n_conn node) m) /\
  (length out <= length es + length nodes)%nat.
Proof.
  cbv zeta. revert es. induction nodes as [|node nodes IH]; intros es.
  - simpl. split; [by left|lia].
  - cbn [map zip zip_with foldl]. destruct (IH
      (pushError es ("Node " +:+ n_host (node, scanNode estimate config node).1 +:+ ":" +:+
                     num_to_string (n_port (node, scanNode estimate config node).1))
                 (node, scanNode estimate config node).2.2)) as [Hin Hlen].
    cbn [fst snd] in *. split.
    + intros e [He|(node' & m & Hn & -> & Hf)]%Hin.
      * destruct (scanNode estimate config node).2 as [m|] eqn:Hm; simpl in He; [|by left].
        apply elem_of_app in He as [He|He]; [by left|].
        apply list_elem_of_singleton in He as ->. right. exists node, m.
        split; [apply list_elem_of_here|]. split; [done|].
        by apply (scanLoop_error estimate (n_conn node) 0 config _ [] 0).
      * right. exists node', m. split; [by apply list_elem_of_further|done].
    + etransitivity; [exact Hlen|].
      destruct (scanNode estimate config node).2; simpl; rewrite ?length_app; simpl; lia.
Qed.

(** X17. Every entry of [errors] names a shard that was asked for and the
    message of a command that was rejected there: [SELECT], [SCAN] or the
    pipeline of a batch on a standalone server ([DB d: message]), [SCAN]
    or the pipeline on a node of a cluster ([Node host:port: message]).
    There are at most as many entries as shards asked for.  Nothing else
    is reported: not a rejected [INFO], and not a command that failed for
    one key. *)
Theorem scan_errors_name_the_failure estimate client config :
  let errs := errors (stats (scanKeys estimate client config)) in
  (forall e, e ∈ errs -> reported client config e) /\
  (length errs <= shards client config)%nat.
Proof.
  cbv zeta. destruct client as [server|nodes]; cbn [scanKeys reported shards].
  - unfold scanStandalone.
    destruct (scanDbs_errors estimate server config (dbs config) [] 0 []) as [Hin Hlen].
    destruct (scanDbs estimate server config (dbs config) [] 0 []) as [[all memCalls] errs].
    simpl in *. split; [|lia].
    intros e [He|He]%Hin; [by apply elem_of_nil in He|done].
  - unfold scanCluster. cbn [finish stats errors].
    destruct (scanCluster_errors estimate config nodes []) as [Hin Hlen].
    split; [|exact Hlen].
    intros e [He|He]%Hin; [by apply elem_of_nil in He|done].
Qed.

(** ** Where the keys of a scan come from *)

Lemma scanLoop_Forall (P : KeyMeta -> Prop) estimate client d config
    (replies0 replies : list (Reply (string * list string))) acc memCalls :
  (forall r, r ∈ replies -> r ∈ replies0) ->
  (forall m cursor batch,
     describes client d m -> Ok (cursor, batch) ∈ replies0 -> key m ∈ batch -> P m) ->
  Forall P acc ->
  Forall P (scanLoop estimate client d config replies acc memCalls).1.1.
Proof.
  intros Hsub HP. revert acc memCalls Hsub.
  induction replies as [|r replies IH]; intros acc memCalls Hsub Hacc; [done|].
  assert (Hsub' : forall r0, r0 ∈ replies -> r0 ∈ replies0)
    by (intros r0 Hr0; by apply Hsub, list_elem_of_further).
  assert (Hr : r ∈ replies0) by apply Hsub, list_elem_of_here.
  destruct r as [[newCursor batchKeys]|m]; cbn [scanLoop]; [|done].
  destruct batchKeys as [|k0 batchKeys].
  - destruct (sampleLimit config <=? Z.of_nat (length acc)); [done|].
    destruct (String.eqb newCursor "0"); [done|]. by apply IH.
  - pose proof (collectKeyMetadata_cases estimate client (k0 :: batchKeys) d config) as Hcase.
    destruct (collectKeyMetadata estimate client (k0 :: batchKeys) d config)
      as [[ks c]|m]; [|done].
    destruct Hcase as (_ & Hd & Hk).
    assert (Hacc1 : Forall P (acc ++ ks)).
    { apply Forall_app. split; [done|].
      rewrite Forall_forall in Hd, Hk. apply Forall_forall. intros m Hm.
      apply (HP m newCursor (k0 :: batchKeys)); [by apply Hd|done|by apply Hk]. }
    destruct (sampleLimit config <=? Z.of_nat (length (acc ++ ks)%list)); [done|].
    destruct (String.eqb newCursor "0"); [done|]. by apply IH.
Qed.

Lemma scanDbs_gathered estimate client config (ds0 ds : list Z) acc memCalls errs :
  (forall d, d ∈ ds -> d ∈ ds0) ->
  Forall (fun m => exists d, d ∈ ds0 /\ gatheredOn (s_db client d) d m) acc ->
  Forall (fun m => exists d, d ∈ ds0 /\ gatheredOn (s_db client d) d m)
         (scanDbs estimate client config ds acc memCalls errs).1.1.
Proof.
  revert acc memCalls errs.
  induction ds as [|d ds IH]; intros acc memCalls errs Hsub Hacc; [done|].
  assert (Hsub' : forall d0, d0 ∈ ds -> d0 ∈ ds0)
    by (intros d0 Hd0; by apply Hsub, list_elem_of_further).
  assert (Hd : d ∈ ds0) by apply Hsub, list_elem_of_here.
  cbn [scanDbs].
  destruct (sampleLimit config <=? Z.of_nat (length acc)); [done|].
  destruct (s_select client d); [|by apply IH].
  pose proof (scanLoop_Forall
                (fun m => exists d, d ∈ ds0 /\ gatheredOn (s_db client d) d m)
                estimate (s_db client d) d config (c_scan (s_db client d))
                (c_scan (s_db client d)) acc memCalls (fun r H => H)) as Hloop.
  destruct (scanLoop estimate (s_db client d) d config (c_scan (s_db client d)) acc memCalls)
    as [[acc1 calls1] e].
  apply IH; [done|]. apply Hloop; [|done].
  intros m cursor batch Hdesc Hin Hk. exists d. split; [done|]. split; [done|].
  by exists cursor, batch.
Qed.

Lemma Forall_sliceTo (P : KeyMeta -> Prop) all n : Forall P all -> Forall P (sliceTo all n).
Proof. destruct (sliceTo_take all n) as [j ->]. apply Forall_take. Qed.

(** X18. Every key that a scan returns was handed out by [SCAN] on a shard
    that was asked for, a database of [config.dbs] or a master node, and
    its entry holds what that shard answered for it: the type from
    [TYPE], the TTL from [PTTL] with -1 read as persistent, the idle time
    from [OBJECT IDLETIME], and the index of the database, which is 0 on
    a cluster. *)
Theorem scan_keys_provenance estimate client config m :
  m ∈ sr_keys (scanKeys estimate client config) -> provenance client config m.
Proof.
  destruct client as [server|nodes]; cbn [scanKeys provenance].
  - destruct (scanStandalone_finish estimate server config) as (a & c & e & _ & ->).
    cbn [finish sr_keys]. intros Hm.
    pose proof (scanDbs_gathered estimate server config (dbs config) (dbs config) [] 0 []
                  (fun d H => H) (Forall_nil_2 _)) as Hall.
    fold (visitedStandalone estimate server config) in Hall.
    apply (Forall_sliceTo _ _ (sampleLimit config)) in Hall.
    rewrite Forall_forall in Hall. by apply Hall.
  - destruct (scanCluster_finish estimate nodes config) as (a & c & e & _ & ->).
    cbn [finish sr_keys]. intros Hm.
    assert (Hall : Forall (fun m => exists node, node ∈ nodes /\ gatheredOn (n_conn node) 0 m)
                          (visitedCluster estimate nodes config)).
    { unfold visitedCluster. apply Forall_forall. intros x Hx.
      apply in_concat_iff in Hx as (l & Hx & Hl).
      apply list_elem_of_fmap in Hl as (node & -> & Hnode).
      exists node. split; [done|].
      pose proof (scanLoop_Forall (gatheredOn (n_conn node) 0)
                    estimate (n_conn node) 0 config (c_scan (n_conn node))
                    (c_scan (n_conn node)) [] 0 (fun r H => H)) as Hn.
      assert (Hall : Forall (gatheredOn (n_conn node) 0)
                            (scanLoop estimate (n_conn node) 0 config
                               (c_scan (n_conn node)) [] 0).1.1).
      { apply Hn; [|constructor]. intros m0 cursor batch Hdesc Hin Hk.
        split; [done|]. by exists cursor, batch. }
      rewrite Forall_forall in Hall. by apply Hall. }
    apply (Forall_sliceTo _ _ (sampleLimit config)) in Hall.
    rewrite Forall_forall in Hall. by apply Hall.
Qed.

Lemma scan_keys_provenance_witness :
  let m := {| key := "k1"; type := "string"; ttlMs := None; idleSec := Some 3;
              estBytes := Some 64; db := Some 0 |} in
  m ∈ sr_keys (scanKeys (estimateKeySize floorScaledExact) (Standalone staleServer) cfgDefault) /\
  provenance (Standalone staleServer) cfgDefault m.
Proof.
  intros m.
  assert (Hm : m ∈ sr_keys (scanKeys (estimateKeySize floorScaledExact)
                              (Standalone staleServer) cfgDefault)).
  { apply list_elem_of_lookup. exists 0%nat. vm_compute. reflexivity. }
  split; [exact Hm|].
  exact (scan_keys_provenance _ _ _ m Hm).
Defined.

(** ** How far a scan runs past the limit *)

Lemma grown_length isBatch limit B acc out :
  (forall b, isBatch b -> Z.of_nat (length b) <= B) ->
  grown isBatch limit acc out ->
  Z.of_nat (length out) <= Z.max (Z.of_nat (length acc)) (limit - 1 + B).
Proof.
  intros HB. induction 1 as [|acc b out Hlt Hb _ IH]; [lia|].
  rewrite length_app in IH. specialize (HB b Hb). lia.
Qed.

Lemma collectKeyMetadata_length estimate client batch d config ms calls :
  collectKeyMetadata estimate client batch d config = Ok (ms, calls) ->
  (length ms <= length batch)%nat.
Proof.
  unfold collectKeyMetadata. destruct (c_exec client batch) as [[|]|m]; [| |done].
  - destruct (collectLoop_gathers estimate client d O batch) as (Hk & _).
    intros [= Heq]. rewrite Heq in Hk. simpl in Hk.
    rewrite <- (length_map key), Hk. apply length_filter.
  - intros [= <- _]. simpl. lia.
Qed.

Lemma isBatchOf_length estimate config client d B batch :
  batchBound client B ->
  isBatchOf estimate config client d (c_scan client) batch ->
  Z.of_nat (length batch) <= B.
Proof.
  intros HB (cursor & batchKeys & calls & Hin & Hcollect).
  apply collectKeyMetadata_length in Hcollect. specialize (HB _ _ Hin). lia.
Qed.

(** X19. A scan overshoots the limit by less than one batch per shard.
    For a limit above zero and answers of [SCAN] of at most [B] names, a
    standalone scan has gathered fewer than [sampleLimit + B] keys when
    its loops end, and a cluster scan fewer than that on each node: the
    nodes do not share the count, so a cluster scan can gather that many
    keys for each node and then keep [sampleLimit] of them. *)
Theorem scan_overshoots_by_less_than_a_batch estimate config B :
  0 < sampleLimit config ->
  (forall server,
     (forall d, d ∈ dbs config -> batchBound (s_db server d) B) ->
     Z.of_nat (length (visitedStandalone estimate server config))
     <= Z.max 0 (sampleLimit config - 1 + B)) /\
  (forall nodes,
     (forall node, node ∈ nodes -> batchBound (n_conn node) B) ->
     (forall node, node ∈ nodes ->
        Z.of_nat (length (visitedNode estimate config node))
        <= Z.max 0 (sampleLimit config - 1 + B)) /\
     Z.of_nat (length (visitedCluster estimate nodes config))
     <= Z.of_nat (length nodes) * Z.max 0 (sampleLimit config - 1 + B)).
Proof.
  intros Hpos. split.
  - intros server HB.
    pose proof (scanDbs_grown estimate server config (dbs config) [] 0 []) as Hg.
    apply (grown_length _ _ B) in Hg; [exact Hg|].
    intros b (d & Hd & Hb). by eapply isBatchOf_length; [apply HB|].
  - intros nodes HB.
    assert (Hnode : forall node, node ∈ nodes ->
              Z.of_nat (length (visitedNode estimate config node))
              <= Z.max 0 (sampleLimit config - 1 + B)).
    { intros node Hn.
      pose proof (scanLoop_grown estimate (n_conn node) 0 config (c_scan (n_conn node))
                    [] 0 Hpos) as Hg.
      apply (grown_length _ _ B) in Hg; [exact Hg|].
      intros b Hb. by eapply isBatchOf_length; [apply HB|]. }
    split; [done|]. unfold visitedCluster.
    induction nodes as [|node nodes IH]; [simpl; lia|].
    cbn [map concat]. rewrite length_app.
    assert (H1 := Hnode node (list_elem_of_here _ _)).
    assert (H2 : Z.of_nat (length (concat (map (visitedNode estimate config) nodes)))
                 <= Z.of_nat (length nodes) * Z.max 0 (sampleLimit config - 1 + B)).
    { apply IH.
      - intros n Hn. by apply HB, list_elem_of_further.
      - intros n Hn. by apply Hnode, list_elem_of_further. }
    cbn [length]. lia.
Qed.

Lemma scan_overshoots_by_less_than_a_batch_witness :
  0 < sampleLimit cfgTop1 /\
  (forall d, d ∈ dbs cfgTop1 -> batchBound (s_db staleServer d) 2) /\
  Z.of_nat (length (visitedStandalone (estimateKeySize floorScaledExact) staleServer cfgTop1))
  <= Z.max 0 (sampleLimit cfgTop1 - 1 + 2).
Proof.
  assert (Hpos : 0 < sampleLimit cfgTop1) by (vm_compute; reflexivity).
  assert (HB : forall d, d ∈ dbs cfgTop1 -> batchBound (s_db staleServer d) 2).
  { intros d _ cursor batch Hin. simpl in Hin.
    apply list_elem_of_singleton in Hin. injection Hin as _ ->. simpl. lia. }
  split; [exact Hpos|]. split; [exact HB|].
  exact (proj1 (scan_overshoots_by_less_than_a_batch
                  (estimateKeySize floorScaledExact) cfgTop1 2 Hpos) staleServer HB).
Defined.

(** ** A limit that is not positive *)

(** X20. With a [sampleLimit] of zero or less a standalone scan selects no
    database and sends no [SCAN]: it returns no key, no error and a call
    count of zero, and [sampled] is the limit itself, a negative number
    when the limit is one. *)
Theorem scanStandalone_without_limit estimate server config :
  sampleLimit config <= 0 ->
  let r := scanStandalone estimate server config in
  sr_keys r = [] /\
  sampled (stats r) = sampleLimit config /\
  memoryUsageCalls (stats r) = 0 /\
  errors (stats r) = [].
Proof.
  intros Hl. cbv zeta. unfold scanStandalone.
  assert (Hdbs : forall ds, scanDbs estimate server config ds [] 0 [] = ([], 0, [])).
  { intros [|d ds]; [done|]. cbn [scanDbs]. simpl length.
    destruct (Z.leb_spec (sampleLimit config) (Z.of_nat 0)); [done|lia]. }
  rewrite Hdbs. cbn [finish sr_keys stats sampled memoryUsageCalls errors].
  split_and!; [|simpl; lia|done|done].
  unfold sliceTo. destruct (sampleLimit config <? 0); apply take_nil.
Qed.

Lemma scanStandalone_without_limit_witness :
  let config := {| dbs := [0]; sampleLimit := -3; scanCount := 1000;
                   ttlBuckets := [0; 60]; idleBuckets := [0; 60]; sizeTopN := 20 |} in
  sampleLimit config <= 0 /\
  sampled (stats (scanStandalone (estimateKeySize floorScaledExact) staleServer config)) = -3.
Proof.
  intros config. assert (Hl : sampleLimit config <= 0) by (vm_compute; discriminate).
  split; [exact Hl|].
  exact (proj1 (proj2 (scanStandalone_without_limit
                         (estimateKeySize floorScaledExact) staleServer config Hl))).
Defined.

(** ** The key count of [INFO keyspace] *)

Lemma parseInt_unfold digits :
  parseInt digits = foldl digitStep 0 (list_ascii_of_string digits).
Proof. done. Qed.

Lemma parse_uint_acc d acc :
  foldl digitStep (Z.pos acc) (list_ascii_of_string (NilEmpty.string_of_uint d))
  = Z.pos (Pos.of_uint_acc d acc).
Proof.
  revert acc. induction d; intros acc; cbn [NilEmpty.string_of_uint list_ascii_of_string foldl
    Pos.of_uint_acc]; [done|..]; rewrite <- IHd; f_equal; unfold digitStep;
    match goal with |- context [nat_of_ascii ?c] =>
      let v := eval vm_compute in (Z.of_nat (nat_of_ascii c)) in
      change (Z.of_nat (nat_of_ascii c)) with v
    end; lia.
Qed.

Lemma parse_uint d :
  foldl digitStep 0 (list_ascii_of_string (NilEmpty.string_of_uint d))
  = Z.of_N (Pos.of_uint d).
Proof.
  induction d; cbn [NilEmpty.string_of_uint list_ascii_of_string foldl Pos.of_uint];
    [done|exact IHd|..];
    match goal with |- foldl _ ?s _ = _ =>
      let v := eval vm_compute in s in change s with v
    end; apply parse_uint_acc.
Qed.

Lemma digits_of_uint d :
  Forall (fun c => isDigit c = true) (list_ascii_of_string (NilEmpty.string_of_uint d)).
Proof.
  induction d; cbn [NilEmpty.string_of_uint list_ascii_of_string]; constructor; done.
Qed.

(** What [num_to_string] prints for a number that is not negative is a run
    of digits, not empty, that [parseInt] reads back. *)
Lemma num_to_string_digits n :
  0 <= n ->
  num_to_string n <> EmptyString /\
  Forall (fun c => isDigit c = true) (list_ascii_of_string (num_to_string n)) /\
  parseInt (num_to_string n) = n.
Proof.
  intros Hn. unfold num_to_string. destruct n as [|p|p]; [|..|lia].
  { split_and!; [done|by repeat constructor|done]. }
  cbn [Z.to_int NilZero.string_of_int].
  pose proof (DecimalPos.Unsigned.of_to p) as Hof.
  unfold NilZero.string_of_uint.
  destruct (Pos.to_uint p) as [|d|d|d|d|d|d|d|d|d|d] eqn:Hd; [done|..];
    (split_and!; [done|apply digits_of_uint|];
     rewrite parseInt_unfold, parse_uint, Hof; done).
Qed.

Lemma takeDigits_run s tail :
  Forall (fun c => isDigit c = true) (list_ascii_of_string s) ->
  noDigitAhead tail ->
  takeDigits (s +:+ tail) = s.
Proof.
  intros Hs Ht. induction s as [|c s IH].
  - destruct tail as [|c tail]; [done|]. cbn [noDigitAhead] in Ht.
    change (EmptyString +:+ String c tail) with (String c tail).
    cbn [takeDigits]. by rewrite Ht.
  - cbn [list_ascii_of_string] in Hs. apply Forall_cons in Hs as [Hc Hs].
    rewrite str_app_String. cbn [takeDigits]. rewrite Hc. by rewrite IH.
Qed.

Lemma substring_all s : String.substring 0 (String.length s) s = s.
Proof. induction s as [|c s IH]; [done|]. cbn [String.length String.substring]. by rewrite IH. Qed.

Lemma matchKeys_db0 digits tail :
  digits <> EmptyString ->
  Forall (fun c => isDigit c = true) (list_ascii_of_string digits) ->
  noDigitAhead tail ->
  matchKeys ("db0:keys=" +:+ digits +:+ tail) = Some digits.
Proof.
  intros Hne Hd Ht. rewrite !str_app_String.
  change (EmptyString +:+ (digits +:+ tail)) with (digits +:+ tail).
  cbn [matchKeys startsWith Ascii.eqb Bool.eqb String.eqb andb].
  cbn [String.length Nat.sub String.substring].
  rewrite Nat.sub_0_r, substring_all, takeDigits_run by done.
  by destruct digits.
Qed.

Lemma db0Keys_reads pre line post n :
  Forall (fun l => startsWith "db0:" l = false) pre ->
  startsWith "db0:" line = true ->
  matchKeys line = Some (num_to_string n) ->
  0 <= n ->
  db0Keys (pre ++ line :: post) = Some n.
Proof.
  intros Hpre Hline Hmatch Hn. induction Hpre as [|l pre Hl _ IH]; cbn [app db0Keys].
  - rewrite Hline, Hmatch. f_equal. by apply num_to_string_digits.
  - by rewrite Hl.
Qed.

Lemma reportsKeys_db0Keys info n :
  reportsKeys info n ->
  exists text, info = Ok text /\ db0Keys (split text crlf) = Some n.
Proof.
  intros (Hn & text & pre & tail & post & -> & Hsplit & Hpre & Htail).
  exists text. split; [done|]. rewrite Hsplit.
  destruct (num_to_string_digits n Hn) as (Hne & Hd & _).
  apply db0Keys_reads; [done| |by apply matchKeys_db0|done].
  by rewrite !str_app_String.
Qed.

Lemma clusterTotal_reads nodes ns approx :
  Forall2 (fun node n => reportsKeys (n_info node) n) nodes ns ->
  clusterTotal nodes approx = approx + sumOf id ns.
Proof.
  intros H. revert approx. induction H as [|node n nodes ns Hn _ IH]; intros approx.
  - simpl. lia.
  - cbn [clusterTotal]. apply reportsKeys_db0Keys in Hn as (text & -> & ->).
    rewrite IH. simpl. unfold id. lia.
Qed.

(** X21. [approxTotalKeys] is the key count of database 0 as [INFO
    keyspace] prints it.  When the first line for [db0] of the answer
    reads [keys=n], a standalone scan reports [n], whichever databases it
    samples; when every master node answers so, a cluster scan reports
    the sum over the nodes. *)
Theorem approxTotalKeys_reads_db0 estimate config :
  (forall server n,
     reportsKeys (s_info server) n ->
     approxTotalKeys (stats (scanStandalone estimate server config)) = n) /\
  (forall nodes ns,
     Forall2 (fun node n => reportsKeys (n_info node) n) nodes ns ->
     approxTotalKeys (stats (scanCluster estimate nodes config)) = sumOf id ns).
Proof.
  split.
  - intros server n (text & Hinfo & Hdb0)%reportsKeys_db0Keys.
    unfold scanStandalone. rewrite Hinfo, Hdb0.
    by destruct (scanDbs estimate server config (dbs config) [] 0 []) as [[? ?] ?].
  - intros nodes ns H. unfold scanCluster. cbn [finish stats approxTotalKeys].
    rewrite (clusterTotal_reads nodes ns 0 H). lia.
Qed.

Lemma approxTotalKeys_reads_db0_witness :
  reportsKeys (s_info staleServer) 1 /\
  approxTotalKeys (stats (scanStandalone (estimateKeySize floorScaledExact)
                            staleServer cfgDefault)) = 1.
Proof.
  assert (H : reportsKeys (s_info staleServer) 1).
  { split; [lia|].
    exists (keyspaceInfo "1"), ["# Keyspace"], ",expires=0,avg_ttl=0", [""].
    split_and!; [reflexivity|by vm_compute|by repeat constructor|reflexivity]. }
  split; [exact H|].
  exact (proj1 (approxTotalKeys_reads_db0 (estimateKeySize floorScaledExact) cfgDefault)
               staleServer 1 H).
Defined.

(** ** The first level of the prefix tree *)

Lemma first_segment_short d a cur b :
  d <> "" ->
  exists seg rest,
    split_go d 0 cur (a +:+ d +:+ b) = seg :: rest /\
    (String.length seg <= String.length cur + String.length a)%nat.
Proof.
  intros Hd. revert cur. induction a as [|c a IH]; intros cur.
  - change ("" +:+ d +:+ b) with (d +:+ b).
    destruct d as [|c d]; [done|]. rewrite str_app_String. cbn [split_go].
    rewrite <- str_app_String, startsWith_app. eexists _, _. split; [done|lia].
  - rewrite str_app_String. cbn [split_go].
    destruct (startsWith d (String c (a +:+ d +:+ b))).
    + eexists _, _. split; [done|]. cbn [String.length]. lia.
    + destruct (IH (cur +:+ String c "")) as (seg & rest & -> & Hlen).
      exists seg, rest. split; [done|].
      rewrite str_length_app in Hlen. cbn [String.length] in *. lia.
Qed.

Lemma firstSegment_short k d q r :
  d <> "" -> k = q +:+ d +:+ r ->
  (String.length (firstSegment k d) <= String.length q)%nat.
Proof.
  intros Hd ->. unfold firstSegment, split.
  destruct (first_segment_short d q "" r Hd) as (seg & rest & Hsplit & Hlen).
  destruct d as [|c d]; [done|]. rewrite Hsplit. simpl in *. lia.
Qed.

Lemma segments_pos k d : d <> "" -> (1 <= segments k d)%nat.
Proof.
  intros Hd. unfold segments, split. destruct d as [|c d]; [done|].
  pose proof (split_go_not_nil (String c d) 0 "" k).
  destruct (split_go (String c d) 0 "" k); [done|simpl; lia].
Qed.

Lemma firstSegment_prefix k d : d <> "" -> firstSegment k d ∈ extractPrefixes k d 3.
Proof.
  intros Hd. apply extractPrefixes_elem. exists 1%nat. split; [|done].
  pose proof (segments_pos k d Hd). lia.
Qed.

Lemma deeper_prefix d parts j :
  (2 <= j <= length parts)%nat ->
  exists r, join d (take j parts) = join d (take 1 parts) +:+ d +:+ r.
Proof.
  intros Hj. exists (join d (drop 1 (take j parts))).
  rewrite <- (take_drop 1 (take j parts)) at 1.
  rewrite take_take, Nat.min_l by lia.
  apply join_app.
  - intros H. apply (f_equal length) in H. rewrite length_take in H.
    cbn [length] in H. lia.
  - intros H. apply (f_equal length) in H. rewrite length_drop, length_take in H.
    cbn [length] in H. lia.
Qed.

(** The first segment of one key is no deeper prefix of another. *)
Lemma first_not_deeper d k0 k j :
  d <> "" ->
  (2 <= j <= segments k d)%nat ->
  firstSegment k0 d <> join d (take j (split k d)).
Proof.
  intros Hd Hj Heq.
  destruct (deeper_prefix d (split k d) j Hj) as [r Hr]. rewrite Hr in Heq.
  fold (firstSegment k d) in Heq.
  assert (Hk0 : exists r', k0 = firstSegment k d +:+ d +:+ r').
  { destruct (extractPrefixes_initial k0 d 3 _ (firstSegment_prefix k0 d Hd))
      as [H0|[rest H0]].
    - exists r. by rewrite <- Heq.
    - exists (r +:+ d +:+ rest). rewrite H0 at 1. rewrite Heq.
      by rewrite !str_app_assoc. }
  destruct Hk0 as [r' Hk0].
  pose proof (firstSegment_short k0 d _ _ Hd Hk0) as Hlen.
  rewrite Heq, !str_length_app in Hlen.
  destruct d; [done|]. cbn [String.length] in Hlen. lia.
Qed.

Lemma carries_first d k0 k :
  d <> "" ->
  carries d (firstSegment k0 d) k <-> firstSegment (key k) d = firstSegment k0 d.
Proof.
  intros Hd. unfold carries. split.
  - intros (i & Hi & Heq)%extractPrefixes_elem.
    destruct (decide (i = 1%nat)) as [->|Hne]; [done|].
    exfalso. apply (first_not_deeper d k0 (key k) i Hd); [lia|done].
  - intros <-. by apply firstSegment_prefix.
Qed.

Lemma sumOf_zero {A : Type} (l : list A) : sumOf (fun _ => 0) l = 0.
Proof. induction l as [|x l IH]; simpl; [done|]. rewrite IH. lia. Qed.

Lemma sumOf_plus {A : Type} (f g : A -> Z) l :
  sumOf (fun x => f x + g x) l = sumOf f l + sumOf g l.
Proof. induction l as [|x l IH]; simpl; [done|]. rewrite IH. lia. Qed.

Lemma sumOf_ext {A : Type} (f g : A -> Z) l :
  (forall x, x ∈ l -> f x = g x) -> sumOf f l = sumOf g l.
Proof.
  induction l as [|x l IH]; intros H; simpl; [done|].
  rewrite (H x) by apply list_elem_of_here.
  rewrite IH; [done|]. intros y Hy. by apply H, list_elem_of_further.
Qed.

Lemma sumOf_map {A B : Type} (f : B -> Z) (g : A -> B) l :
  sumOf f (map g l) = sumOf (fun x => f (g x)) l.
Proof. induction l as [|x l IH]; simpl; [done|]. by rewrite IH. Qed.

Lemma sumOf_one_name (x : string) (v : Z) names :
  NoDup names -> x ∈ names ->
  sumOf (fun p => if decide (x = p) then v else 0) names = v.
Proof.
  induction 1 as [|p names Hp Hnd IH]; intros Hx; [by apply elem_of_nil in Hx|].
  simpl. destruct (decide (x = p)) as [->|Hne].
  - rewrite (sumOf_ext _ (fun _ => 0)), sumOf_zero; [lia|].
    intros q Hq. destruct (decide (p = q)) as [->|]; done.
  - apply elem_of_cons in Hx as [->|Hx]; [done|]. rewrite IH by done. lia.
Qed.

(** Keys sorted under names, each under one: the sums of the heaps add up
    to the sum over all keys. *)
Lemma sum_by_name (f : KeyMeta -> string) (w : KeyMeta -> Z) names keys :
  NoDup names ->
  (forall k, k ∈ keys -> f k ∈ names) ->
  sumOf (fun p => sumOf w (filter (fun k => f k = p) keys)) names = sumOf w keys.
Proof.
  intros Hnd. induction keys as [|k keys IH]; intros Hin.
  - simpl. apply sumOf_zero.
  - rewrite (sumOf_ext _ (fun p => (if decide (f k = p) then w k else 0)
                                   + sumOf w (filter (fun k => f k = p) keys))).
    + rewrite sumOf_plus, sumOf_one_name, IH; [done| |done|].
      * intros k' Hk'. by apply Hin, list_elem_of_further.
      * apply Hin, list_elem_of_here.
    + intros p _. rewrite filter_cons. destruct (decide (f k = p)); simpl; lia.
Qed.

Lemma sumOf_length {A : Type} (l : list A) : sumOf (fun _ => 1) l = Z.of_nat (length l).
Proof. induction l as [|x l IH]; simpl length; [done|]. cbn [sumOf foldr] in *.
  unfold sumOf in *. simpl. rewrite IH. lia. Qed.

Lemma first_level_sums keys config delimiter :
  delimiter <> "" ->
  let top := filter (firstLevel delimiter keys) (prefixes (aggregateKeys keys config delimiter)) in
  sumOf count top = Z.of_nat (length keys) /\
  sumOf p_estBytes top = sumKnownBytes keys.
Proof.
  intros Hd top.
  assert (Hnd : NoDup (map prefix top)).
  { assert (Hsub : map prefix top `sublist_of`
                     map prefix (prefixes (aggregateKeys keys config delimiter)))
      by (unfold top; apply (fmap_sublist prefix), sublist_filter).
    exact (sublist_NoDup _ _ (proj1 (aggregateKeys_wellFormed keys config delimiter)) Hsub). }
  assert (Hin : forall k, k ∈ keys -> firstSegment (key k) delimiter ∈ map prefix top).
  { intros k Hk.
    assert (Hp : firstSegment (key k) delimiter
                 ∈ map prefix (prefixes (aggregateKeys keys config delimiter))).
    { apply list_elem_of_fmap.
      exists (foldKeys config (createEmptyPrefixAgg (firstSegment (key k) delimiter))
                (carriers delimiter (firstSegment (key k) delimiter) keys)).
      destruct (foldKeys_fields config (firstSegment (key k) delimiter)
                  (carriers delimiter (firstSegment (key k) delimiter) keys)) as (Hname & _).
      split; [done|]. apply aggregateKeys_elem. rewrite Hname. split; [|done].
      intros Hnil. eapply (filter_nil_not_elem_of _ _ k Hnil); [|done].
      by apply firstSegment_prefix. }
    apply list_elem_of_fmap in Hp as (a & Ha & Hin).
    apply list_elem_of_fmap. exists a. split; [done|].
    unfold top. apply list_elem_of_filter. split; [|done].
    unfold firstLevel. apply Exists_exists. exists k. by split. }
  assert (Hfields : forall a, a ∈ top ->
            count a = sumOf (fun _ => 1)
                        (filter (fun k => firstSegment (key k) delimiter = prefix a) keys) /\
            p_estBytes a = sumOf knownBytes
                        (filter (fun k => firstSegment (key k) delimiter = prefix a) keys)).
  { intros a [Hfirst Ha]%list_elem_of_filter.
    apply aggregateKeys_elem in Ha as [_ Ha].
    destruct (foldKeys_fields config (prefix a) (carriers delimiter (prefix a) keys))
      as (_ & Hc & He & _).
    rewrite <- Ha in Hc, He.
    unfold firstLevel in Hfirst. apply Exists_exists in Hfirst as (k0 & _ & Hk0).
    assert (Hsame : carriers delimiter (prefix a) keys
                    = filter (fun k => firstSegment (key k) delimiter = prefix a) keys).
    { unfold carriers. apply list_filter_iff. intros k. rewrite <- Hk0.
      by apply carries_first. }
    rewrite Hsame in Hc, He. by rewrite sumOf_length. }
  assert (Hsum : forall w,
            sumOf (fun a => sumOf w
                     (filter (fun k => firstSegment (key k) delimiter = prefix a) keys)) top
            = sumOf w keys).
  { intros w.
    rewrite <- (sum_by_name (fun k => firstSegment (key k) delimiter) w (map prefix top) keys)
      by done.
    symmetry.
    exact (sumOf_map (fun p => sumOf w (filter (fun k => firstSegment (key k) delimiter = p) keys))
             prefix top). }
  split.
  - rewrite <- sumOf_length, <- Hsum. apply sumOf_ext. intros a Ha. by apply Hfields.
  - unfold sumKnownBytes. fold (sumOf knownBytes keys). rewrite <- Hsum.
    apply sumOf_ext. intros a Ha. by apply Hfields.
Qed.

(** X22. The aggregates of the first level divide the sample.  With a
    delimiter that is not empty every key counts under exactly one of the
    aggregates that stand for a first segment: their [count]s add up to
    the number of keys and their [estBytes] to the sum of the estimates
    that are there and not zero. *)
Theorem aggregateKeys_first_level keys config delimiter :
  delimiter <> "" ->
  let top := filter (firstLevel delimiter keys) (prefixes (aggregateKeys keys config delimiter)) in
  sumOf count top = Z.of_nat (length keys) /\
  sumOf p_estBytes top = sumKnownBytes keys.
Proof. apply first_level_sums. Qed.

Lemma aggregateKeys_first_level_witness :
  ":" <> "" /\
  sumOf count (filter (firstLevel ":" [keyA1; keyA2])
                 (prefixes (aggregateKeys [keyA1; keyA2] cfgDefault ":"))) = 2.
Proof.
  assert (Hd : ":" <> "") by discriminate.
  split; [exact Hd|].
  exact (proj1 (aggregateKeys_first_level [keyA1; keyA2] cfgDefault ":" Hd)).
Defined.

(** ** The answer of the scan route *)

Lemma stringOr_nonempty s d : d <> "" -> stringOr s d <> "".
Proof.
  intros Hd. unfold stringOr. destruct s as [v|]; [|done].
  by destruct (String.eqb_spec v "").
Qed.

Lemma numberOr_nonzero n d : d <> 0 -> numberOr n d <> 0.
Proof.
  intros Hd. unfold numberOr. destruct n as [v|]; [|done].
  by destruct (Z.eqb_spec v 0).
Qed.

Lemma scanKeys_cutToLimit estimate client config :
  cutToLimit config (visited estimate client config) (scanKeys estimate client config).
Proof.
  destruct client as [server|nodes]; cbn [scanKeys visited].
  - destruct (scanStandalone_finish estimate server config) as (a & m & e & _ & ->).
    apply finish_cutToLimit.
  - destruct (scanCluster_finish estimate nodes config) as (a & m & e & _ & ->).
    apply finish_cutToLimit.
Qed.

(** X23. What the route answers adds up.  Unless the request asks for a
    negative [sampleLimit], the [count]s of the first-level aggregates of
    the answer add up to [sampled], which lies between zero and the
    limit in force: the one asked for, or 50000 when none or zero was
    asked for.  The delimiter in force is never empty, so no key falls
    outside every aggregate. *)
Theorem scanData_adds_up estimate client config keyDelimiter :
  (forall n, r_sampleLimit config = Some n -> 0 <= n) ->
  let d := scanData estimate client config keyDelimiter in
  let top := filter (firstLevel (stringOr keyDelimiter ":") (sampleOf estimate client config))
                    (aggregates d) in
  sumOf count top = sampled (sampleStats d) /\
  0 <= sampled (sampleStats d) <= numberOr (r_sampleLimit config) 50000.
Proof.
  intros Hlimit d top.
  assert (Hl : 0 <= sampleLimit (scanConfigOf config)).
  { simpl. unfold numberOr. destruct (r_sampleLimit config) as [n|] eqn:Hn; [|lia].
    specialize (Hlimit n eq_refl). destruct (n =? 0); lia. }
  destruct (scanKeys_cutToLimit estimate client (scanConfigOf config))
    as (Hs & Hle & _ & Hcut).
  destruct (Hcut Hl) as [_ Hlen].
  assert (Hd : stringOr keyDelimiter ":" <> "") by (by apply stringOr_nonempty).
  destruct (first_level_sums (sampleOf estimate client config) (scanConfigOf config)
              (stringOr keyDelimiter ":") Hd) as [Hcount _].
  split.
  - unfold top, d, scanData. cbn [aggregates sampleStats].
    fold (sampleOf estimate client config). rewrite Hcount. exact Hlen.
  - unfold d, scanData. cbn [sampleStats]. split; [lia|exact Hle].
Qed.

Lemma scanData_adds_up_witness :
  let d := scanData (estimateKeySize floorScaledExact) (Standalone staleServer)
                    emptyRequest None in
  (forall n, r_sampleLimit emptyRequest = Some n -> 0 <= n) /\
  sampled (sampleStats d) = 2 /\
  sumOf count (filter (firstLevel (stringOr None ":")
                         (sampleOf (estimateKeySize floorScaledExact)
                                   (Standalone staleServer) emptyRequest))
                      (aggregates d)) = sampled (sampleStats d).
Proof.
  intros d.
  assert (H : forall n, r_sampleLimit emptyRequest = Some n -> 0 <= n) by (intros n [=]).
  split; [exact H|]. split; [reflexivity|].
  exact (proj1 (scanData_adds_up (estimateKeySize floorScaledExact) (Standalone staleServer)
                  emptyRequest None H)).
Defined.

(** * The sessions, verified *)

Module SessionFacts.
Import Session.

Lemma entries_get_Forall (P : string * UserSession -> Prop) m k v :
  Forall P m -> OMap.get k m = Some v -> P (k, v).
Proof.
  induction m as [|[k' v'] m IH]; simpl; [done|].
  intros Hm. inversion Hm; subst.
  destruct (String.eqb_spec k' k) as [->|]; [by intros [= <-]|auto].
Qed.

Lemma get_delete_eq k m : OMap.get k (delete k m) = None.
Proof.
  apply OMapFacts.get_None_keys. unfold delete. intros Hin.
  apply list_elem_of_fmap in Hin as ([k' v] & -> & Hin).
  by apply list_elem_of_filter in Hin as [Hne _].
Qed.

Lemma get_delete_ne k k' m : k <> k' -> OMap.get k' (delete k m) = OMap.get k' m.
Proof.
  intros Hne. unfold delete. induction m as [|[k0 v0] m IH]; [done|].
  rewrite filter_cons. simpl.
  destruct (decide (k0 <> k)) as [Hk|Hk]; simpl.
  - by rewrite IH.
  - apply dec_stable in Hk as ->. rewrite IH.
    by destruct (String.eqb_spec k k').
Qed.

Lemma entries_set_Forall_key (P : string * UserSession -> Prop) m k v :
  Forall P m -> P (k, v) -> Forall P (OMap.set k v m).
Proof.
  intros Hm Hv. induction m as [|[k' v'] m IH]; simpl.
  - by repeat constructor.
  - inversion Hm; subst. destruct (String.eqb_spec k' k) as [->|]; constructor; auto.
Qed.

Lemma wellKept_set w k s c r :
  wellKept w -> session_id s = k -> NoDup (map name (connections s)) ->
  wellKept {| sessions := OMap.set k s (sessions w); clockReads := c; randomReads := r |}.
Proof.
  intros [Hnd Hall] Hid Hnames. split; simpl.
  - by apply OMapFacts.keys_set_NoDup.
  - by apply entries_set_Forall_key.
Qed.

Lemma wellKept_filter (P : string * UserSession -> Prop) `{!forall e, Decision (P e)} w c r :
  wellKept w ->
  wellKept {| sessions := filter P (sessions w); clockReads := c; randomReads := r |}.
Proof.
  intros [Hnd Hall]. split; simpl.
  - eapply sublist_NoDup; [exact Hnd|]. apply (fmap_sublist fst), sublist_filter.
  - rewrite Forall_forall in Hall. apply Forall_forall.
    intros e [_ He]%list_elem_of_filter. by apply Hall.
Qed.

Lemma wellKept_counters w c r :
  wellKept w -> wellKept {| sessions := sessions w; clockReads := c; randomReads := r |}.
Proof. by intros [? ?]. Qed.

Lemma wellKept_get w k s :
  wellKept w -> OMap.get k (sessions w) = Some s ->
  session_id s = k /\ NoDup (map name (connections s)).
Proof. intros [_ Hall] Hget. exact (entries_get_Forall _ _ _ _ Hall Hget). Qed.

Section Manager.

Variable now : nat -> Z.
Variable randomHex : nat -> string.

(** One touch of a session, spelled out. *)
Lemma getSession_unfold sessionId w :
  getSession now sessionId w =
  match OMap.get sessionId (sessions w) with
  | None => (None, w)
  | Some session =>
      if SESSION_TTL <? now (clockReads w) - lastActive session
      then (None, {| sessions := delete sessionId (sessions w);
                     clockReads := S (clockReads w); randomReads := randomReads w |})
      else
        let session1 := {| session_id := session_id session;
                           connections := connections session;
                           createdAt := createdAt session;
                           lastActive := now (S (clockReads w)) |} in
        (Some session1,
         {| sessions := OMap.set sessionId session1 (sessions w);
            clockReads := S (S (clockReads w)); randomReads := randomReads w |})
  end.
Proof.
  unfold getSession, bind, sessionsGet, dateNow, sessionsDelete, sessionsSet, ret. simpl.
  destruct (OMap.get sessionId (sessions w)) as [session|]; [|done].
  by destruct (SESSION_TTL <? now (clockReads w) - lastActive session).
Qed.

Lemma getSession_wellKept sessionId w :
  wellKept w ->
  wellKept (getSession now sessionId w).2 /\
  forall s, (getSession now sessionId w).1 = Some s ->
    session_id s = sessionId /\ NoDup (map name (connections s)) /\
    OMap.get sessionId (sessions (getSession now sessionId w).2) = Some s.
Proof.
  intros Hw. rewrite getSession_unfold.
  destruct (OMap.get sessionId (sessions w)) as [session|] eqn:Hget; [|done].
  destruct (wellKept_get w sessionId session Hw Hget) as [Hid Hnames].
  destruct (SESSION_TTL <? now (clockReads w) - lastActive session); simpl.
  - split; [|done]. by apply wellKept_filter.
  - split; [by apply wellKept_set|]. intros s [= <-]. simpl.
    split_and!; [done|done|]. apply OMapFacts.get_set_eq.
Qed.

Lemma touch_wellKept sessionId session conns w :
  wellKept w -> session_id session = sessionId -> NoDup (map name conns) ->
  wellKept (touch now sessionId session conns w).2.
Proof.
  intros Hw Hid Hnames. unfold touch, bind, dateNow, sessionsSet. simpl.
  apply (wellKept_set {| sessions := sessions w; clockReads := S (clockReads w);
                         randomReads := randomReads w |}); [|done|done].
  by apply wellKept_counters.
Qed.

Lemma find_name_None n conns :
  List.find (fun c => String.eqb (name c) n) conns = None -> n ∉ map name conns.
Proof.
  induction conns as [|c conns IH]; simpl; [intros _; apply not_elem_of_nil|].
  destruct (String.eqb_spec (name c) n) as [|Hne]; [done|].
  intros H. apply not_elem_of_cons. split; [congruence|by apply IH].
Qed.

Lemma find_name_Some n conns c :
  List.find (fun c => String.eqb (name c) n) conns = Some c -> name c = n.
Proof.
  induction conns as [|c0 conns IH]; simpl; [done|].
  destruct (String.eqb_spec (name c0) n) as [Heq|Hne]; [by intros [= <-]|done].
Qed.

Lemma findInOthers_name sessionId n entries c :
  findInOthers sessionId n entries = Some c -> name c = n.
Proof.
  induction entries as [|[k s] entries IH]; simpl; [done|].
  destruct (String.eqb k sessionId); [done|].
  destruct (List.find _ (connections s)) as [c0|] eqn:Hfind; [|done].
  intros [= <-]. by eapply find_name_Some.
Qed.

Lemma names_after_add n conns c :
  NoDup (map name conns) -> name c = n ->
  NoDup (map name (filter (fun c0 => name c0 <> n) conns ++ [c])).
Proof.
  intros Hnd Hc. rewrite map_app. apply NoDup_app. split_and!.
  - eapply sublist_NoDup; [exact Hnd|]. apply (fmap_sublist name), sublist_filter.
  - intros x Hx Hx'. simpl in Hx'. apply list_elem_of_singleton in Hx' as ->.
    apply list_elem_of_fmap in Hx as (c0 & Hn & Hin).
    apply list_elem_of_filter in Hin as [Hne _]. congruence.
  - simpl. apply NoDup_singleton.
Qed.

Lemma names_after_push n conns c :
  NoDup (map name conns) -> n ∉ map name conns -> name c = n ->
  NoDup (map name (conns ++ [c])).
Proof.
  intros Hnd Hn Hc. rewrite map_app. apply NoDup_app. split_and!; [done| |].
  - intros x Hx Hx'. simpl in Hx'. apply list_elem_of_singleton in Hx' as ->.
    by rewrite Hc in Hx.
  - simpl. apply NoDup_singleton.
Qed.

Lemma after_wellKept c w : wellKept w -> wellKept (after now randomHex c w).
Proof.
  intros Hw. destruct c as [|s|s conn|s i|s i|s n|s n|]; cbn [after].
  - unfold createSession, generateSessionId, bind, randomBytes, dateNow, sessionsSet, ret.
    simpl. apply (wellKept_set {| sessions := sessions w; clockReads := S (S (clockReads w));
                                   randomReads := S (randomReads w) |}); [|done|constructor].
    by apply wellKept_counters.
  - by apply getSession_wellKept.
  - unfold addConnection, bind at 1.
    destruct (getSession_wellKept s w Hw) as [Hw1 Hs].
    destruct (getSession now s w) as [[session|] w1]; simpl in *; [|done].
    destruct (Hs session eq_refl) as (Hid & Hnames & _).
    apply wellKept_set; [done|done|]. simpl.
    by apply names_after_add.
  - unfold removeConnection, bind at 1.
    destruct (getSession_wellKept s w Hw) as [Hw1 Hs].
    destruct (getSession now s w) as [[session|] w1]; simpl in *; [|done].
    destruct (Hs session eq_refl) as (Hid & Hnames & _).
    apply wellKept_set; [done|done|]. simpl.
    eapply sublist_NoDup; [exact Hnames|]. apply (fmap_sublist name), sublist_filter.
  - unfold getConnection, bind.
    destruct (getSession_wellKept s w Hw) as [Hw1 Hs].
    by destruct (getSession now s w) as [[session|] w1].
  - unfold getConnectionByName, bind.
    destruct (getSession_wellKept s w Hw) as [Hw1 Hs].
    by destruct (getSession now s w) as [[session|] w1].
  - unfold syncConnectionToSession, bind at 1.
    destruct (getSession_wellKept s w Hw) as [Hw1 Hs].
    destruct (getSession now s w) as [[session|] w1]; simpl in *; [|done].
    destruct (Hs session eq_refl) as (Hid & Hnames & _).
    destruct (List.find _ (connections session)) as [c0|] eqn:Hfind; [done|].
    unfold bind, sessionsEntries.
    destruct (findInOthers s n (sessions w1)) as [connection|] eqn:Hother; [|done].
    apply wellKept_set; [done|done|]. simpl.
    apply (names_after_push n); [done|by apply find_name_None|].
    simpl. by eapply findInOthers_name.
  - unfold cleanupExpiredSessions, bind, dateNow. simpl.
    apply (wellKept_filter _ {| sessions := sessions w; clockReads := S (clockReads w);
                                randomReads := randomReads w |}).
    by apply wellKept_counters.
Qed.

(** X24. No session ever holds two connections of one name.  Whatever
    calls are made on a new session manager, in whatever order, and
    whatever the clock and the random source return, every session sits
    under its own id and the names of its connections are pairwise
    different: [addConnection] replaces a connection of the same name and
    [syncConnectionToSession] copies one only when the name is not there. *)
Theorem connection_names_stay_unique calls :
  wellKept (foldl (fun w c => after now randomHex c w) fresh calls).
Proof.
  induction calls as [|c calls IH] using rev_ind.
  - split; constructor.
  - rewrite foldl_snoc. by apply after_wellKept.
Qed.

Lemma addConnection_unfold sessionId connection w :
  addConnection now randomHex sessionId connection w =
  match getSession now sessionId w with
  | (None, w1) => (false, w1)
  | (Some session, w1) =>
      (true,
       {| sessions :=
            OMap.set sessionId
              {| session_id := session_id session;
                 connections :=
                   (filter (fun c => name c <> name connection) (connections session)
                    ++ [withId (randomHex (randomReads w1)) connection])%list;
                 createdAt := createdAt session;
                 lastActive := now (clockReads w1) |}
              (sessions w1);
          clockReads := S (clockReads w1);
          randomReads := S (randomReads w1) |})
  end.
Proof.
  unfold addConnection, bind at 1.
  by destruct (getSession now sessionId w) as [[session|] w1].
Qed.

Lemma find_added n conns c :
  name c = n ->
  List.find (fun c0 => String.eqb (name c0) n) (filter (fun c0 => name c0 <> n) conns ++ [c])
  = Some c.
Proof.
  intros Hc. induction conns as [|c0 conns IH]; simpl.
  - by rewrite Hc, String.eqb_refl.
  - rewrite filter_cons. destruct (decide (name c0 <> n)) as [Hne|Heq]; [|done].
    simpl. by destruct (String.eqb_spec (name c0) n).
Qed.

Lemma getSession_randomReads sessionId w :
  randomReads (getSession now sessionId w).2 = randomReads w.
Proof.
  rewrite getSession_unfold.
  destruct (OMap.get sessionId (sessions w)) as [session|]; [|done].
  by destruct (SESSION_TTL <? now (clockReads w) - lastActive session).
Qed.

(** X25. A connection that was added is found by its name.  When
    [addConnection] returns true, it has drawn one value from the random
    source, and the next lookup of that name in that session, made before
    the session expires, returns the connection as it was passed in,
    under that value as its id. *)
Theorem added_connection_is_found sessionId connection w :
  let w1 := (addConnection now randomHex sessionId connection w).2 in
  (addConnection now randomHex sessionId connection w).1 = true ->
  now (clockReads w1) - now (pred (clockReads w1)) <= SESSION_TTL ->
  randomReads w1 = S (randomReads w) /\
  (getConnectionByName now sessionId (name connection) w1).1
  = Some (withId (randomHex (randomReads w)) connection).
Proof.
  cbv zeta. rewrite addConnection_unfold.
  pose proof (getSession_randomReads sessionId w) as Hrandom.
  destruct (getSession now sessionId w) as [[session|] w0]; [|done].
  cbn [fst snd clockReads randomReads Nat.pred] in *. intros _ Hlive.
  rewrite Hrandom. split; [done|].
  unfold getConnectionByName, bind. rewrite getSession_unfold.
  cbn [sessions clockReads]. rewrite OMapFacts.get_set_eq. cbn [lastActive].
  destruct (Z.ltb_spec SESSION_TTL (now (S (clockReads w0)) - now (clockReads w0))); [lia|].
  cbv zeta. unfold ret. cbn [fst connections].
  by apply find_added.
Qed.

(** X26. A session lives for 24 hours after its last touch.  A touch
    finds the session exactly when it is in the map and the clock is at
    most 24 hours past [lastActive]; it then moves [lastActive] to the
    present and keeps the connections.  Otherwise the session is gone
    from the map, and a later touch does not find it either, whatever the
    clock says then.  No touch changes another session. *)
Theorem session_expires_after_a_day sessionId w :
  let r := (getSession now sessionId w).1 in
  let w1 := (getSession now sessionId w).2 in
  (is_Some r <->
   exists session, OMap.get sessionId (sessions w) = Some session /\
                   now (clockReads w) - lastActive session <= SESSION_TTL) /\
  (forall s1, r = Some s1 ->
     OMap.get sessionId (sessions w1) = Some s1 /\
     lastActive s1 = now (S (clockReads w)) /\
     exists session, OMap.get sessionId (sessions w) = Some session /\
                     connections s1 = connections session) /\
  (r = None ->
     OMap.get sessionId (sessions w1) = None /\ (getSession now sessionId w1).1 = None) /\
  (forall other, other <> sessionId ->
     OMap.get other (sessions w1) = OMap.get other (sessions w)).
Proof.
  cbv zeta. rewrite getSession_unfold.
  destruct (OMap.get sessionId (sessions w)) as [session|] eqn:Hget.
  - destruct (Z.ltb_spec SESSION_TTL (now (clockReads w) - lastActive session)); simpl.
    + split_and!.
      * split; [by intros [? ?]|]. intros (s & [= <-] & Hs). lia.
      * done.
      * intros _. split; [apply get_delete_eq|].
        rewrite getSession_unfold. simpl. by rewrite get_delete_eq.
      * intros other Hne. by apply get_delete_ne.
    + split_and!.
      * split; [|by eauto]. intros _. exists session. split; [done|lia].
      * intros s1 [= <-]. simpl. split_and!; [apply OMapFacts.get_set_eq|done|by eauto].
      * done.
      * intros other Hne. by apply OMapFacts.get_set_ne.
  - simpl. split_and!.
    + split; [by intros [? ?]|]. by intros (s & ? & _).
    + done.
    + intros _. split; [done|]. by rewrite getSession_unfold, Hget.
    + done.
Qed.

End Manager.

Lemma added_connection_is_found_witness :
  let w0 := (createSession clock0 random0 fresh).2 in
  let w1 := (addConnection clock0 random0 "0" local w0).2 in
  (addConnection clock0 random0 "0" local w0).1 = true /\
  clock0 (clockReads w1) - clock0 (pred (clockReads w1)) <= SESSION_TTL /\
  randomReads w1 = S (randomReads w0) /\
  (getConnectionByName clock0 "0" (name local) w1).1
  = Some (withId (random0 (randomReads w0)) local).
Proof.
  intros w0 w1.
  assert (H1 : (addConnection clock0 random0 "0" local w0).1 = true) by reflexivity.
  assert (H2 : clock0 (clockReads w1) - clock0 (pred (clockReads w1)) <= SESSION_TTL)
    by (vm_compute; discriminate).
  split; [exact H1|]. split; [exact H2|].
  exact (added_connection_is_found clock0 random0 "0" local w0 H1 H2).
Defined.

End SessionFacts.

(** * The merge in place *)

Module SharedMerge.
Import Shared.



Lemma sortInsertObj_elem x l y : y ∈ sortInsertObj x l -> y = x \/ y ∈ l.
Proof.
  induction l as [|z l IH]; simpl.
  - intros ->%list_elem_of_singleton. by left.
  - destruct (o_estBytes x <? o_estBytes z).
    + intros [->|Hy]%elem_of_cons; [right; apply list_elem_of_here|].
      destruct (IH Hy) as [->|Hin]; [by left|]. right. by apply list_elem_of_further.
    + intros [->|Hy]%elem_of_cons; [by left|by right].
Qed.

Lemma sortObj_elem l y : y ∈ foldr sortInsertObj [] l -> y ∈ l.
Proof.
  induction l as [|x l IH]; simpl; [done|].
  intros [->|Hy]%sortInsertObj_elem; [apply list_elem_of_here|].
  by apply list_elem_of_further, IH.
Qed.

Lemma values_set_elem {V : Type} (pm : list (string * V)) k v y :
  y ∈ OMap.values (OMap.set k v pm) -> y = v \/ y ∈ OMap.values pm.
Proof.
  unfold OMap.values. induction pm as [|[k' v'] pm IH]; simpl.
  - intros ->%list_elem_of_singleton. by left.
  - destruct (String.eqb k' k); simpl.
    + intros [->|Hy]%elem_of_cons; [by left|]. right. by apply list_elem_of_further.
    + intros [->|Hy]%elem_of_cons; [right; apply list_elem_of_here|].
      destruct (IH Hy) as [->|Hin]; [by left|]. right. by apply list_elem_of_further.
Qed.

Lemma mergePrefixesObj_objects ps seen h pm :
  (forall r, r ∈ OMap.values pm -> exists o, o ∈ seen /\ sameObjects o r) ->
  forall r, r ∈ OMap.values (foldl mergePrefixObj (h, pm) ps).2 ->
    exists o, o ∈ (seen ++ ps)%list /\ sameObjects o r.
Proof.
  revert seen h pm. induction ps as [|p ps IH]; intros seen h pm Hpm r Hr.
  - simpl in Hr. rewrite app_nil_r. by apply Hpm.
  - cbn [foldl] in Hr.
    replace (seen ++ p :: ps)%list with ((seen ++ [p]) ++ ps)%list
      by (by rewrite <- app_assoc).
    destruct (mergePrefixObj (h, pm) p) as [h1 pm1] eqn:Hstep.
    apply (IH (seen ++ [p])%list h1 pm1); [|done].
    intros r1 Hr1. unfold mergePrefixObj in Hstep. cbn [fst snd] in Hstep.
    destruct (OMap.get (o_prefix p) pm) as [e|] eqn:Hget; injection Hstep as <- <-.
    + apply values_set_elem in Hr1 as [->|Hin].
      * destruct (Hpm e) as (o & Ho & Hsame).
        { by eapply (get_values pm). }
        exists o. split; [apply elem_of_app; by left|].
        destruct Hsame as (H1 & H2 & H3 & H4). by split_and!.
      * destruct (Hpm r1 Hin) as (o & Ho & Hsame).
        exists o. split; [apply elem_of_app; by left|done].
    + apply values_set_elem in Hr1 as [->|Hin].
      * exists p. split; [|by split_and!].
        apply elem_of_app. right. apply list_elem_of_here.
      * destruct (Hpm r1 Hin) as (o & Ho & Hsame).
        exists o. split; [apply elem_of_app; by left|done].
Qed.

(** X28. The histograms of a merge are objects of its inputs.  Every
    record that the merge returns has the name and the three objects,
    [ttlHist], [idleHist] and [byType], of a record of one of the inputs:
    the merge allocates none, so that input shows the merged histograms
    once the merge has run. *)
Theorem merge_result_shares_input_objects h rs r :
  r ∈ o_prefixes (mergeAggregationsObj h rs).2 ->
  exists o, o ∈ concat (map o_prefixes rs) /\ sameObjects o r.
Proof.
  rewrite SharedFacts.mergeAggregationsObj_unfold. cbn [snd o_prefixes].
  intros Hr%sortObj_elem.
  destruct (mergePrefixesObj_objects (concat (map o_prefixes rs)) [] h [] ) with (r := r)
    as (o & Ho & Hsame); [by intros ? ?%elem_of_nil|done|].
  by exists o.
Qed.

Lemma merge_result_shares_input_objects_witness :
  let r := {| o_prefix := "x"; o_count := 2; o_estBytes := 14;
              o_ttlHist := 0; o_idleHist := 1; o_byType := 0 |} in
  r ∈ o_prefixes (mergeAggregationsObj heap0 [objA; objC]).2 /\
  exists o, o ∈ concat (map o_prefixes [objA; objC]) /\ sameObjects o r.
Proof.
  intros r.
  assert (Hr : r ∈ o_prefixes (mergeAggregationsObj heap0 [objA; objC]).2).
  { apply list_elem_of_lookup. exists 0%nat. vm_compute. reflexivity. }
  split; [exact Hr|].
  exact (merge_result_shares_input_objects heap0 [objA; objC] r Hr).
Defined.

(** ** Inputs that share no object, in any grouping and order *)













(** ** Prefixes of equal size *)








(** ** The top-N lists, re-merged *)






(** ** What holds of a merge of inputs that share no object *)







End SharedMerge.
